(** * droid2api: credential pool, resilient dispatcher, response transformers

    A shallow embedding of the protocol-translation and dispatch core of
    droid2api (auth.js, routes.js, transformers/response-openai.js) and
    the properties of its specification that are stated over it.

    Conventions of the embedding.
    - JavaScript strings are Rocq strings holding the UTF-8 encoding of the
      text; every prefix the code slices off is ASCII, so byte offsets and
      UTF-16 offsets agree where the code uses them.
    - JavaScript numbers are integers ([Z]); fractional numbers are outside
      the model.
    - Exceptions are explicit: a function that can throw returns [Exc].
    - Module-level mutable variables are fields of a state record threaded
      through the calls; console and logger output is a list of events.
    - Platform services (JSON.parse, JSON.stringify, the clock, the network)
      are section variables; reference instances are given for the concrete
      examples. *)

From Stdlib Require Import ZArith List String Ascii Bool Lia DecimalString.
Import ListNotations.

Set Warnings "-register-all".

Open Scope string_scope.
Open Scope list_scope.
Open Scope Z_scope.

(* ================================================================== *)
(** * JavaScript runtime helpers *)
(* ================================================================== *)

Module JS.

(** Thrown values. *)
Inductive JsError :=
| TypeError
| Error (msg : string)
| NetworkFailure (msg : string).

(** Result of an expression that may throw. *)
Inductive Exc (A : Type) :=
| Ret (a : A)
| Throw (e : JsError).
Arguments Ret {A} a.
Arguments Throw {A} e.

Definition bind {A B} (m : Exc A) (k : A -> Exc B) : Exc B :=
  match m with
  | Ret a => k a
  | Throw e => Throw e
  end.

(** [xs[i]] for a JavaScript array: [undefined] outside the bounds. *)
Definition nthZ {A} (l : list A) (i : Z) : option A :=
  if i <? 0 then None else nth_error l (Z.to_nat i).

Definition Z_to_string (x : Z) : string :=
  NilZero.string_of_int (Z.to_int x).

(** The string whose bytes are [l]. *)
Definition bytes (l : list nat) : string :=
  fold_right (fun n s => String (ascii_of_nat n) s) EmptyString l.

Fixpoint rev_string (s : string) (acc : string) : string :=
  match s with
  | EmptyString => acc
  | String c s' => rev_string s' (String c acc)
  end.

(** [s.startsWith(p)] and the remainder after the prefix. *)
Fixpoint strip_prefix (p s : string) : option string :=
  match p, s with
  | EmptyString, _ => Some s
  | String a p', String b s' => if Ascii.eqb a b then strip_prefix p' s' else None
  | String _ _, EmptyString => None
  end.

Definition startsWith (s p : string) : bool :=
  match strip_prefix p s with Some _ => true | None => false end.

(** [s.slice(n)] for [n] within an ASCII prefix of [s]. *)
Fixpoint slice (n : nat) (s : string) : string :=
  match n, s with
  | O, _ => s
  | S n', String _ s' => slice n' s'
  | S _, EmptyString => EmptyString
  end.

(** ECMAScript WhiteSpace and LineTerminator code points, UTF-8 encoded:
    U+0009..U+000D, U+0020, U+00A0, U+1680, U+2000..U+200A, U+2028,
    U+2029, U+202F, U+205F, U+3000, U+FEFF. *)
Definition whitespace : list (list nat) :=
  [ [9%nat]; [10%nat]; [11%nat]; [12%nat]; [13%nat]; [32%nat];
    [194; 160]; [225; 154; 128];
    [226; 128; 128]; [226; 128; 129]; [226; 128; 130]; [226; 128; 131];
    [226; 128; 132]; [226; 128; 133]; [226; 128; 134]; [226; 128; 135];
    [226; 128; 136]; [226; 128; 137]; [226; 128; 138];
    [226; 128; 168]; [226; 128; 169]; [226; 128; 175];
    [226; 129; 159]; [227; 128; 128]; [239; 187; 191] ]%nat.

Fixpoint strip_any (ps : list string) (s : string) : option string :=
  match ps with
  | [] => None
  | p :: ps' =>
      match strip_prefix p s with
      | Some r => Some r
      | None => strip_any ps' s
      end
  end.

(** Strips while a sequence of [ps] leads; every round removes a
    character at least, so the length of [s] is fuel enough. *)
Fixpoint strip_all (fuel : nat) (ps : list string) (s : string) : string :=
  match fuel with
  | O => s
  | S fuel' =>
      match strip_any ps s with
      | Some r => strip_all fuel' ps r
      | None => s
      end
  end.

Definition trimStart (s : string) : string :=
  strip_all (String.length s) (map bytes whitespace) s.

Definition trimEnd (s : string) : string :=
  let r := rev_string s EmptyString in
  let ps := map (fun l => bytes (rev l)) whitespace in
  rev_string (strip_all (String.length r) ps r) EmptyString.

(** [s.trim()]. *)
Definition trim (s : string) : string := trimEnd (trimStart s).

(** The double quote character, and a text written with ['] where it
    has a double quote. *)
Definition dquote : ascii := ascii_of_nat 34.

Fixpoint q (s : string) : string :=
  match s with
  | EmptyString => EmptyString
  | String c s' =>
      String (if Ascii.eqb c (ascii_of_nat 39) then dquote else c) (q s')
  end.

(** Truthiness of a string: the empty string is falsy. *)
Definition truthy_string (s : string) : bool :=
  match s with EmptyString => false | _ => true end.

(** [s.split('\n')]: never empty; the pieces carry no newline. *)
Definition newline : ascii := ascii_of_nat 10.

Fixpoint split_nl (s : string) : list string :=
  match s with
  | EmptyString => [EmptyString]
  | String c s' =>
      if Ascii.eqb c newline then EmptyString :: split_nl s'
      else match split_nl s' with
           | [] => [String c EmptyString]
           | l :: ls => String c l :: ls
           end
  end.

End JS.

Import JS.

(* ================================================================== *)
(** * auth.js: the credential pool *)
(* ================================================================== *)

Module Auth.

(** [authSource]: null until [loadAuthConfig] has run. *)
Inductive AuthSource := SrcNull | SrcEnv | SrcFile | SrcFactoryKey | SrcClient.

Definition AuthSource_eqb (a b : AuthSource) : bool :=
  match a, b with
  | SrcNull, SrcNull | SrcEnv, SrcEnv | SrcFile, SrcFile
  | SrcFactoryKey, SrcFactoryKey | SrcClient, SrcClient => true
  | _, _ => false
  end.

(** The module-level variables of auth.js that the key path reads or
    writes. *)
Record State := mkState {
  currentApiKey : option string;
  authSource : AuthSource;
  factoryApiKeys : list string;
  currentKeyIndex : Z;
  startingKeyIndex : Z;
  hasCompletedFullCycle : bool
}.

Definition initial : State :=
  {| currentApiKey := None;
     authSource := SrcNull;
     factoryApiKeys := [];
     currentKeyIndex := 0;
     startingKeyIndex := 0;
     hasCompletedFullCycle := false |}.

(** Content of ~/.factory/auth.json when it exists and parses. *)
Record AuthFile := mkAuthFile {
  refresh_token : option string;
  access_token : option string
}.

(** What [loadAuthConfig] reads from its surroundings. *)
Record Env := mkEnv {
  getenv : string -> option string;
  factoryAuthFile : option AuthFile
}.

Inductive AuthConfig :=
| CfgFactoryKey (value : list string)
| CfgRefresh (value : string)
| CfgClient.

Definition keyEnvNames : list string :=
  [ "FACTORY_API_KEY"; "FACTORY_API_KEY_2"; "FACTORY_API_KEY_3";
    "FACTORY_API_KEY_4"; "FACTORY_API_KEY_5"; "FACTORY_API_KEY_6";
    "FACTORY_API_KEY_7" ].

(** [v && v.trim() !== ''] *)
Definition nonblank (v : option string) : bool :=
  match v with
  | Some s => truthy_string s && negb (String.eqb (trim s) "")
  | None => false
  end.

(** The loop of [loadAuthConfig] that pushes the configured keys. *)
Definition pushKeys (env : Env) (keys : list string) : list string :=
  fold_left
    (fun acc envName =>
       match getenv env envName with
       | Some keyValue =>
           if nonblank (Some keyValue) then acc ++ [trim keyValue] else acc
       | None => acc
       end)
    keyEnvNames keys.

Definition loadAuthConfig (env : Env) (st : State) : AuthConfig * State :=
  let keys := pushKeys env (factoryApiKeys st) in
  let st1 :=
    {| currentApiKey := currentApiKey st;
       authSource := authSource st;
       factoryApiKeys := keys;
       currentKeyIndex := currentKeyIndex st;
       startingKeyIndex := startingKeyIndex st;
       hasCompletedFullCycle := hasCompletedFullCycle st |} in
  if 0 <? Z.of_nat (List.length keys) then
    (CfgFactoryKey keys,
     {| currentApiKey := currentApiKey st1;
        authSource := SrcFactoryKey;
        factoryApiKeys := keys;
        currentKeyIndex := 0;
        startingKeyIndex := startingKeyIndex st1;
        hasCompletedFullCycle := hasCompletedFullCycle st1 |})
  else
    let envRefreshKey := getenv env "DROID_REFRESH_KEY" in
    if nonblank envRefreshKey then
      (CfgRefresh (trim (match envRefreshKey with Some s => s | None => "" end)),
       {| currentApiKey := currentApiKey st1;
          authSource := SrcEnv;
          factoryApiKeys := keys;
          currentKeyIndex := currentKeyIndex st1;
          startingKeyIndex := startingKeyIndex st1;
          hasCompletedFullCycle := hasCompletedFullCycle st1 |})
    else
      match factoryAuthFile env with
      | Some authData =>
          if nonblank (refresh_token authData) then
            (CfgRefresh
               (trim (match refresh_token authData with Some s => s | None => "" end)),
             {| currentApiKey :=
                  match access_token authData with
                  | Some t => if truthy_string t then Some (trim t)
                              else currentApiKey st1
                  | None => currentApiKey st1
                  end;
                authSource := SrcFile;
                factoryApiKeys := keys;
                currentKeyIndex := currentKeyIndex st1;
                startingKeyIndex := startingKeyIndex st1;
                hasCompletedFullCycle := hasCompletedFullCycle st1 |})
          else
            (CfgClient,
             {| currentApiKey := currentApiKey st1;
                authSource := SrcClient;
                factoryApiKeys := keys;
                currentKeyIndex := currentKeyIndex st1;
                startingKeyIndex := startingKeyIndex st1;
                hasCompletedFullCycle := hasCompletedFullCycle st1 |})
      | None =>
          (CfgClient,
           {| currentApiKey := currentApiKey st1;
              authSource := SrcClient;
              factoryApiKeys := keys;
              currentKeyIndex := currentKeyIndex st1;
              startingKeyIndex := startingKeyIndex st1;
              hasCompletedFullCycle := hasCompletedFullCycle st1 |})
      end.

Definition set_currentApiKey (k : option string) (st : State) : State :=
  {| currentApiKey := k;
     authSource := authSource st;
     factoryApiKeys := factoryApiKeys st;
     currentKeyIndex := currentKeyIndex st;
     startingKeyIndex := startingKeyIndex st;
     hasCompletedFullCycle := hasCompletedFullCycle st |}.

(** The token-refresh collaborator as [getApiKey] sees it: whether the
    token is stale ([shouldRefresh()]) and what [refreshApiKey()] yields. *)
Record Refresher := mkRefresher {
  shouldRefresh : bool;
  refreshApiKey : Exc string
}.

Definition factoryMode (st : State) : bool :=
  AuthSource_eqb (authSource st) SrcFactoryKey.

(** [getApiKey(clientAuthorization)].  In factory-key mode the debug line
    evaluates [currentKey.substring], which throws when the index selects
    no key. *)
Definition getApiKey (rf : Refresher) (clientAuthorization : option string)
    (st : State) : Exc string * State :=
  if factoryMode st && (0 <? Z.of_nat (List.length (factoryApiKeys st))) then
    match nthZ (factoryApiKeys st) (currentKeyIndex st) with
    | Some currentKey => (Ret ("Bearer " ++ currentKey)%string, st)
    | None => (Throw TypeError, st)
    end
  else if AuthSource_eqb (authSource st) SrcEnv
          || AuthSource_eqb (authSource st) SrcFile then
    let r :=
      if shouldRefresh rf then
        match refreshApiKey rf with
        | Ret tok => Ret (set_currentApiKey (Some tok) st)
        | Throw e => Throw e
        end
      else Ret st in
    match r with
    | Throw e => (Throw e, st)
    | Ret st' =>
        match currentApiKey st' with
        | Some k =>
            if truthy_string k then (Ret ("Bearer " ++ k)%string, st')
            else (Throw (Error "No API key available from refresh token mechanism."), st')
        | None =>
            (Throw (Error "No API key available from refresh token mechanism."), st')
        end
    end
  else
    match clientAuthorization with
    | Some a =>
        if truthy_string a then (Ret a, st)
        else (Throw (Error "No authorization available."), st)
    | None => (Throw (Error "No authorization available."), st)
    end.

(** Console and logger output of the key path, as events. *)
Inductive LogEvent :=
| LogAttempt (attempt index total : Z)
| LogKeyFailure (status : Z) (errorText : string) (attempt : Z)
| LogFullCycle
| LogRotation (previous active : Z)
| LogRetry
| LogExhausted
| LogFallbackSuccess (index total : Z) (status : Z)
| LogNetworkError (attempt : Z).

Definition poolSize (st : State) : Z := Z.of_nat (List.length (factoryApiKeys st)).

(** [rotateFactoryApiKey()]: the returned boolean, the new state and the
    output.  The rotation banner reads the previous and the new key, which
    throws (after the index has been assigned) if either is missing. *)
Definition rotateFactoryApiKey (st : State) : Exc bool * State * list LogEvent :=
  if negb (factoryMode st) || (poolSize st <=? 1) then (Ret false, st, [])
  else
    let oldIndex := currentKeyIndex st in
    let nextIndex := (currentKeyIndex st + 1) mod poolSize st in
    if nextIndex =? startingKeyIndex st then
      (Ret false,
       {| currentApiKey := currentApiKey st;
          authSource := authSource st;
          factoryApiKeys := factoryApiKeys st;
          currentKeyIndex := currentKeyIndex st;
          startingKeyIndex := startingKeyIndex st;
          hasCompletedFullCycle := true |},
       [LogFullCycle])
    else
      let st' :=
        {| currentApiKey := currentApiKey st;
           authSource := authSource st;
           factoryApiKeys := factoryApiKeys st;
           currentKeyIndex := nextIndex;
           startingKeyIndex := startingKeyIndex st;
           hasCompletedFullCycle := hasCompletedFullCycle st |} in
      match nthZ (factoryApiKeys st) oldIndex, nthZ (factoryApiKeys st) nextIndex with
      | Some _, Some _ => (Ret true, st', [LogRotation (oldIndex + 1) (nextIndex + 1)])
      | _, _ => (Throw TypeError, st', [])
      end.

(** [hasMoreFactoryKeys()] *)
Definition hasMoreFactoryKeys (st : State) : bool :=
  if negb (factoryMode st) || (poolSize st <=? 1) then false
  else negb (hasCompletedFullCycle st).

(** [startNewRotationCycle()] *)
Definition startNewRotationCycle (st : State) : State :=
  {| currentApiKey := currentApiKey st;
     authSource := authSource st;
     factoryApiKeys := factoryApiKeys st;
     currentKeyIndex := currentKeyIndex st;
     startingKeyIndex := currentKeyIndex st;
     hasCompletedFullCycle := false |}.

Record KeyInfo := mkKeyInfo { index : Z; total : Z }.

(** [getCurrentKeyInfo()]; the preview field is a prefix of the key and
    is left out, but reading it throws when the index selects no key. *)
Definition getCurrentKeyInfo (st : State) : Exc (option KeyInfo) :=
  if factoryMode st && (0 <? poolSize st) then
    match nthZ (factoryApiKeys st) (currentKeyIndex st) with
    | Some _ => Ret (Some {| index := currentKeyIndex st + 1; total := poolSize st |})
    | None => Throw TypeError
    end
  else Ret None.

(** Modelled from the spec: routes.js imports [didRotationOccur] from
    auth.js, and auth.js does not define it.  The spec describes the
    rotation cycle by the active index and the index the cycle started at,
    the second reset to the first when a dispatch starts and the first
    advanced by every rotation, and it reports a fallback success on
    success after at least one rotation: a rotation has occurred in the
    cycle when the two indices differ. *)
Definition didRotationOccur (st : State) : bool :=
  negb (currentKeyIndex st =? startingKeyIndex st).

(** A call of one of the exported functions that write the variables
    above. *)
Inductive PoolCall :=
| CallStartNewRotationCycle
| CallRotateFactoryApiKey
| CallGetApiKey (rf : Refresher) (clientAuthorization : option string).

Definition call (c : PoolCall) (st : State) : State :=
  match c with
  | CallStartNewRotationCycle => startNewRotationCycle st
  | CallRotateFactoryApiKey => snd (fst (rotateFactoryApiKey st))
  | CallGetApiKey rf clientAuthorization => snd (getApiKey rf clientAuthorization st)
  end.

Definition calls (cs : list PoolCall) (st : State) : State :=
  fold_left (fun s c => call c s) cs st.

(** A call that only reads the key in factory-key mode. *)
Definition isKeyRead (c : PoolCall) : bool :=
  match c with
  | CallGetApiKey _ _ => true
  | _ => false
  end.

(** States the process can be in: the configuration is loaded once at
    start-up; afterwards the state changes only through the exported
    functions, in whatever order the requests call them. *)
Inductive reachable (env : Env) : State -> Prop :=
| reach_load : reachable env (snd (loadAuthConfig env initial))
| reach_cycle st : reachable env st -> reachable env (startNewRotationCycle st)
| reach_rotate st :
    reachable env st -> reachable env (snd (fst (rotateFactoryApiKey st)))
| reach_getApiKey rf clientAuthorization st :
    reachable env st -> reachable env (snd (getApiKey rf clientAuthorization st)).

End Auth.

(* ================================================================== *)
(** * routes.js: the resilient dispatcher *)
(* ================================================================== *)

Module Dispatch.
Import Auth.

(** An upstream response: its status and its body stream, which can be
    read once. *)
Record Response := mkResponse {
  status : Z;
  responseBody : string;
  bodyUsed : bool
}.

(** [response.clone()] refuses a body that was already read. *)
Definition clone (r : Response) : Exc Response :=
  if bodyUsed r then Throw (Error "cannot clone body after it is used")
  else Ret r.

(** [response.text()]: the text, and the response with its body consumed. *)
Definition text (r : Response) : Exc (string * Response) :=
  if bodyUsed r then Throw TypeError
  else Ret (responseBody r,
            {| status := status r; responseBody := responseBody r; bodyUsed := true |}).

(** A response as [fetch] delivers it: nothing has read its body yet. *)
Definition fresh (statusCode : Z) (payload : string) : Response :=
  {| status := statusCode; responseBody := payload; bodyUsed := false |}.

(** What the network does with one call: an HTTP response (status and
    body) or a transport failure. *)
Inductive FetchOutcome :=
| Responded (statusCode : Z) (payload : string)
| Failed (e : JsError).

Record FetchOptions := mkFetchOptions {
  headers : list (string * string);
  body : string
}.

(** [obj[k] = v] on an object with string values: an existing key keeps
    its place, a new key goes last. *)
Fixpoint set_header (k v : string) (h : list (string * string)) : list (string * string) :=
  match h with
  | [] => [(k, v)]
  | (k', v') :: h' =>
      if String.eqb k' k then (k, v) :: h' else (k', v') :: set_header k v h'
  end.

Fixpoint get_header (k : string) (h : list (string * string)) : option string :=
  match h with
  | [] => None
  | (k', v') :: h' => if String.eqb k' k then Some v' else get_header k h'
  end.

Definition set_authorization (v : string) (o : FetchOptions) : FetchOptions :=
  {| headers := set_header "authorization" v (headers o); body := body o |}.

(** [isQuotaOrAuthError(statusCode)] *)
Definition isQuotaOrAuthError (statusCode : Z) : bool :=
  (statusCode =? 429) || (statusCode =? 401) || (statusCode =? 403) || (statusCode =? 402).

Definition maxAttempts : Z := 10.

(** One upstream call as the proof observes it: the attempt number, the
    active key index and the Authorization header that was sent. *)
Record Attempt := mkAttempt {
  attemptNo : Z;
  keyIndex : Z;
  sentAuthorization : option string
}.

(** The places where [fetchWithFallback] waits: for the upstream's
    answer, for the text of a failed answer, for the new header. *)
Inductive AwaitPoint := AwaitFetch | AwaitText | AwaitGetApiKey.

(** Nobody else touches the pool. *)
Definition alone (attempt : Z) (point : AwaitPoint) : list PoolCall := [].

(** What a dispatch leaves behind. *)
Record Run := mkRun {
  outcome : Exc Response;
  finalAuth : State;
  finalOptions : FetchOptions;
  output : list LogEvent;
  attempts : list Attempt
}.

Section Dispatcher.

(** The pool is module-level state of auth.js, one for the whole
    process.  While a dispatch waits at an [await], other requests run
    and call the exported functions of auth.js: [others attempt point]
    is what they call while this dispatch waits at [point] in its
    iteration [attempt]. *)
Variable others : Z -> AwaitPoint -> list PoolCall.

(** The network: the outcome of the [attempt]-th [fetch] of a dispatch
    for the options it is called with. *)
Variable fetch : Z -> FetchOptions -> FetchOutcome.

Variable refresher : Refresher.

(** The [catch] block: log and rethrow. *)
Definition caught (e : JsError) (attempt : Z) (st : State) (opts : FetchOptions)
    (out : list LogEvent) (tr : list Attempt) : Run :=
  {| outcome := Throw e; finalAuth := st; finalOptions := opts;
     output := out ++ [LogNetworkError attempt]; attempts := tr |}.

(** Leaving the [while] loop by its condition. *)
Definition afterLoop (st : State) (opts : FetchOptions)
    (out : list LogEvent) (tr : list Attempt) : Run :=
  {| outcome := Throw (Error "Request failed after all attempts");
     finalAuth := st; finalOptions := opts; output := out; attempts := tr |}.

(** The [while (attempt <= maxAttempts)] loop.  [st] is the pool as the
    dispatch finds it when it runs; after each [await] it is the pool as
    the other requests have left it.  [fuel] counts the iterations that
    are left: the loop starts at attempt 1 with [maxAttempts] of them and
    every round adds one to [attempt], so the fuel is used up when the
    loop condition fails, not before (DispatchFacts.fetchLoop_fuel). *)
Fixpoint fetchLoop (fuel : nat) (attempt : Z) (st : State) (opts : FetchOptions)
    (out : list LogEvent) (tr : list Attempt) : Run :=
  match fuel with
  | O => afterLoop st opts out tr
  | S fuel' =>
    if negb (attempt <=? maxAttempts) then afterLoop st opts out tr else
    match getCurrentKeyInfo st with
    | Throw e => caught e attempt st opts out tr
    | Ret keyInfo =>
      let out1 :=
        out ++ match keyInfo with
               | Some k => [LogAttempt attempt (index k) (total k)]
               | None => []
               end in
      let tr1 :=
        tr ++ [ {| attemptNo := attempt; keyIndex := currentKeyIndex st;
                   sentAuthorization := get_header "authorization" (headers opts) |} ] in
      (* await fetch(url, fetchOptions) *)
      let st1 := calls (others attempt AwaitFetch) st in
      match fetch attempt opts with
      | Failed e => caught e attempt st1 opts out1 tr1
      | Responded statusCode payload =>
        let response := fresh statusCode payload in
        if isQuotaOrAuthError (status response) then
          match bind (clone response) text with
          | Throw e => caught e attempt st1 opts out1 tr1
          | Ret (errorText, _) =>
            (* await responseClone.text() *)
            let st2 := calls (others attempt AwaitText) st1 in
            let out2 := out1 ++ [LogKeyFailure (status response) errorText attempt] in
            let exhausted (st' : State) (o : list LogEvent) : Run :=
              {| outcome := Ret response; finalAuth := st'; finalOptions := opts;
                 output := o ++ [LogExhausted]; attempts := tr1 |} in
            if hasMoreFactoryKeys st2 then
              match rotateFactoryApiKey st2 with
              | (Throw e, st', o) => caught e attempt st' opts (out2 ++ o) tr1
              | (Ret true, st', o) =>
                  (* await getApiKey() *)
                  match getApiKey refresher None st' with
                  | (Throw e, st'') =>
                      caught e attempt (calls (others attempt AwaitGetApiKey) st'')
                        opts (out2 ++ o) tr1
                  | (Ret newAuthHeader, st'') =>
                      fetchLoop fuel' (attempt + 1)
                        (calls (others attempt AwaitGetApiKey) st'')
                        (set_authorization newAuthHeader opts)
                        (out2 ++ o ++ [LogRetry]) tr1
                  end
              | (Ret false, st', o) => exhausted st' (out2 ++ o)
              end
            else exhausted st2 out2
          end
        else if didRotationOccur st1 then
          match getCurrentKeyInfo st1 with
          | Throw e => caught e attempt st1 opts out1 tr1
          | Ret keyInfo2 =>
              {| outcome := Ret response; finalAuth := st1; finalOptions := opts;
                 output :=
                   out1 ++ match keyInfo2 with
                           | Some k => [LogFallbackSuccess (index k) (total k) (status response)]
                           | None => []
                           end;
                 attempts := tr1 |}
          end
        else
          {| outcome := Ret response; finalAuth := st1; finalOptions := opts;
             output := out1; attempts := tr1 |}
      end
    end
  end.

(** [fetchWithFallback(url, fetchOptions, endpointName)] *)
Definition fetchWithFallback (st : State) (fetchOptions : FetchOptions) : Run :=
  fetchLoop (Z.to_nat maxAttempts) 1 (startNewRotationCycle st) fetchOptions [] [].

End Dispatcher.

End Dispatch.

(* ================================================================== *)
(** * JavaScript values as JSON delivers them *)
(* ================================================================== *)

Module Json.

(** A value obtained from [JSON.parse] or built by an object literal.
    [JObj] lists the own properties in property order. *)
Inductive JSVal :=
| JUndefined
| JNull
| JBool (b : bool)
| JNum (n : Z)
| JStr (s : string)
| JArr (items : list JSVal)
| JObj (props : list (string * JSVal)).

(** ToBoolean *)
Definition truthy (v : JSVal) : bool :=
  match v with
  | JUndefined | JNull => false
  | JBool b => b
  | JNum n => negb (n =? 0)
  | JStr s => truthy_string s
  | JArr _ | JObj _ => true
  end.

(** [a || b] *)
Definition or_else (a b : JSVal) : JSVal := if truthy a then a else b.

Fixpoint lookup (k : string) (props : list (string * JSVal)) : JSVal :=
  match props with
  | [] => JUndefined
  | (k', v) :: props' => if String.eqb k' k then v else lookup k props'
  end.

(** [v.k] for the property names the code reads (none of them is a
    built-in property of strings, numbers or arrays): it throws on
    [undefined] and [null]. *)
Definition prop (v : JSVal) (k : string) : Exc JSVal :=
  match v with
  | JUndefined | JNull => Throw TypeError
  | JObj props => Ret (lookup k props)
  | _ => Ret JUndefined
  end.

(** [v?.k] *)
Definition optprop (v : JSVal) (k : string) : JSVal :=
  match v with
  | JObj props => lookup k props
  | _ => JUndefined
  end.

(** [v === 'text'] *)
Definition is_string (v : JSVal) (s : string) : bool :=
  match v with
  | JStr s' => String.eqb s' s
  | _ => false
  end.

(** [obj.k = v]: an existing property keeps its place, a new one goes last. *)
Fixpoint set_prop (k : string) (v : JSVal) (props : list (string * JSVal))
  : list (string * JSVal) :=
  match props with
  | [] => [(k, v)]
  | (k', v') :: props' =>
      if String.eqb k' k then (k, v) :: props' else (k', v') :: set_prop k v props'
  end.

(** [delete obj.k] *)
Fixpoint delete_prop (k : string) (props : list (string * JSVal))
  : list (string * JSVal) :=
  match props with
  | [] => []
  | (k', v') :: props' =>
      if String.eqb k' k then delete_prop k props' else (k', v') :: delete_prop k props'
  end.

Definition has_prop (k : string) (props : list (string * JSVal)) : bool :=
  existsb (fun kv => String.eqb (fst kv) k) props.

(** ToString, as string concatenation and [Array.prototype.join] apply
    it, of numbers that print in decimal notation (below 10^21 in
    absolute value) and of objects without an own property toString; for
    an object that has one JavaScript raises a TypeError instead. *)
Fixpoint toString (v : JSVal) : string :=
  match v with
  | JUndefined => "undefined"
  | JNull => "null"
  | JBool true => "true"
  | JBool false => "false"
  | JNum n => Z_to_string n
  | JStr s => s
  | JArr items =>
      String.concat ","
        (map (fun e => match e with
                       | JUndefined | JNull => EmptyString
                       | _ => toString e
                       end) items)
  | JObj _ => "[object Object]"
  end.

(** [items.join('')] *)
Definition join_empty (items : list JSVal) : string :=
  String.concat ""
    (map (fun e => match e with
                   | JUndefined | JNull => EmptyString
                   | _ => toString e
                   end) items).

(** SameValueZero, the key comparison of [Map]: primitives by value;
    two objects or arrays that come from different parses are different
    references. *)
Definition sameValueZero (a b : JSVal) : bool :=
  match a, b with
  | JUndefined, JUndefined => true
  | JNull, JNull => true
  | JBool x, JBool y => Bool.eqb x y
  | JNum x, JNum y => x =? y
  | JStr x, JStr y => String.eqb x y
  | _, _ => false
  end.

End Json.

(* ================================================================== *)
(** * Buffer.toString(): UTF-8 decoding of one chunk *)
(* ================================================================== *)

Module Utf8.

(** U+FFFD REPLACEMENT CHARACTER *)
Definition replacement : string := bytes [239; 191; 189]%nat.

Inductive Lead :=
| Single
| LeadOf (needed lower upper : nat)
| Invalid.

(** The first byte of a sequence: how many continuation bytes it needs
    and the range allowed for the next one. *)
Definition classify (b : nat) : Lead :=
  if (b <=? 127)%nat then Single
  else if ((194 <=? b) && (b <=? 223))%nat then LeadOf 1 128 191
  else if ((224 <=? b) && (b <=? 239))%nat then
    LeadOf 2 (if (b =? 224)%nat then 160 else 128)%nat
             (if (b =? 237)%nat then 159 else 191)%nat
  else if ((240 <=? b) && (b <=? 244))%nat then
    LeadOf 3 (if (b =? 240)%nat then 144 else 128)%nat
             (if (b =? 244)%nat then 143 else 191)%nat
  else Invalid.

(** The decoder, writing the decoded text again as UTF-8: well-formed
    sequences pass, every ill-formed or truncated one becomes U+FFFD.
    [pending] holds the bytes of the sequence being read. *)
Fixpoint decode (s : string) (needed lower upper : nat) (pending : string) : string :=
  match s with
  | EmptyString =>
      match needed with O => EmptyString | S _ => replacement end
  | String c rest =>
      let b := nat_of_ascii c in
      let start : string :=
        match classify b with
        | Single => String c (decode rest 0 128 191 EmptyString)
        | LeadOf n lo hi => decode rest n lo hi (String c EmptyString)
        | Invalid => (replacement ++ decode rest 0 128 191 EmptyString)%string
        end in
      match needed with
      | O => start
      | S n' =>
          if ((lower <=? b) && (b <=? upper))%nat then
            match n' with
            | O => (pending ++ String c (decode rest 0 128 191 EmptyString))%string
            | S _ => decode rest n' 128 191 (pending ++ String c EmptyString)%string
            end
          else (replacement ++ start)%string
      end
  end.

(** [chunk.toString()] for a Buffer [chunk]. *)
Definition Buffer_toString (chunk : string) : string :=
  decode chunk 0 128 191 EmptyString.

End Utf8.

(* ================================================================== *)
(** * transformers/response-openai.js: the streaming transformer *)
(* ================================================================== *)

Module ResponseOpenAI.
Import Json.

(** An entry of [this.toolCalls]. *)
Record ToolCall := mkToolCall {
  tc_index : Z;
  tc_id : JSVal;
  tc_name : JSVal;
  tc_arguments : string
}.

(** The fields of an [OpenAIResponseTransformer] instance.  [toolCalls]
    is the [Map] in insertion order. *)
Record Transformer := mkTransformer {
  model : string;
  requestId : string;
  created : Z;
  toolCalls : list (JSVal * ToolCall);
  toolCallIndex : Z;
  isDone : bool
}.

(** [new OpenAIResponseTransformer(model, requestId)], the clock reading
    [now] in milliseconds. *)
Definition construct (now : Z) (model : string) (requestId : option string) : Transformer :=
  {| model := model;
     requestId :=
       match requestId with
       | Some r => if truthy_string r then r
                   else ("chatcmpl-" ++ Z_to_string now)%string
       | None => ("chatcmpl-" ++ Z_to_string now)%string
       end;
     created := now / 1000;
     toolCalls := [];
     toolCallIndex := 0;
     isDone := false |}.

(** [Map.prototype.get] *)
Fixpoint map_get (k : JSVal) (m : list (JSVal * ToolCall)) : option ToolCall :=
  match m with
  | [] => None
  | (k', v) :: m' => if sameValueZero k' k then Some v else map_get k m'
  end.

(** [Map.prototype.set] *)
Fixpoint map_set (k : JSVal) (v : ToolCall) (m : list (JSVal * ToolCall))
  : list (JSVal * ToolCall) :=
  match m with
  | [] => [(k, v)]
  | (k', v') :: m' =>
      if sameValueZero k' k then (k', v) :: m' else (k', v') :: map_set k v m'
  end.

Definition with_toolCalls (m : list (JSVal * ToolCall)) (i : Z) (t : Transformer)
  : Transformer :=
  {| model := model t; requestId := requestId t; created := created t;
     toolCalls := m; toolCallIndex := i; isDone := isDone t |}.

Definition with_isDone (b : bool) (t : Transformer) : Transformer :=
  {| model := model t; requestId := requestId t; created := created t;
     toolCalls := toolCalls t; toolCallIndex := toolCallIndex t; isDone := b |}.

(** One line of the upstream stream, parsed. *)
Inductive SSELine :=
| EventLine (value : string)
| DataLine (value : JSVal).

Definition doneSignal : string := "data: [DONE]" ++ bytes [10; 10]%nat.

Section Platform.

(** [JSON.parse]: [None] when it throws. *)
Variable JSON_parse : string -> option JSVal.
(** [JSON.stringify] *)
Variable JSON_stringify : JSVal -> string.
(** [Date.now()] *)
Variable Date_now : Z.

(** [`data: ${JSON.stringify(chunk)}\n\n`] *)
Definition frame (chunk : JSVal) : string :=
  ("data: " ++ JSON_stringify chunk ++ bytes [10; 10]%nat)%string.

(** [parseSSELine(line)] *)
Definition parseSSELine (line : string) : option SSELine :=
  if startsWith line "event:" then Some (EventLine (trim (slice 6 line)))
  else if startsWith line "data:" then
    let dataStr := trim (slice 5 line) in
    match JSON_parse dataStr with
    | Some v => Some (DataLine v)
    | None => Some (DataLine (JStr dataStr))
    end
  else None.

(** The object that [createOpenAIChunk] serialises. *)
Definition openAIChunk (t : Transformer) (content : JSVal) (role : JSVal)
    (finish : bool) (finishReason : JSVal) : JSVal :=
  let delta0 : list (string * JSVal) := [] in
  let delta1 := if truthy role then set_prop "role" role delta0 else delta0 in
  let delta2 := if truthy content then set_prop "content" content delta1 else delta1 in
  JObj [ ("id", JStr (requestId t));
         ("object", JStr "chat.completion.chunk");
         ("created", JNum (created t));
         ("model", JStr (model t));
         ("choices",
          JArr [ JObj [ ("index", JNum 0);
                        ("delta", JObj delta2);
                        ("finish_reason", if finish then finishReason else JNull) ] ]) ].

(** [createOpenAIChunk(content, role = null, finish = false, finishReason = null)] *)
Definition createOpenAIChunk (t : Transformer) (content : JSVal) (role : JSVal)
    (finish : bool) (finishReason : JSVal) : string :=
  frame (openAIChunk t content role finish finishReason).

(** [createDoneSignal()] *)
Definition createDoneSignal : string := doneSignal.

(** The object that [createToolCallChunk] serialises. *)
Definition toolCallChunk (t : Transformer) (index : Z) (toolCallId : JSVal)
    (functionName : JSVal) (argumentsDelta : JSVal) (isFirst : bool) : JSVal :=
  let toolCallDelta :=
    if isFirst then
      [ ("index", JNum index);
        ("id", toolCallId);
        ("type", JStr "function");
        ("function", JObj [ ("name", functionName); ("arguments", JStr "") ]) ]
    else
      [ ("index", JNum index);
        ("function", JObj [ ("arguments", argumentsDelta) ]) ] in
  JObj [ ("id", JStr (requestId t));
         ("object", JStr "chat.completion.chunk");
         ("created", JNum (created t));
         ("model", JStr (model t));
         ("choices",
          JArr [ JObj [ ("index", JNum 0);
                        ("delta", JObj [ ("tool_calls", JArr [ JObj toolCallDelta ]) ]);
                        ("finish_reason", JNull) ] ]) ].

Definition createToolCallChunk (t : Transformer) (index : Z) (toolCallId : JSVal)
    (functionName : JSVal) (argumentsDelta : JSVal) (isFirst : bool) : string :=
  frame (toolCallChunk t index toolCallId functionName argumentsDelta isFirst).

(** The object that [createCompleteToolCallChunk] serialises. *)
Definition completeToolCallChunk (t : Transformer) (index : Z) (toolCallId : JSVal)
    (functionName : JSVal) (functionArgs : JSVal) : JSVal :=
  JObj [ ("id", JStr (requestId t));
         ("object", JStr "chat.completion.chunk");
         ("created", JNum (created t));
         ("model", JStr (model t));
         ("system_fingerprint", JStr "fp_factory");
         ("choices",
          JArr [ JObj [ ("index", JNum 0);
                        ("delta",
                         JObj [ ("role", JStr "assistant");
                                ("tool_calls",
                                 JArr [ JObj [ ("index", JNum index);
                                               ("id", toolCallId);
                                               ("type", JStr "function");
                                               ("function",
                                                JObj [ ("name", functionName);
                                                       ("arguments", functionArgs) ]) ] ]) ]);
                        ("finish_reason", JNull) ] ]) ].

Definition createCompleteToolCallChunk (t : Transformer) (index : Z)
    (toolCallId functionName functionArgs : JSVal) : string :=
  frame (completeToolCallChunk t index toolCallId functionName functionArgs).

(** [item.call_id || item.id || `call_${Date.now()}`] for a truthy [item]. *)
Definition toolCallIdOf (item : JSVal) : JSVal :=
  or_else (optprop item "call_id")
    (or_else (optprop item "id") (JStr ("call_" ++ Z_to_string Date_now)%string)).

(** [transformEvent(eventType, eventData)]: the returned string ([None]
    for null) or the exception, and the transformer afterwards. *)
Definition transformEvent (t : Transformer) (eventType : string) (eventData : JSVal)
  : Exc (option string) * Transformer :=
  let isType := String.eqb eventType in
  if isType "response.created" then
    (Ret (Some (createOpenAIChunk t (JStr "") (JStr "assistant") false JNull)), t)
  else if isType "response.in_progress" then (Ret None, t)
  else if isType "response.output_text.delta" || isType "response.text.delta"
          || isType "response.content_part.delta" then
    match prop eventData "delta" with
    | Throw e => (Throw e, t)
    | Ret d =>
        let text := or_else d (or_else (optprop eventData "text") (JStr "")) in
        (Ret (Some (createOpenAIChunk t text (JStr "assistant") false JNull)), t)
    end
  else if isType "response.output_text.done" || isType "response.text.done"
          || isType "response.content_part.done" then (Ret None, t)
  else
    (* [response.content_part.added] and [response.output_item.added]:
       a text part returns early, anything else falls through *)
    let early : Exc bool :=
      if isType "response.content_part.added" || isType "response.output_item.added" then
        match prop eventData "item" with
        | Throw e => Throw e
        | Ret i =>
            let item := or_else i (optprop eventData "part") in
            Ret (truthy item && is_string (optprop item "type") "output_text")
        end
      else Ret false in
    match early with
    | Throw e => (Throw e, t)
    | Ret true => (Ret None, t)
    | Ret false =>
      if isType "response.output_item.added" then
        match prop eventData "item" with
        | Throw e => (Throw e, t)
        | Ret item =>
            if truthy item && is_string (optprop item "type") "function_call" then
              let toolCallId := toolCallIdOf item in
              let index := toolCallIndex t in
              let name := or_else (optprop item "name") (JStr "") in
              let t' :=
                with_toolCalls
                  (map_set (optprop item "id")
                     {| tc_index := index; tc_id := toolCallId;
                        tc_name := name; tc_arguments := "" |}
                     (toolCalls t))
                  (index + 1) t in
              (Ret (Some (createToolCallChunk t' index toolCallId name (JStr "") true)), t')
            else (Ret None, t)
        end
      else if isType "response.function_call_arguments.delta" then
        match prop eventData "item_id" with
        | Throw e => (Throw e, t)
        | Ret itemId =>
            let delta := or_else (optprop eventData "delta") (JStr "") in
            match map_get itemId (toolCalls t) with
            | Some toolCall =>
                let toolCall' :=
                  {| tc_index := tc_index toolCall; tc_id := tc_id toolCall;
                     tc_name := tc_name toolCall;
                     tc_arguments := (tc_arguments toolCall ++ toString delta)%string |} in
                let t' :=
                  with_toolCalls (map_set itemId toolCall' (toolCalls t))
                                 (toolCallIndex t) t in
                (Ret (Some (createToolCallChunk t' (tc_index toolCall) (tc_id toolCall)
                              JNull delta false)), t')
            | None => (Ret None, t)
            end
        end
      else if isType "response.function_call_arguments.done" then (Ret None, t)
      else if isType "response.output_item.done" then
        match prop eventData "item" with
        | Throw e => (Throw e, t)
        | Ret item =>
            if truthy item && is_string (optprop item "type") "function_call" then
              let toolCallId := toolCallIdOf item in
              let index := toolCallIndex t in
              let t' := with_toolCalls (toolCalls t) (index + 1) t in
              (Ret (Some (createCompleteToolCallChunk t' index toolCallId
                            (or_else (optprop item "name") (JStr ""))
                            (or_else (optprop item "arguments") (JStr "{}")))), t')
            else (Ret None, t)
        end
      else if isType "response.done" || isType "response.completed" then
        match prop eventData "response" with
        | Throw e => (Throw e, t)
        | Ret response =>
            let status :=
              or_else (optprop response "status")
                (or_else (optprop eventData "status") (JStr "completed")) in
            let finishReason :=
              if is_string status "completed" then
                if 0 <? Z.of_nat (List.length (toolCalls t))
                then "tool_calls" else "stop"
              else if is_string status "incomplete" then "length"
              else "stop" in
            let t' := with_isDone true t in
            (Ret (Some (createOpenAIChunk t' (JStr "") JNull true (JStr finishReason)
                        ++ createDoneSignal)%string), t')
        end
      else (Ret None, t)
    end.

(** The variables of one [transformStream] run besides the buffer:
    the pending event type, the transformer, what was yielded so far
    and the exception that left the loop, if any.  [delivered] is not
    in the code: it records the calls of [transformEvent] for the
    statements below. *)
Record LineState := mkLineState {
  currentEvent : option string;
  xf : Transformer;
  yielded : list string;
  thrown : option JsError;
  delivered : list (string * JSVal)
}.

(** The body of [for (const line of lines)]; nothing runs once an
    exception has left the loop. *)
Definition consumeLine (ls : LineState) (line : string) : LineState :=
  match thrown ls with
  | Some _ => ls
  | None =>
    if negb (truthy_string (trim line)) then ls
    else match parseSSELine line with
    | None => ls
    | Some (EventLine value) =>
        {| currentEvent := Some value; xf := xf ls;
           yielded := yielded ls; thrown := None; delivered := delivered ls |}
    | Some (DataLine value) =>
        match currentEvent ls with
        | None => ls
        | Some ev =>
          if truthy_string ev then
            match transformEvent (xf ls) ev value with
            | (Throw e, t') =>
                {| currentEvent := currentEvent ls; xf := t';
                   yielded := yielded ls; thrown := Some e;
                   delivered := delivered ls ++ [(ev, value)] |}
            | (Ret transformed, t') =>
                {| currentEvent := None; xf := t';
                   yielded :=
                     yielded ls ++
                     match transformed with
                     | Some s => if truthy_string s then [s] else []
                     | None => []
                     end;
                   thrown := None;
                   delivered := delivered ls ++ [(ev, value)] |}
            end
          else ls
        end
    end
  end.

(** [lines = buffer.split('\n'); buffer = lines.pop() || '']: the
    complete lines and the new buffer. *)
Definition cut (buffer : string) : list string * string :=
  let lines := split_nl buffer in
  (removelast lines, last lines EmptyString).

(** The variables of one [transformStream] run. *)
Record StreamState := mkStreamState {
  buffer : string;
  lineState : LineState
}.

(** The body of [for await (const chunk of sourceStream)]. *)
Definition consumeChunk (st : StreamState) (chunk : string) : StreamState :=
  match thrown (lineState st) with
  | Some _ => st
  | None =>
      let (lines, rest) := cut (buffer st ++ Utf8.Buffer_toString chunk)%string in
      {| buffer := rest; lineState := fold_left consumeLine lines (lineState st) |}
  end.

(** An upstream body: the chunks it delivers and, when reading it
    fails, the error that ends it. *)
Record Source := mkSource {
  chunks : list string;
  failure : option JsError
}.

(** What the consumer of the generator sees: the strings it yields, in
    order, and how it ends. *)
Record Emitted := mkEmitted {
  yields : list string;
  ending : Exc unit
}.

(** The end of [transformStream]: the code after the loop when nothing
    was thrown, its [catch] block otherwise. *)
Definition finish (ls : LineState) (failure : option JsError) : Emitted :=
  let error :=
    match thrown ls with
    | Some e => Some e
    | None => failure
    end in
  match error with
  | None =>
      if negb (isDone (xf ls)) then
        {| yields := yielded ls
                     ++ [createOpenAIChunk (xf ls) (JStr "") JNull true (JStr "stop");
                         createDoneSignal];
           ending := Ret tt |}
      else {| yields := yielded ls; ending := Ret tt |}
  | Some e =>
      if negb (isDone (xf ls)) then
        {| yields := yielded ls ++ [createDoneSignal]; ending := Throw e |}
      else {| yields := yielded ls; ending := Throw e |}
  end.

Definition start (t : Transformer) : StreamState :=
  {| buffer := EmptyString;
     lineState := {| currentEvent := None; xf := with_isDone false t;
                     yielded := []; thrown := None; delivered := [] |} |}.

(** The state of the loop after the last chunk. *)
Definition consumed (t : Transformer) (sourceStream : Source) : LineState :=
  lineState (fold_left consumeChunk (chunks sourceStream) (start t)).

(** [transformStream(sourceStream)] *)
Definition transformStream (t : Transformer) (sourceStream : Source) : Emitted :=
  finish (consumed t sourceStream) (failure sourceStream).

End Platform.

End ResponseOpenAI.

(* ================================================================== *)
(** * routes.js: response normaliser and request policy injection *)
(* ================================================================== *)

Module Routes.
Import Json.

(** [s.replace(/^resp_/, 'chatcmpl-')] *)
Definition replace_resp_prefix (s : string) : string :=
  match strip_prefix "resp_" s with
  | Some rest => ("chatcmpl-" ++ rest)%string
  | None => s
  end.

(** [xs.find(o => o.type === 'message')]; reading [o.type] throws on a
    null element. *)
Fixpoint find_message (items : list JSVal) : Exc JSVal :=
  match items with
  | [] => Ret JUndefined
  | o :: items' =>
      match prop o "type" with
      | Throw e => Throw e
      | Ret ty => if is_string ty "message" then Ret o else find_message items'
      end
  end.

(** [xs.filter(c => c.type === 'output_text')] *)
Fixpoint filter_output_text (items : list JSVal) : Exc (list JSVal) :=
  match items with
  | [] => Ret []
  | c :: items' =>
      match prop c "type" with
      | Throw e => Throw e
      | Ret ty =>
          match filter_output_text items' with
          | Throw e => Throw e
          | Ret rest => Ret (if is_string ty "output_text" then c :: rest else rest)
          end
      end
  end.

(** [a ?? b] *)
Definition nullish_else (a b : JSVal) : JSVal :=
  match a with
  | JUndefined | JNull => b
  | _ => a
  end.

(** [convertResponseToChatCompletion(resp)], the clock reading [now] in
    milliseconds. *)
Definition convertResponseToChatCompletion (now : Z) (resp : JSVal) : Exc JSVal :=
  match resp with
  | JArr _ | JObj _ =>
    (* (resp.output || []).find(...) *)
    let outputMsg : Exc JSVal :=
      let output := optprop resp "output" in
      if truthy output then
        match output with
        | JArr items => find_message items
        | _ => Throw TypeError
        end
      else Ret JUndefined in
    bind outputMsg (fun outputMsg =>
    (* outputMsg?.content?.filter(...) || [] *)
    let textBlocks : Exc (list JSVal) :=
      match optprop outputMsg "content" with
      | JUndefined | JNull => Ret []
      | JArr items => filter_output_text items
      | _ => Throw TypeError
      end in
    bind textBlocks (fun textBlocks =>
    let content := join_empty (map (fun c => optprop c "text") textBlocks) in
    let id : Exc JSVal :=
      let rid := optprop resp "id" in
      if truthy rid then
        match rid with
        | JStr s => Ret (JStr (replace_resp_prefix s))
        | _ => Throw TypeError
        end
      else Ret (JStr ("chatcmpl-" ++ Z_to_string now)%string) in
    bind id (fun id =>
    Ret (JObj
      [ ("id", id);
        ("object", JStr "chat.completion");
        ("created", or_else (optprop resp "created_at") (JNum (now / 1000)));
        ("model", or_else (optprop resp "model") (JStr "unknown-model"));
        ("choices",
         JArr [ JObj
           [ ("index", JNum 0);
             ("message",
              JObj [ ("role", or_else (optprop outputMsg "role") (JStr "assistant"));
                     ("content", or_else (JStr content) (JStr "")) ]);
             ("finish_reason",
              if is_string (optprop resp "status") "completed"
              then JStr "stop" else JStr "unknown") ] ]);
        ("usage",
         JObj [ ("prompt_tokens",
                 nullish_else (optprop (optprop resp "usage") "input_tokens") (JNum 0));
                ("completion_tokens",
                 nullish_else (optprop (optprop resp "usage") "output_tokens") (JNum 0));
                ("total_tokens",
                 nullish_else (optprop (optprop resp "usage") "total_tokens") (JNum 0)) ]) ]))))
  | _ => Throw (Error "Invalid response object")
  end.

(** [['low', 'medium', 'high'].includes(level)] *)
Definition is_level (level : string) : bool :=
  String.eqb level "low" || String.eqb level "medium" || String.eqb level "high".

(** The request that [handleDirectResponses] forwards (the object that
    becomes the outbound body), from the client's request object, the
    redirected model id, the configured system prompt and the model's
    reasoning level ([None] for a model without one). *)
Definition handleDirectResponses_modifiedRequest
    (systemPrompt : string) (modelId : string) (reasoningLevel : option string)
    (openaiRequest : list (string * JSVal)) : list (string * JSVal) :=
  (* { ...openaiRequest, model: modelId } *)
  let r0 := set_prop "model" (JStr modelId) openaiRequest in
  let r1 :=
    if truthy_string systemPrompt then
      if truthy (lookup "instructions" r0) then
        set_prop "instructions"
          (JStr (systemPrompt ++ toString (lookup "instructions" r0))%string) r0
      else set_prop "instructions" (JStr systemPrompt) r0
    else r0 in
  (* Enforce minimum max_output_tokens (API requires >= 16) *)
  let r2 :=
    match lookup "max_output_tokens" r1 with
    | JNum n => if n <? 16 then set_prop "max_output_tokens" (JNum 16) r1 else r1
    | _ => r1
    end in
  match reasoningLevel with
  | Some level =>
      if String.eqb level "auto" then r2
      else if truthy_string level && is_level level then
        set_prop "reasoning"
          (JObj [ ("effort", JStr level); ("summary", JStr "auto") ]) r2
      else delete_prop "reasoning" r2
  | None => delete_prop "reasoning" r2
  end.

(** [budgetTokens[reasoningLevel]] *)
Definition budgetTokens (level : string) : JSVal :=
  if String.eqb level "low" then JNum 4096
  else if String.eqb level "medium" then JNum 12288
  else if String.eqb level "high" then JNum 24576
  else JUndefined.

(** The request that [handleDirectMessages] forwards. *)
Definition handleDirectMessages_modifiedRequest
    (systemPrompt : string) (modelId : string) (reasoningLevel : option string)
    (anthropicRequest : list (string * JSVal)) : list (string * JSVal) :=
  let r0 := set_prop "model" (JStr modelId) anthropicRequest in
  let r1 :=
    if truthy_string systemPrompt then
      let block := JObj [ ("type", JStr "text"); ("text", JStr systemPrompt) ] in
      match lookup "system" r0 with
      | JArr items => set_prop "system" (JArr (block :: items)) r0
      | _ => set_prop "system" (JArr [block]) r0
      end
    else r0 in
  match reasoningLevel with
  | Some level =>
      if String.eqb level "auto" then r1
      else if truthy_string level && is_level level then
        set_prop "thinking"
          (JObj [ ("type", JStr "enabled"); ("budget_tokens", budgetTokens level) ]) r1
      else delete_prop "thinking" r1
  | None => delete_prop "thinking" r1
  end.

End Routes.

(* ================================================================== *)
(** * A reference JSON.parse / JSON.stringify *)
(* ================================================================== *)

(** Instances of the two platform functions for the concrete runs below.
    The fragment: objects, arrays, strings with the escapes of the JSON
    grammar, integers without fraction or exponent, [true], [false],
    [null].  A [\uXXXX] escape of a surrogate and a number with a
    fraction or an exponent are rejected. *)
Module JsonRef.
Import Json.

Definition hexdigit (n : nat) : ascii :=
  match nth_error (list_ascii_of_string "0123456789abcdef") n with
  | Some c => c
  | None => "0"%char
  end.

(** QuoteJSONString on UTF-8 text: the two-character escapes, [\u00XX]
    for the other control characters, everything else as it is. *)
Fixpoint quote_chars (s : string) : string :=
  match s with
  | EmptyString => EmptyString
  | String c s' =>
      let n := nat_of_ascii c in
      let rest := quote_chars s' in
      if (n =? 34)%nat then String "\"%char (String dquote rest)
      else if (n =? 92)%nat then String "\"%char (String "\"%char rest)
      else if (n =? 8)%nat then String "\"%char (String "b"%char rest)
      else if (n =? 12)%nat then String "\"%char (String "f"%char rest)
      else if (n =? 10)%nat then String "\"%char (String "n"%char rest)
      else if (n =? 13)%nat then String "\"%char (String "r"%char rest)
      else if (n =? 9)%nat then String "\"%char (String "t"%char rest)
      else if (n <? 32)%nat then
        ("\u00" ++ String (hexdigit (n / 16)) (String (hexdigit (n mod 16)) rest))%string
      else String c rest
  end.

Definition quote (s : string) : string :=
  String dquote (quote_chars s ++ String dquote EmptyString)%string.

(** [JSON.stringify(v)] without indentation: a property whose value is
    [undefined] is left out, an [undefined] array element becomes null. *)
Fixpoint stringify (v : JSVal) : string :=
  match v with
  | JUndefined => "undefined"
  | JNull => "null"
  | JBool true => "true"
  | JBool false => "false"
  | JNum n => Z_to_string n
  | JStr s => quote s
  | JArr items =>
      ("[" ++ String.concat ","
                (map (fun e => match e with
                               | JUndefined => "null"
                               | _ => stringify e
                               end) items) ++ "]")%string
  | JObj props =>
      ("{" ++ String.concat ","
                ((fix members (ps : list (string * JSVal)) : list string :=
                    match ps with
                    | [] => []
                    | (k, JUndefined) :: ps' => members ps'
                    | (k, e) :: ps' => (quote k ++ ":" ++ stringify e)%string :: members ps'
                    end) props) ++ "}")%string
  end.

Definition is_ws (c : ascii) : bool :=
  let n := nat_of_ascii c in
  ((n =? 32) || (n =? 9) || (n =? 10) || (n =? 13))%nat.

Fixpoint skip_ws (s : string) : string :=
  match s with
  | String c s' => if is_ws c then skip_ws s' else s
  | EmptyString => s
  end.

Definition hexval (c : ascii) : option Z :=
  let n := Z.of_nat (nat_of_ascii c) in
  if (48 <=? n) && (n <=? 57) then Some (n - 48)
  else if (97 <=? n) && (n <=? 102) then Some (n - 87)
  else if (65 <=? n) && (n <=? 70) then Some (n - 55)
  else None.

(** UTF-8 of a code point of the Basic Multilingual Plane. *)
Definition encode_bmp (cp : Z) : string :=
  if cp <? 128 then bytes [Z.to_nat cp]
  else if cp <? 2048 then bytes [Z.to_nat (192 + cp / 64); Z.to_nat (128 + cp mod 64)]
  else bytes [Z.to_nat (224 + cp / 4096); Z.to_nat (128 + (cp / 64) mod 64);
              Z.to_nat (128 + cp mod 64)].

(** The characters of a string literal after its opening quote: the
    text and what follows the closing quote. *)
Fixpoint parse_chars (s : string) : option (string * string) :=
  match s with
  | EmptyString => None
  | String c s' =>
      let n := nat_of_ascii c in
      if (n =? 34)%nat then Some (EmptyString, s')
      else if (n =? 92)%nat then
        match s' with
        | String e s'' =>
            let simple (x : nat) :=
              match parse_chars s'' with
              | Some (t, r) => Some (String (ascii_of_nat x) t, r)
              | None => None
              end in
            let m := nat_of_ascii e in
            if (m =? 34)%nat then simple 34%nat
            else if (m =? 92)%nat then simple 92%nat
            else if (m =? 47)%nat then simple 47%nat
            else if (m =? 98)%nat then simple 8%nat
            else if (m =? 102)%nat then simple 12%nat
            else if (m =? 110)%nat then simple 10%nat
            else if (m =? 114)%nat then simple 13%nat
            else if (m =? 116)%nat then simple 9%nat
            else if (m =? 117)%nat then
              match s'' with
              | String h1 (String h2 (String h3 (String h4 r4))) =>
                  match hexval h1, hexval h2, hexval h3, hexval h4 with
                  | Some a, Some b, Some c', Some d =>
                      let cp := ((a * 16 + b) * 16 + c') * 16 + d in
                      if (55296 <=? cp) && (cp <=? 57343) then None
                      else match parse_chars r4 with
                           | Some (t, r) => Some ((encode_bmp cp ++ t)%string, r)
                           | None => None
                           end
                  | _, _, _, _ => None
                  end
              | _ => None
              end
            else None
        | EmptyString => None
        end
      else if (n <? 32)%nat then None
      else match parse_chars s' with
           | Some (t, r) => Some (String c t, r)
           | None => None
           end
  end.

Definition is_digit (c : ascii) : bool :=
  let n := nat_of_ascii c in ((48 <=? n) && (n <=? 57))%nat.

Fixpoint parse_digits (s : string) (acc : Z) : Z * string :=
  match s with
  | String c s' =>
      if is_digit c then parse_digits s' (acc * 10 + Z.of_nat (nat_of_ascii c - 48))
      else (acc, s)
  | EmptyString => (acc, s)
  end.

(** An integer literal: no leading zero, no fraction, no exponent. *)
Definition parse_number (s : string) : option (Z * string) :=
  let (neg, s1) :=
    match s with
    | String "-"%char r => (true, r)
    | _ => (false, s)
    end in
  match s1 with
  | String c r =>
      if is_digit c then
        let (n, rest) :=
          if Ascii.eqb c "0"%char then (0, r) else parse_digits s1 0 in
        match rest with
        | String d _ =>
            if is_digit d || Ascii.eqb d "."%char || Ascii.eqb d "e"%char
               || Ascii.eqb d "E"%char
            then None else Some (if neg then - n else n, rest)
        | EmptyString => Some (if neg then - n else n, rest)
        end
      else None
  | EmptyString => None
  end.

Inductive Mode :=
| MValue
| MElements (acc : list JSVal)
| MMembers (acc : list (string * JSVal)).

(** The recursive descent; every call spends one unit of [fuel]. *)
Fixpoint parse_at (fuel : nat) (m : Mode) (s : string) : option (JSVal * string) :=
  match fuel with
  | O => None
  | S fuel' =>
    match m with
    | MValue =>
        match skip_ws s with
        | String c r =>
            if Ascii.eqb c "{"%char then
              match skip_ws r with
              | String "}"%char r' => Some (JObj [], r')
              | r' => parse_at fuel' (MMembers []) r'
              end
            else if Ascii.eqb c "["%char then
              match skip_ws r with
              | String "]"%char r' => Some (JArr [], r')
              | r' => parse_at fuel' (MElements []) r'
              end
            else if Ascii.eqb c dquote then
              match parse_chars r with
              | Some (t, r') => Some (JStr t, r')
              | None => None
              end
            else
              match strip_prefix "true" (String c r), strip_prefix "false" (String c r),
                    strip_prefix "null" (String c r) with
              | Some r', _, _ => Some (JBool true, r')
              | _, Some r', _ => Some (JBool false, r')
              | _, _, Some r' => Some (JNull, r')
              | _, _, _ =>
                  match parse_number (String c r) with
                  | Some (n, r') => Some (JNum n, r')
                  | None => None
                  end
              end
        | EmptyString => None
        end
    | MElements acc =>
        match parse_at fuel' MValue s with
        | Some (v, r) =>
            match skip_ws r with
            | String ","%char r' => parse_at fuel' (MElements (acc ++ [v])) r'
            | String "]"%char r' => Some (JArr (acc ++ [v]), r')
            | _ => None
            end
        | None => None
        end
    | MMembers acc =>
        match skip_ws s with
        | String c r =>
            if Ascii.eqb c dquote then
              match parse_chars r with
              | Some (k, r1) =>
                  match skip_ws r1 with
                  | String ":"%char r2 =>
                      match parse_at fuel' MValue r2 with
                      | Some (v, r3) =>
                          match skip_ws r3 with
                          | String ","%char r4 =>
                              parse_at fuel' (MMembers (set_prop k v acc)) r4
                          | String "}"%char r4 => Some (JObj (set_prop k v acc), r4)
                          | _ => None
                          end
                      | None => None
                      end
                  | _ => None
                  end
              | None => None
              end
            else None
        | EmptyString => None
        end
    end
  end.

(** [JSON.parse(text)]: [None] where it throws a SyntaxError. *)
Definition parse (text : string) : option JSVal :=
  match parse_at (2 * String.length text + 2) MValue text with
  | Some (v, r) =>
      match skip_ws r with
      | EmptyString => Some v
      | _ => None
      end
  | None => None
  end.

End JsonRef.

(* ================================================================== *)
(** * Properties of the credential pool *)
(* ================================================================== *)

Module AuthFacts.
Import Auth.

(** The pool invariant: at most seven keys; keys are present exactly in
    factory-key mode; the active index selects a key. *)
Definition wf (st : State) : Prop :=
  poolSize st <= 7 /\
  (0 < poolSize st -> authSource st = SrcFactoryKey) /\
  (authSource st = SrcFactoryKey -> 0 <= currentKeyIndex st < poolSize st).

Lemma fold_push_length (f : string -> option string) (names : list string) :
  forall acc : list string,
    (List.length
       (fold_left
          (fun acc envName =>
             match f envName with
             | Some keyValue =>
                 if nonblank (Some keyValue) then acc ++ [trim keyValue] else acc
             | None => acc
             end) names acc)
     <= List.length acc + List.length names)%nat.
Proof.
  induction names as [|n names IH]; intros acc; cbn [fold_left List.length].
  - lia.
  - etransitivity; [apply IH|].
    destruct (f n) as [v|]; [destruct (nonblank (Some v))|];
      try rewrite length_app; cbn [List.length]; lia.
Qed.

Lemma pushKeys_length env keys :
  (List.length (pushKeys env keys) <= List.length keys + 7)%nat.
Proof. unfold pushKeys. apply (fold_push_length (getenv env) keyEnvNames keys). Qed.

Lemma factoryMode_true st : factoryMode st = true <-> authSource st = SrcFactoryKey.
Proof. unfold factoryMode. destruct (authSource st); simpl; split; congruence. Qed.

Lemma wf_load env : wf (snd (loadAuthConfig env initial)).
Proof.
  unfold loadAuthConfig, wf, poolSize. simpl.
  pose proof (pushKeys_length env []) as L. simpl in L.
  destruct (0 <? Z.of_nat (List.length (pushKeys env []))) eqn:E; simpl.
  - apply Z.ltb_lt in E. repeat split; try lia.
  - apply Z.ltb_ge in E.
    destruct (nonblank (getenv env "DROID_REFRESH_KEY")); simpl;
      [ repeat split; try lia; congruence | ].
    destruct (factoryAuthFile env) as [a|]; simpl;
      [ destruct (nonblank (refresh_token a)); simpl | ];
      repeat split; try lia; congruence.
Qed.

Lemma wf_cycle st : wf st -> wf (startNewRotationCycle st).
Proof. unfold wf, poolSize. simpl. tauto. Qed.

Lemma rotate_cases st :
  wf st ->
  (snd (fst (rotateFactoryApiKey st)) = st /\ rotateFactoryApiKey st = (Ret false, st, []))
  \/ (authSource st = SrcFactoryKey /\ 2 <= poolSize st /\
      (currentKeyIndex st + 1) mod poolSize st = startingKeyIndex st /\
      rotateFactoryApiKey st =
        (Ret false,
         {| currentApiKey := currentApiKey st; authSource := authSource st;
            factoryApiKeys := factoryApiKeys st; currentKeyIndex := currentKeyIndex st;
            startingKeyIndex := startingKeyIndex st; hasCompletedFullCycle := true |},
         [LogFullCycle]))
  \/ (authSource st = SrcFactoryKey /\ 2 <= poolSize st /\
      (currentKeyIndex st + 1) mod poolSize st <> startingKeyIndex st /\
      rotateFactoryApiKey st =
        (Ret true,
         {| currentApiKey := currentApiKey st; authSource := authSource st;
            factoryApiKeys := factoryApiKeys st;
            currentKeyIndex := (currentKeyIndex st + 1) mod poolSize st;
            startingKeyIndex := startingKeyIndex st;
            hasCompletedFullCycle := hasCompletedFullCycle st |},
         [LogRotation (currentKeyIndex st + 1)
                      ((currentKeyIndex st + 1) mod poolSize st + 1)])).
Proof.
  intros (Hle & Hsrc & Hidx). unfold rotateFactoryApiKey.
  destruct (factoryMode st) eqn:Hf; simpl; [| left; split; reflexivity].
  apply factoryMode_true in Hf. specialize (Hidx Hf).
  destruct (poolSize st <=? 1) eqn:Hn; [left; split; reflexivity|].
  apply Z.leb_gt in Hn. right.
  destruct ((currentKeyIndex st + 1) mod poolSize st =? startingKeyIndex st) eqn:Hs.
  - apply Z.eqb_eq in Hs. left. repeat split; try assumption; lia.
  - apply Z.eqb_neq in Hs. right.
    assert (Hnext : 0 <= (currentKeyIndex st + 1) mod poolSize st < poolSize st)
      by (apply Z.mod_pos_bound; lia).
    unfold nthZ.
    destruct (currentKeyIndex st <? 0) eqn:E1; [apply Z.ltb_lt in E1; lia|].
    destruct ((currentKeyIndex st + 1) mod poolSize st <? 0) eqn:E2;
      [apply Z.ltb_lt in E2; lia|].
    unfold poolSize in *.
    destruct (nth_error (factoryApiKeys st) (Z.to_nat (currentKeyIndex st))) eqn:N1.
    2:{ apply nth_error_None in N1. lia. }
    destruct (nth_error (factoryApiKeys st)
                (Z.to_nat ((currentKeyIndex st + 1) mod Z.of_nat (List.length (factoryApiKeys st)))))
      eqn:N2.
    2:{ apply nth_error_None in N2. lia. }
    repeat split; try assumption; lia.
Qed.

Lemma wf_rotate st : wf st -> wf (snd (fst (rotateFactoryApiKey st))).
Proof.
  intros H. destruct (rotate_cases st H) as [(E & _) | [(Hs & Hn & _ & E) | (Hs & Hn & _ & E)]].
  - rewrite E. exact H.
  - rewrite E. simpl. destruct H as (A & B & C). unfold wf, poolSize in *. simpl. tauto.
  - rewrite E. simpl. destruct H as (A & B & C). unfold wf, poolSize in *. simpl.
    split; [exact A|]. split; [exact B|].
    intros _. apply Z.mod_pos_bound. lia.
Qed.

Lemma wf_getApiKey rf clientAuthorization st :
  wf st -> wf (snd (getApiKey rf clientAuthorization st)).
Proof.
  intros H. unfold getApiKey.
  destruct (factoryMode st && (0 <? Z.of_nat (List.length (factoryApiKeys st)))).
  - destruct (nthZ (factoryApiKeys st) (currentKeyIndex st)); exact H.
  - destruct (AuthSource_eqb (authSource st) SrcEnv
              || AuthSource_eqb (authSource st) SrcFile).
    + destruct (shouldRefresh rf); [destruct (refreshApiKey rf) as [tok|e]|];
        cbn [set_currentApiKey currentApiKey];
        repeat match goal with
               | |- context [match ?x with _ => _ end] => destruct x
               end; exact H.
    + destruct clientAuthorization as [a|]; [destruct (truthy_string a)|]; exact H.
Qed.

Lemma reachable_wf env st : reachable env st -> wf st.
Proof.
  induction 1;
    [ apply wf_load | apply wf_cycle; assumption | apply wf_rotate; assumption
    | apply wf_getApiKey; assumption ].
Qed.

Lemma nthZ_In {A} (l : list A) i x : nthZ l i = Some x -> In x l.
Proof.
  unfold nthZ. destruct (i <? 0); [discriminate|]. apply nth_error_In.
Qed.

Lemma nthZ_some {A} (l : list A) i :
  0 <= i < Z.of_nat (List.length l) -> exists x, nthZ l i = Some x.
Proof.
  intros H. unfold nthZ. destruct (i <? 0) eqn:E; [apply Z.ltb_lt in E; lia|].
  destruct (nth_error l (Z.to_nat i)) eqn:N; [eauto|].
  apply nth_error_None in N. lia.
Qed.

Lemma getApiKey_factory st :
  wf st -> authSource st = SrcFactoryKey ->
  exists key,
    nthZ (factoryApiKeys st) (currentKeyIndex st) = Some key
    /\ forall rf clientAuthorization,
         getApiKey rf clientAuthorization st = (Ret ("Bearer " ++ key)%string, st).
Proof.
  intros (Hle & Hpos & Hidx) Hsrc. specialize (Hidx Hsrc).
  destruct (nthZ_some (factoryApiKeys st) (currentKeyIndex st) Hidx) as (key & Hk).
  exists key. split; [exact Hk|].
  intros rf ca. unfold getApiKey.
  apply factoryMode_true in Hsrc. rewrite Hsrc. simpl.
  replace (0 <? Z.of_nat (List.length (factoryApiKeys st))) with true
    by (symmetry; apply Z.ltb_lt; unfold poolSize in Hidx; lia).
  rewrite Hk. reflexivity.
Qed.

Lemma getCurrentKeyInfo_factory st :
  wf st -> authSource st = SrcFactoryKey ->
  getCurrentKeyInfo st =
    Ret (Some {| index := currentKeyIndex st + 1; total := poolSize st |}).
Proof.
  intros (Hle & Hpos & Hidx) Hsrc. specialize (Hidx Hsrc).
  destruct (nthZ_some (factoryApiKeys st) (currentKeyIndex st) Hidx) as (key & Hk).
  unfold getCurrentKeyInfo. apply factoryMode_true in Hsrc. rewrite Hsrc. simpl.
  replace (0 <? poolSize st) with true by (symmetry; apply Z.ltb_lt; lia).
  rewrite Hk. reflexivity.
Qed.

(** C10. In every state the process can reach in factory-key mode the
    active index lies in [0, pool size); it is 0 right after the keys are
    loaded; a rotation that takes place assigns (index + 1) mod pool size;
    and [getApiKey] answers "Bearer " followed by the key of the pool at
    the active index. *)
Theorem current_key_index_selects_pool_key :
  forall (env : Env) (st : State),
    reachable env st ->
    authSource st = SrcFactoryKey ->
    0 <= currentKeyIndex st < poolSize st
    /\ currentKeyIndex (snd (loadAuthConfig env initial)) = 0
    /\ (forall st' out,
          rotateFactoryApiKey st = (Ret true, st', out) ->
          currentKeyIndex st' = (currentKeyIndex st + 1) mod poolSize st
          /\ factoryApiKeys st' = factoryApiKeys st)
    /\ exists key,
         nthZ (factoryApiKeys st) (currentKeyIndex st) = Some key
         /\ In key (factoryApiKeys st)
         /\ forall rf clientAuthorization,
              getApiKey rf clientAuthorization st = (Ret ("Bearer " ++ key)%string, st).
Proof.
  intros env st Hr Hsrc.
  pose proof (reachable_wf env st Hr) as Hwf.
  pose proof (wf_load env) as Hl.
  destruct Hwf as (Hle & Hpos & Hidx). specialize (Hidx Hsrc).
  split; [exact Hidx|]. split.
  { unfold loadAuthConfig. simpl.
    destruct (0 <? Z.of_nat (List.length (pushKeys env []))); [reflexivity|].
    destruct (nonblank (getenv env "DROID_REFRESH_KEY")); [reflexivity|].
    destruct (factoryAuthFile env) as [a|];
      [destruct (nonblank (refresh_token a))|]; reflexivity. }
  split.
  { intros st' out E.
    destruct (rotate_cases st (conj Hle (conj Hpos (fun _ => Hidx))))
      as [(_ & E') | [(_ & _ & _ & E') | (_ & _ & _ & E')]];
      rewrite E' in E; inversion E; subst; simpl; auto. }
  destruct (getApiKey_factory st (conj Hle (conj Hpos (fun _ => Hidx))) Hsrc)
    as (key & Hk & Hget).
  exists key. split; [exact Hk|]. split; [eapply nthZ_In; eauto|]. exact Hget.
Qed.

End AuthFacts.

(* ================================================================== *)
(** * Properties of the dispatcher *)
(* ================================================================== *)

Module DispatchFacts.
Import Auth AuthFacts Dispatch.

Lemma get_set_header k v h : get_header k (set_header k v h) = Some v.
Proof.
  induction h as [|[k' v'] h IH]; simpl.
  - rewrite String.eqb_refl. reflexivity.
  - destruct (String.eqb k' k) eqn:E; simpl.
    + rewrite String.eqb_refl. reflexivity.
    + rewrite E. exact IH.
Qed.

Lemma set_set_header k v1 v2 h :
  set_header k v2 (set_header k v1 h) = set_header k v2 h.
Proof.
  induction h as [|[k' v'] h IH]; simpl.
  - rewrite String.eqb_refl. reflexivity.
  - destruct (String.eqb k' k) eqn:E; simpl.
    + rewrite String.eqb_refl. reflexivity.
    + rewrite E, IH. reflexivity.
Qed.

Lemma set_set_authorization v1 v2 o :
  set_authorization v2 (set_authorization v1 o) = set_authorization v2 o.
Proof. unfold set_authorization. simpl. rewrite set_set_header. reflexivity. Qed.

(** The state with another active index. *)
Definition withIndex (i : Z) (st : State) : State :=
  {| currentApiKey := currentApiKey st; authSource := authSource st;
     factoryApiKeys := factoryApiKeys st; currentKeyIndex := i;
     startingKeyIndex := startingKeyIndex st;
     hasCompletedFullCycle := hasCompletedFullCycle st |}.

Definition completed (st : State) : State :=
  {| currentApiKey := currentApiKey st; authSource := authSource st;
     factoryApiKeys := factoryApiKeys st; currentKeyIndex := currentKeyIndex st;
     startingKeyIndex := startingKeyIndex st; hasCompletedFullCycle := true |}.

Definition thisAttempt (a : Z) (st : State) (opts : FetchOptions) : Attempt :=
  {| attemptNo := a; keyIndex := currentKeyIndex st;
     sentAuthorization := get_header "authorization" (headers opts) |}.

(** The other requests leave the rotation alone while the dispatch
    waits: they start no cycle and rotate no key; they may read the key. *)
Definition quiet (others : Z -> AwaitPoint -> list PoolCall) : Prop :=
  forall attempt point, forallb isKeyRead (others attempt point) = true.

Lemma call_reachable env c st : reachable env st -> reachable env (call c st).
Proof.
  intros Hr. destruct c as [| |rf ca]; cbn [call];
    [apply reach_cycle|apply reach_rotate|apply reach_getApiKey]; exact Hr.
Qed.

Lemma calls_reachable env cs :
  forall st, reachable env st -> reachable env (calls cs st).
Proof.
  unfold calls. induction cs as [|c cs IH]; intros st Hr; cbn [fold_left].
  - exact Hr.
  - apply IH, call_reachable, Hr.
Qed.

(** In factory-key mode reading the key changes nothing. *)
Lemma calls_reads cs :
  forall st, wf st -> authSource st = SrcFactoryKey ->
    forallb isKeyRead cs = true -> calls cs st = st.
Proof.
  unfold calls. induction cs as [|c cs IH]; intros st Hwf Hsrc Hq; cbn [fold_left].
  - reflexivity.
  - cbn [forallb] in Hq. apply andb_true_iff in Hq. destruct Hq as (Hc & Hq).
    destruct c as [| |rf ca]; try discriminate. cbn [call].
    destruct (getApiKey_factory st Hwf Hsrc) as (key & _ & Hget).
    rewrite Hget. cbn [snd]. apply IH; assumption.
Qed.

Section Steps.
Variable others : Z -> AwaitPoint -> list PoolCall.
Variable fetch : Z -> FetchOptions -> FetchOutcome.
Variable refresher : Refresher.

Hypothesis Hquiet : quiet others.

Let loop := fetchLoop others fetch refresher.

Lemma undisturbed a point st :
  wf st -> authSource st = SrcFactoryKey -> calls (others a point) st = st.
Proof. intros Hwf Hsrc. apply calls_reads; [exact Hwf|exact Hsrc|apply Hquiet]. Qed.

(** A quota failure while another key is left: rotate and go round. *)
Lemma step_rotate fuel a st opts out tr code payload :
  wf st -> authSource st = SrcFactoryKey -> 2 <= poolSize st ->
  hasCompletedFullCycle st = false ->
  (currentKeyIndex st + 1) mod poolSize st <> startingKeyIndex st ->
  a <= maxAttempts ->
  fetch a opts = Responded code payload ->
  isQuotaOrAuthError code = true ->
  exists key,
    nthZ (factoryApiKeys st) ((currentKeyIndex st + 1) mod poolSize st) = Some key /\
    loop (S fuel) a st opts out tr =
    loop fuel (a + 1)
      (withIndex ((currentKeyIndex st + 1) mod poolSize st) st)
      (set_authorization ("Bearer " ++ key)%string opts)
      (out ++ [LogAttempt a (currentKeyIndex st + 1) (poolSize st);
               LogKeyFailure code payload a;
               LogRotation (currentKeyIndex st + 1)
                           ((currentKeyIndex st + 1) mod poolSize st + 1);
               LogRetry])
      (tr ++ [thisAttempt a st opts]).
Proof.
  intros Hwf Hsrc HN Hc Hne Ha Hf Hq.
  destruct (rotate_cases st Hwf) as [(_ & E) | [(_ & _ & Heq & _) | (_ & _ & _ & E)]].
  - exfalso. unfold rotateFactoryApiKey in E.
    apply factoryMode_true in Hsrc. rewrite Hsrc in E. simpl in E.
    replace (poolSize st <=? 1) with false in E by (symmetry; apply Z.leb_gt; lia).
    destruct ((currentKeyIndex st + 1) mod poolSize st =? startingKeyIndex st) eqn:X.
    + apply Z.eqb_eq in X. contradiction.
    + destruct (nthZ (factoryApiKeys st) (currentKeyIndex st));
        [destruct (nthZ (factoryApiKeys st) ((currentKeyIndex st + 1) mod poolSize st))|];
        discriminate.
  - contradiction.
  - pose proof (wf_rotate st Hwf) as Hwf'. rewrite E in Hwf'. simpl in Hwf'.
    fold (withIndex ((currentKeyIndex st + 1) mod poolSize st) st) in Hwf', E.
    destruct (getApiKey_factory _ Hwf' Hsrc) as (key & Hk & Hget).
    simpl in Hk. exists key. split; [exact Hk|].
    unfold loop. cbn [fetchLoop].
    replace (negb (a <=? maxAttempts)) with false
      by (symmetry; apply negb_false_iff; apply Z.leb_le; lia).
    rewrite (getCurrentKeyInfo_factory st Hwf Hsrc). cbn [index total].
    rewrite (undisturbed a AwaitFetch st Hwf Hsrc).
    rewrite (undisturbed a AwaitText st Hwf Hsrc).
    rewrite Hf. cbn [fresh status]. rewrite Hq.
    cbn [bind clone text bodyUsed responseBody fresh status].
    unfold hasMoreFactoryKeys.
    replace (factoryMode st) with true by (symmetry; apply factoryMode_true; exact Hsrc).
    replace (poolSize st <=? 1) with false by (symmetry; apply Z.leb_gt; lia).
    rewrite Hc. cbn [negb orb].
    rewrite E. rewrite (Hget refresher None).
    rewrite (undisturbed a AwaitGetApiKey _ Hwf' Hsrc).
    repeat rewrite <- app_assoc. reflexivity.
Qed.

(** A quota failure on the last key of the cycle: give the response back. *)
Lemma step_exhausted fuel a st opts out tr code payload :
  wf st -> authSource st = SrcFactoryKey -> 2 <= poolSize st ->
  hasCompletedFullCycle st = false ->
  (currentKeyIndex st + 1) mod poolSize st = startingKeyIndex st ->
  a <= maxAttempts ->
  fetch a opts = Responded code payload ->
  isQuotaOrAuthError code = true ->
  loop (S fuel) a st opts out tr =
  {| outcome := Ret (fresh code payload);
     finalAuth := completed st;
     finalOptions := opts;
     output := out ++ [LogAttempt a (currentKeyIndex st + 1) (poolSize st);
                       LogKeyFailure code payload a; LogFullCycle; LogExhausted];
     attempts := tr ++ [thisAttempt a st opts] |}.
Proof.
  intros Hwf Hsrc HN Hc Heq Ha Hf Hq.
  assert (E : rotateFactoryApiKey st = (Ret false, completed st, [LogFullCycle])).
  { unfold rotateFactoryApiKey.
    replace (factoryMode st) with true by (symmetry; apply factoryMode_true; exact Hsrc).
    replace (poolSize st <=? 1) with false by (symmetry; apply Z.leb_gt; lia).
    cbn [negb orb].
    replace ((currentKeyIndex st + 1) mod poolSize st =? startingKeyIndex st) with true
      by (symmetry; apply Z.eqb_eq; exact Heq).
    reflexivity. }
  unfold loop. cbn [fetchLoop].
  replace (negb (a <=? maxAttempts)) with false
    by (symmetry; apply negb_false_iff; apply Z.leb_le; lia).
  rewrite (getCurrentKeyInfo_factory st Hwf Hsrc). cbn [index total].
  rewrite (undisturbed a AwaitFetch st Hwf Hsrc).
  rewrite (undisturbed a AwaitText st Hwf Hsrc).
  rewrite Hf. cbn [fresh status]. rewrite Hq.
  cbn [bind clone text bodyUsed responseBody fresh status].
  unfold hasMoreFactoryKeys.
  replace (factoryMode st) with true by (symmetry; apply factoryMode_true; exact Hsrc).
  replace (poolSize st <=? 1) with false by (symmetry; apply Z.leb_gt; lia).
  rewrite Hc. cbn [negb orb]. rewrite E.
  repeat rewrite <- app_assoc. reflexivity.
Qed.

(** Any other status ends the dispatch with that response. *)
Lemma step_done fuel a st opts out tr code payload :
  wf st -> authSource st = SrcFactoryKey ->
  a <= maxAttempts ->
  fetch a opts = Responded code payload ->
  isQuotaOrAuthError code = false ->
  loop (S fuel) a st opts out tr =
  {| outcome := Ret (fresh code payload);
     finalAuth := st;
     finalOptions := opts;
     output := out ++ [LogAttempt a (currentKeyIndex st + 1) (poolSize st)]
                   ++ (if didRotationOccur st
                       then [LogFallbackSuccess (currentKeyIndex st + 1) (poolSize st) code]
                       else []);
     attempts := tr ++ [thisAttempt a st opts] |}.
Proof.
  intros Hwf Hsrc Ha Hf Hq.
  unfold loop. cbn [fetchLoop].
  replace (negb (a <=? maxAttempts)) with false
    by (symmetry; apply negb_false_iff; apply Z.leb_le; lia).
  rewrite (getCurrentKeyInfo_factory st Hwf Hsrc). cbn [index total].
  rewrite (undisturbed a AwaitFetch st Hwf Hsrc).
  rewrite Hf. cbn [fresh status]. rewrite Hq.
  destruct (didRotationOccur st).
  - rewrite (getCurrentKeyInfo_factory st Hwf Hsrc). cbn [index total].
    rewrite <- app_assoc. reflexivity.
  - rewrite app_nil_r. reflexivity.
Qed.

End Steps.


(** More fuel than the attempts that are left changes nothing: the loop
    stops by its own condition. *)
Lemma fetchLoop_fuel others fetch refresher fuel :
  forall attempt st opts out tr,
    maxAttempts - attempt < Z.of_nat fuel ->
    fetchLoop others fetch refresher (S fuel) attempt st opts out tr
    = fetchLoop others fetch refresher fuel attempt st opts out tr.
Proof.
  induction fuel as [|fuel IH]; intros attempt st opts out tr Hf.
  - cbn [fetchLoop].
    replace (negb (attempt <=? maxAttempts)) with true; [reflexivity|].
    symmetry. apply negb_true_iff, Z.leb_gt. lia.
  - set (g := S fuel) at 1. cbn [fetchLoop].
    destruct (negb (attempt <=? maxAttempts)); [reflexivity|].
    destruct (getCurrentKeyInfo st) as [keyInfo|e]; [|reflexivity].
    destruct (fetch attempt opts) as [code payload|e]; [|reflexivity].
    cbn [fresh status]. destruct (isQuotaOrAuthError code); [|reflexivity].
    cbn [bind clone text bodyUsed responseBody fresh status].
    set (st2 := calls (others attempt AwaitText) (calls (others attempt AwaitFetch) st)).
    destruct (hasMoreFactoryKeys st2); [|reflexivity].
    destruct (rotateFactoryApiKey st2) as [[r st'] o].
    destruct r as [[|]|e]; [|reflexivity|reflexivity].
    destruct (getApiKey refresher None st') as [[h|e] st'']; [|reflexivity].
    subst g. apply IH. lia.
Qed.

(** A dispatch moves the pool through reachable states only, whatever
    the other requests call in between. *)
Lemma fetchLoop_reachable others fetch refresher env fuel :
  forall attempt st opts out tr,
    reachable env st ->
    reachable env
      (finalAuth (fetchLoop others fetch refresher fuel attempt st opts out tr)).
Proof.
  induction fuel as [|fuel IH]; intros attempt st opts out tr Hr; cbn [fetchLoop].
  - exact Hr.
  - destruct (negb (attempt <=? maxAttempts)); [exact Hr|].
    destruct (getCurrentKeyInfo st) as [keyInfo|e]; [|exact Hr].
    pose proof (calls_reachable env (others attempt AwaitFetch) st Hr) as Hr1.
    set (st1 := calls (others attempt AwaitFetch) st) in *.
    destruct (fetch attempt opts) as [code payload|e]; [|exact Hr1].
    cbn [fresh status]. destruct (isQuotaOrAuthError code).
    + cbn [bind clone text bodyUsed responseBody fresh status].
      pose proof (calls_reachable env (others attempt AwaitText) st1 Hr1) as Hr2.
      set (st2 := calls (others attempt AwaitText) st1) in *.
      destruct (hasMoreFactoryKeys st2); [|exact Hr2].
      pose proof (reach_rotate env st2 Hr2) as Hr'.
      destruct (rotateFactoryApiKey st2) as [[r st'] o]. cbn [fst snd] in Hr'.
      destruct r as [[|]|e]; [|exact Hr'|exact Hr'].
      pose proof (reach_getApiKey env refresher None st' Hr') as Hr''.
      destruct (getApiKey refresher None st') as [[h|e] st'']; cbn [snd] in Hr'';
        [apply IH|cbn [caught finalAuth]]; apply calls_reachable; exact Hr''.
    + destruct (didRotationOccur st1); [|exact Hr1].
      destruct (getCurrentKeyInfo st1); exact Hr1.
Qed.

Lemma fetchWithFallback_reachable others fetch refresher env st opts :
  reachable env st ->
  reachable env (finalAuth (fetchWithFallback others fetch refresher st opts)).
Proof.
  intros Hr. unfold fetchWithFallback. apply fetchLoop_reachable, reach_cycle, Hr.
Qed.

Definition isFallbackSuccess (e : LogEvent) : bool :=
  match e with LogFallbackSuccess _ _ _ => true | _ => false end.

(** The attempt a dispatch makes after [j] rotations, as the cycle
    prescribes it: attempt number, key index and Authorization header. *)
Definition cycleAttempt (st : State) (opts : FetchOptions) (j : nat) : Attempt :=
  {| attemptNo := 1 + Z.of_nat j;
     keyIndex := (currentKeyIndex st + Z.of_nat j) mod poolSize st;
     sentAuthorization :=
       match j with
       | O => get_header "authorization" (headers opts)
       | S _ =>
           option_map (fun key => ("Bearer " ++ key)%string)
             (nthZ (factoryApiKeys st)
                ((currentKeyIndex st + Z.of_nat j) mod poolSize st))
       end |}.

Lemma mod_shift_neq i d n :
  0 <= i < n -> 0 < d < n -> (i + d) mod n <> i.
Proof.
  intros Hi Hd E.
  destruct (Z_lt_ge_dec (i + d) n) as [L|G].
  - rewrite Z.mod_small in E by lia. lia.
  - replace (i + d) with ((i + d - n) + 1 * n) in E by lia.
    rewrite Z.mod_add in E by lia. rewrite Z.mod_small in E by lia. lia.
Qed.

Lemma mod_shift_inj i n a b :
  0 < n -> 0 <= a < n -> 0 <= b < n -> (i + a) mod n = (i + b) mod n -> a = b.
Proof.
  intros Hn Ha Hb E.
  assert (D : (a - b) mod n = 0).
  { replace (a - b) with ((i + a) - (i + b)) by lia.
    rewrite Zminus_mod, E, Z.sub_diag. apply Z.mod_0_l. lia. }
  apply Z.mod_divide in D; [|lia]. destruct D as (q & Hq).
  assert (q = 0) by nia. lia.
Qed.

Section Cycle.
Variable others : Z -> AwaitPoint -> list PoolCall.
Variable fetch : Z -> FetchOptions -> FetchOutcome.
Variable refresher : Refresher.
Variable st : State.
Variable opts : FetchOptions.
Variable code : Z -> Z.
Variable payload : Z -> string.

Hypothesis Hwf : wf st.
Hypothesis Hsrc : authSource st = SrcFactoryKey.
Hypothesis HN : 2 <= poolSize st.
Hypothesis Hquiet : quiet others.

Let loop := fetchLoop others fetch refresher.
Let st0 := startNewRotationCycle st.
Let N := poolSize st.
Let idx := currentKeyIndex st.

Let keyAt (j : nat) : string :=
  match nthZ (factoryApiKeys st) ((idx + Z.of_nat j) mod N) with
  | Some key => key
  | None => EmptyString
  end.

Let stAfter (j : nat) : State := withIndex ((idx + Z.of_nat j) mod N) st0.

Let optsAfter (j : nat) : FetchOptions :=
  match j with
  | O => opts
  | S _ => set_authorization ("Bearer " ++ keyAt j)%string opts
  end.

Lemma idx_range : 0 <= idx < N.
Proof. destruct Hwf as (_ & _ & H). apply H. exact Hsrc. Qed.

Lemma wf_stAfter j : wf (stAfter j).
Proof.
  destruct Hwf as (A & B & C). unfold wf, stAfter, withIndex, poolSize in *. simpl.
  split; [exact A|]. split; [exact B|]. intros _.
  apply Z.mod_pos_bound. unfold N, poolSize in *. lia.
Qed.

Lemma thisAttempt_stAfter j :
  thisAttempt (1 + Z.of_nat j) (stAfter j) (optsAfter j) = cycleAttempt st opts j.
Proof.
  unfold thisAttempt, cycleAttempt, stAfter, withIndex. simpl. f_equal.
  destruct j as [|j]; [reflexivity|].
  unfold optsAfter, set_authorization. cbn [headers]. rewrite get_set_header.
  unfold keyAt, idx, N.
  destruct (nthZ_some (factoryApiKeys st)
              ((currentKeyIndex st + Z.of_nat (S j)) mod poolSize st)) as (key & Hk).
  { apply Z.mod_pos_bound. pose proof HN. unfold poolSize in *. lia. }
  rewrite Hk. reflexivity.
Qed.

(** After [k] quota failures with keys left, the dispatcher stands at
    attempt [k + 1] on the key [k] places further in the pool. *)
Lemma rotations (k : nat) :
  Z.of_nat k < N ->
  (forall a o, 1 <= a <= Z.of_nat k -> fetch a o = Responded (code a) (payload a)) ->
  (forall a, 1 <= a <= Z.of_nat k -> isQuotaOrAuthError (code a) = true) ->
  forall fuel,
  exists out,
    loop (k + fuel) 1 st0 opts [] [] =
    loop fuel (1 + Z.of_nat k) (stAfter k) (optsAfter k) out
      (map (cycleAttempt st opts) (seq 0 k))
    /\ forallb (fun e => negb (isFallbackSuccess e)) out = true.
Proof.
  pose proof idx_range as Hi.
  assert (H7 : N <= 7) by (destruct Hwf as (A & _); exact A).
  induction k as [|k IH]; intros Hk Hf Hq fuel.
  - exists []. split; [|reflexivity]. cbn [Nat.add seq map Z.of_nat].
    unfold stAfter, withIndex, st0, startNewRotationCycle. cbn.
    rewrite Z.add_0_r, Z.mod_small by exact Hi. reflexivity.
  - destruct (IH ltac:(lia) ltac:(intros; apply Hf; lia) ltac:(intros; apply Hq; lia)
                (S fuel)) as (out & E & Hout).
    replace (S k + fuel)%nat with (k + S fuel)%nat by lia. rewrite E.
    destruct (step_rotate others fetch refresher Hquiet fuel (1 + Z.of_nat k)
                (stAfter k) (optsAfter k) out
                (map (cycleAttempt st opts) (seq 0 k))
                (code (1 + Z.of_nat k)) (payload (1 + Z.of_nat k)))
      as (key & Hkey & Estep).
    + apply wf_stAfter.
    + exact Hsrc.
    + exact HN.
    + reflexivity.
    + unfold stAfter, withIndex, st0, startNewRotationCycle, poolSize. cbn.
      fold (poolSize st). fold N. fold idx.
      rewrite Zplus_mod_idemp_l.
      replace (idx + Z.of_nat k + 1) with (idx + (Z.of_nat k + 1)) by lia.
      apply mod_shift_neq; lia.
    + unfold maxAttempts. lia.
    + apply Hf. lia.
    + apply Hq. lia.
    + assert (Ei : (currentKeyIndex (stAfter k) + 1) mod poolSize (stAfter k)
                   = (idx + Z.of_nat (S k)) mod N).
      { unfold stAfter, withIndex, st0, startNewRotationCycle, poolSize. cbn.
        fold (poolSize st). fold N.
        rewrite Zplus_mod_idemp_l. f_equal. lia. }
      rewrite Ei in Estep, Hkey.
      eexists. split.
      * unfold loop in *. rewrite Estep.
        replace (1 + Z.of_nat k + 1) with (1 + Z.of_nat (S k)) by lia.
        rewrite thisAttempt_stAfter.
        rewrite seq_S, map_app. cbn [map Nat.add].
        f_equal.
        unfold optsAfter at 2.
        assert (Ek : keyAt (S k) = key).
        { unfold keyAt.
          replace (factoryApiKeys st) with (factoryApiKeys (stAfter k)) by reflexivity.
          rewrite Hkey. reflexivity. }
        rewrite Ek.
        destruct k as [|k']; [reflexivity|].
        unfold optsAfter. rewrite set_set_authorization. reflexivity.
      * rewrite forallb_app, Hout. reflexivity.
Qed.

End Cycle.


Lemma reachable_factory env st :
  reachable env st -> 2 <= poolSize st -> wf st /\ authSource st = SrcFactoryKey.
Proof.
  intros Hr HN. pose proof (reachable_wf env st Hr) as Hwf.
  split; [exact Hwf|]. destruct Hwf as (_ & B & _). apply B. lia.
Qed.

Lemma cycle_indices_NoDup st opts n :
  0 < poolSize st -> Z.of_nat n <= poolSize st ->
  NoDup (map keyIndex (map (cycleAttempt st opts) (seq 0 n))).
Proof.
  intros Hp Hn. rewrite map_map. apply NoDup_map_NoDup_ForallPairs; [|apply seq_NoDup].
  intros a b Ha Hb E. apply in_seq in Ha, Hb. cbn [cycleAttempt keyIndex] in E.
  apply mod_shift_inj in E; lia.
Qed.


Lemma getCurrentKeyInfo_cases st :
  wf st ->
  getCurrentKeyInfo st =
    if factoryMode st
    then Ret (Some {| index := currentKeyIndex st + 1; total := poolSize st |})
    else Ret None.
Proof.
  intros Hwf. destruct (factoryMode st) eqn:F.
  - apply factoryMode_true in F. apply getCurrentKeyInfo_factory; assumption.
  - unfold getCurrentKeyInfo. rewrite F. reflexivity.
Qed.



(** C1. With a pool of N >= 2 keys, a dispatch during whose waits no
    other request starts a rotation cycle or rotates the pool, and whose
    first N upstream answers are quota/auth failures (401, 402, 403, 429),
    makes exactly N calls, on the N distinct keys of one cycle that starts
    at the key active when the dispatch began, and then returns the last
    answer as the upstream gave it, its body unread. *)
Theorem exhaustion_after_one_full_cycle :
  forall (others : Z -> AwaitPoint -> list PoolCall)
         (fetch : Z -> FetchOptions -> FetchOutcome) (refresher : Refresher)
         (env : Env) (st : State) (opts : FetchOptions)
         (code : Z -> Z) (payload : Z -> string),
    reachable env st ->
    quiet others ->
    2 <= poolSize st ->
    (forall a o, 1 <= a <= poolSize st -> fetch a o = Responded (code a) (payload a)) ->
    (forall a, 1 <= a <= poolSize st -> isQuotaOrAuthError (code a) = true) ->
    let N := poolSize st in
    let run := fetchWithFallback others fetch refresher st opts in
    outcome run =
      Ret {| status := code N; responseBody := payload N; bodyUsed := false |}
    /\ attempts run = map (cycleAttempt st opts) (seq 0 (Z.to_nat N))
    /\ Z.of_nat (List.length (attempts run)) = N
    /\ NoDup (map keyIndex (attempts run))
    /\ hasCompletedFullCycle (finalAuth run) = true
    /\ exists out, output run = out ++ [LogExhausted].
Proof.
  intros others fetch rf env st opts code payload Hr Hquiet HN Hf Hq N run.
  destruct (reachable_factory env st Hr HN) as (Hwf & Hsrc).
  assert (H7 : N <= 7) by (destruct Hwf as (A & _); exact A).
  set (k := Z.to_nat (N - 1)).
  assert (Hk : Z.of_nat k = N - 1) by (unfold k; lia).
  destruct (rotations others fetch rf st opts code payload Hwf Hsrc HN Hquiet k
              ltac:(fold N; lia)
              ltac:(intros; apply Hf; fold N; lia)
              ltac:(intros; apply Hq; fold N; lia)
              (10 - k)%nat) as (out & E & _).
  assert (Erun : run =
    {| outcome := Ret (fresh (code N) (payload N));
       finalAuth := completed (withIndex ((currentKeyIndex st + Z.of_nat k) mod N)
                                 (startNewRotationCycle st));
       finalOptions :=
         match k with
         | O => opts
         | S _ =>
             set_authorization
               ("Bearer " ++
                match nthZ (factoryApiKeys st) ((currentKeyIndex st + Z.of_nat k) mod N) with
                | Some key => key
                | None => EmptyString
                end)%string opts
         end;
       output := out ++ [LogAttempt N ((currentKeyIndex st + Z.of_nat k) mod N + 1) N;
                         LogKeyFailure (code N) (payload N) N; LogFullCycle; LogExhausted];
       attempts := map (cycleAttempt st opts) (seq 0 (Z.to_nat N)) |}).
  { unfold run, fetchWithFallback.
    replace (Z.to_nat maxAttempts) with (k + (10 - k))%nat by (unfold maxAttempts; lia).
    rewrite E.
    replace (10 - k)%nat with (S (9 - k)) by lia.
    replace (1 + Z.of_nat k) with N by lia.
    erewrite step_exhausted with (code := code N) (payload := payload N).
    - f_equal.
      replace (Z.to_nat N) with (S k) by lia.
      rewrite seq_S, map_app. cbn [map Nat.add]. f_equal. f_equal.
      rewrite <- (thisAttempt_stAfter st opts HN k).
      f_equal. lia.
    - exact Hquiet.
    - apply wf_stAfter; assumption.
    - exact Hsrc.
    - exact HN.
    - reflexivity.
    - unfold withIndex, startNewRotationCycle, poolSize. cbn.
      fold (poolSize st). fold N.
      rewrite Zplus_mod_idemp_l.
      replace (currentKeyIndex st + Z.of_nat k + 1) with (currentKeyIndex st + 1 * N) by lia.
      rewrite Z.mod_add by lia. apply Z.mod_small.
      destruct Hwf as (_ & _ & C). apply C. exact Hsrc.
    - unfold maxAttempts. lia.
    - apply Hf. fold N. lia.
    - apply Hq. fold N. lia. }
  rewrite Erun. cbn [outcome attempts finalAuth output].
  split; [reflexivity|]. split; [reflexivity|].
  split; [rewrite length_map, length_seq; lia|].
  split; [apply cycle_indices_NoDup; fold N; lia|].
  split; [reflexivity|].
  eexists (out ++ [_; _; _]). rewrite <- app_assoc. reflexivity.
Qed.


End DispatchFacts.

(* ================================================================== *)
(** * Properties of the streaming transformer *)
(* ================================================================== *)

Module StreamFacts.
Import Json ResponseOpenAI.

(** ** Lines that start with a keyword are not blank *)

Fixpoint mem (c : ascii) (s : string) : bool :=
  match s with
  | EmptyString => false
  | String a s' => Ascii.eqb a c || mem c s'
  end.

Lemma strip_prefix_mem c p : forall s r,
  strip_prefix p s = Some r -> mem c p = false -> mem c s = true -> mem c r = true.
Proof.
  induction p as [|a p IH]; intros s r H Hp Hs; simpl in *.
  - inversion H; subst; exact Hs.
  - destruct s as [|b s]; [discriminate|].
    destruct (Ascii.eqb a b) eqn:E; [|discriminate].
    apply Ascii.eqb_eq in E; subst b.
    apply orb_false_iff in Hp. destruct Hp as (Hac & Hp).
    simpl in Hs. rewrite Hac in Hs. simpl in Hs. eauto.
Qed.

Lemma strip_any_mem c ps : forall s r,
  forallb (fun p => negb (mem c p)) ps = true ->
  strip_any ps s = Some r -> mem c s = true -> mem c r = true.
Proof.
  induction ps as [|p ps IH]; intros s r Hps H Hs; simpl in *; [discriminate|].
  apply andb_true_iff in Hps. destruct Hps as (Hp & Hps).
  destruct (strip_prefix p s) as [r'|] eqn:E.
  - inversion H; subst. eapply strip_prefix_mem; eauto.
    now apply negb_true_iff in Hp.
  - eauto.
Qed.

Lemma strip_all_mem c ps fuel : forall s,
  forallb (fun p => negb (mem c p)) ps = true ->
  mem c s = true -> mem c (strip_all fuel ps s) = true.
Proof.
  induction fuel as [|fuel IH]; intros s Hps Hs; simpl; [exact Hs|].
  destruct (strip_any ps s) as [r|] eqn:E; [|exact Hs].
  apply IH; [exact Hps|]. eapply strip_any_mem; eauto.
Qed.

Lemma rev_string_mem c s : forall acc,
  mem c (rev_string s acc) = mem c s || mem c acc.
Proof.
  induction s as [|a s IH]; intros acc; simpl; [reflexivity|].
  rewrite IH. simpl. destruct (Ascii.eqb a c), (mem c s); reflexivity.
Qed.

Lemma mem_truthy c s : mem c s = true -> truthy_string s = true.
Proof. destruct s; [discriminate|reflexivity]. Qed.

(** A string that holds a character which no white space sequence holds
    does not trim to the empty string. *)
Lemma trim_keeps c s :
  forallb (fun p => negb (mem c p)) (map bytes whitespace) = true ->
  forallb (fun p => negb (mem c p)) (map (fun l => bytes (rev l)) whitespace) = true ->
  mem c s = true -> truthy_string (trim s) = true.
Proof.
  intros Hw Hr Hs. apply (mem_truthy c). unfold trim, trimEnd, trimStart.
  rewrite rev_string_mem, orb_false_r.
  apply strip_all_mem; [exact Hr|].
  rewrite rev_string_mem, orb_false_r.
  apply strip_all_mem; [exact Hw|exact Hs].
Qed.

Lemma startsWith_mem s p c r :
  p = String c r -> startsWith s p = true -> mem c s = true.
Proof.
  intros -> H. unfold startsWith in H. destruct s as [|a s]; simpl in *; [discriminate|].
  destruct (Ascii.eqb c a) eqn:E; [|discriminate].
  apply Ascii.eqb_eq in E; subst. rewrite Ascii.eqb_refl. reflexivity.
Qed.

Lemma data_line_not_blank line :
  startsWith line "data:" = true -> truthy_string (trim line) = true.
Proof.
  intros H. apply (trim_keeps "d"%char); [vm_compute; reflexivity ..|].
  eapply startsWith_mem; [reflexivity|exact H].
Qed.

Lemma event_line_not_blank line :
  startsWith line "event:" = true -> truthy_string (trim line) = true.
Proof.
  intros H. apply (trim_keeps "e"%char); [vm_compute; reflexivity ..|].
  eapply startsWith_mem; [reflexivity|exact H].
Qed.

Section Lines.
Variable JSON_parse : string -> option JSVal.
Variable JSON_stringify : JSVal -> string.
Variable Date_now : Z.

Let parseLine := parseSSELine JSON_parse.
Let step := consumeLine JSON_parse JSON_stringify Date_now.
Let transform := transformEvent JSON_stringify Date_now.

Lemma parsed_not_blank line p :
  parseLine line = Some p -> truthy_string (trim line) = true.
Proof.
  unfold parseLine, parseSSELine. intros H.
  destruct (startsWith line "event:") eqn:E; [apply event_line_not_blank; exact E|].
  destruct (startsWith line "data:") eqn:D; [apply data_line_not_blank; exact D|].
  discriminate.
Qed.

(** A [data:] line while no event type is pending changes nothing. *)
Lemma data_line_dropped ls line v :
  parseLine line = Some (DataLine v) ->
  match currentEvent ls with
  | Some ev => truthy_string ev = false
  | None => True
  end ->
  step ls line = ls.
Proof.
  intros Hp Hc. unfold step, consumeLine. fold parseLine.
  destruct (thrown ls); [reflexivity|].
  rewrite (parsed_not_blank _ _ Hp). cbn [negb]. rewrite Hp.
  destruct (currentEvent ls) as [ev|]; [|reflexivity].
  rewrite Hc. reflexivity.
Qed.

(** A [data:] line with a pending event type: one call of
    [transformEvent], and the pending type is gone unless the call
    threw. *)
Lemma data_line_transformed ls line v ev :
  thrown ls = None ->
  parseLine line = Some (DataLine v) ->
  currentEvent ls = Some ev -> truthy_string ev = true ->
  step ls line =
    match transform (xf ls) ev v with
    | (Throw e, t') =>
        {| currentEvent := Some ev; xf := t'; yielded := yielded ls;
           thrown := Some e; delivered := delivered ls ++ [(ev, v)] |}
    | (Ret transformed, t') =>
        {| currentEvent := None; xf := t';
           yielded := yielded ls ++
                      match transformed with
                      | Some s => if truthy_string s then [s] else []
                      | None => []
                      end;
           thrown := None; delivered := delivered ls ++ [(ev, v)] |}
    end.
Proof.
  intros Ht Hp Hc Hev. unfold step, consumeLine. fold parseLine. fold transform.
  rewrite Ht, (parsed_not_blank _ _ Hp). cbn [negb]. rewrite Hp, Hc, Hev.
  destruct (transform (xf ls) ev v) as [[r|e] t']; reflexivity.
Qed.

(** Any other line leaves the transformer and the output alone. *)
Lemma other_line_silent ls line :
  (forall v, parseLine line <> Some (DataLine v)) ->
  xf (step ls line) = xf ls /\ yielded (step ls line) = yielded ls
  /\ delivered (step ls line) = delivered ls.
Proof.
  intros Hn. unfold step, consumeLine. fold parseLine.
  destruct (thrown ls); [auto|].
  destruct (negb (truthy_string (trim line))); [auto|].
  destruct (parseLine line) as [[value|value]|] eqn:E; auto.
  exfalso. apply (Hn value). reflexivity.
Qed.

(** The pending event type changes at two places only: an [event:]
    line sets it, a transformed [data:] line clears it. *)
Lemma pending_changes ls line :
  currentEvent (step ls line) <> currentEvent ls ->
  (exists value, parseLine line = Some (EventLine value)
                 /\ currentEvent (step ls line) = Some value)
  \/ (exists v, parseLine line = Some (DataLine v)
                /\ currentEvent (step ls line) = None).
Proof.
  unfold step, consumeLine. fold parseLine. fold transform.
  destruct (thrown ls); [congruence|].
  destruct (negb (truthy_string (trim line))); [congruence|].
  destruct (parseLine line) as [[value|value]|]; [| |congruence].
  - intros _. left. exists value. split; reflexivity.
  - destruct (currentEvent ls) as [ev|] eqn:Hc; [|cbv beta iota; congruence].
    destruct (truthy_string ev); [|cbv beta iota; congruence].
    destruct (transform (xf ls) ev value) as [[r|e] t']; cbn [currentEvent].
    + intros _. right. exists value. split; reflexivity.
    + congruence.
Qed.

End Lines.

(** C9. In the line loop a [data:] line is handed to [transformEvent]
    only with the event type that an [event:] line left pending; the
    pending type is cleared by that call, so the next [data:] line
    without a new [event:] line is dropped; a [data:] line with no
    pending event type yields nothing and changes nothing; no line other
    than a [data:] line reaches the transformer; and only an [event:]
    line sets the pending type. *)
Theorem data_line_consumes_pending_event :
  forall (JSON_parse : string -> option JSVal) (JSON_stringify : JSVal -> string)
         (Date_now : Z) (ls : LineState) (line : string) (v : JSVal),
    thrown ls = None ->
    parseSSELine JSON_parse line = Some (DataLine v) ->
    let step := consumeLine JSON_parse JSON_stringify Date_now in
    let pending :=
      match currentEvent ls with
      | Some ev => truthy_string ev
      | None => false
      end in
    (pending = false -> step ls line = ls)
    /\ (pending = true ->
        exists ev, currentEvent ls = Some ev
        /\ delivered (step ls line) = delivered ls ++ [(ev, v)]
        /\ (thrown (step ls line) = None ->
            currentEvent (step ls line) = None
            /\ forall line' v',
                 parseSSELine JSON_parse line' = Some (DataLine v') ->
                 step (step ls line) line' = step ls line))
    /\ (forall ls' line',
          (forall v', parseSSELine JSON_parse line' <> Some (DataLine v')) ->
          xf (step ls' line') = xf ls' /\ yielded (step ls' line') = yielded ls'
          /\ delivered (step ls' line') = delivered ls')
    /\ (forall ls' line',
          currentEvent (step ls' line') <> currentEvent ls' ->
          (exists value, parseSSELine JSON_parse line' = Some (EventLine value)
                         /\ currentEvent (step ls' line') = Some value)
          \/ (exists v', parseSSELine JSON_parse line' = Some (DataLine v')
                         /\ currentEvent (step ls' line') = None)).
Proof.
  intros parse stringify now ls line v Ht Hp step pending.
  split; [|split; [|split]].
  - intros Hpend. apply data_line_dropped with (v := v); [exact Hp|].
    unfold pending in Hpend. destruct (currentEvent ls); [exact Hpend|exact I].
  - intros Hpend. unfold pending in Hpend.
    destruct (currentEvent ls) as [ev|] eqn:Hc; [|discriminate].
    exists ev. split; [reflexivity|].
    unfold step.
    rewrite (data_line_transformed parse stringify now ls line v ev Ht Hp Hc Hpend).
    destruct (transformEvent stringify now (xf ls) ev v) as [[r|e] t'];
      cbn [thrown currentEvent delivered].
    + split; [reflexivity|]. intros _. split; [reflexivity|].
      intros line' v' Hp'.
      apply data_line_dropped with (v := v'); [exact Hp'|exact I].
    + split; [reflexivity|]. discriminate.
  - intros ls' line' Hn. apply other_line_silent. exact Hn.
  - intros ls' line' Hn. apply pending_changes. exact Hn.
Qed.


(** ** The completion flag *)

(** The event types of the stream completion event. *)
Definition isCompletionEvent (e : string * JSVal) : bool :=
  String.eqb (fst e) "response.done" || String.eqb (fst e) "response.completed".

(** Case analysis on the event type in [H], one known type at a time,
    then on whatever the chosen branch inspects. *)
Ltac event_cases H ev :=
  repeat match type of H with
         | context [String.eqb ev ?s] =>
             let E := fresh "E" in
             destruct (String.eqb ev s) eqn:E;
             [ apply String.eqb_eq in E; subst ev; cbn in H | ]
         end.

Ltac branch_cases H :=
  repeat match type of H with
         | context [match ?c with _ => _ end] => destruct c; cbn in H
         end.

Section Completion.
Variable JSON_parse : string -> option JSVal.
Variable JSON_stringify : JSVal -> string.
Variable Date_now : Z.

Let step := consumeLine JSON_parse JSON_stringify Date_now.
Let transform := transformEvent JSON_stringify Date_now.

(** [transformEvent] sets the flag on a completion event, never clears
    it, and leaves the transformer alone when it throws. *)
Lemma transformEvent_isDone t ev v :
  match transform t ev v with
  | (Ret _, t') => isDone t' = isDone t || isCompletionEvent (ev, v)
  | (Throw _, t') => t' = t
  end.
Proof.
  destruct (transform t ev v) as [r t'] eqn:H.
  unfold transform, transformEvent in H. unfold isCompletionEvent. cbn [fst].
  event_cases H ev; cbn [orb]; branch_cases H;
    inversion H; subst; cbn;
    repeat match goal with
           | E : String.eqb _ _ = false |- _ => rewrite E; clear E
           end;
    cbn; try rewrite orb_false_r; try rewrite orb_true_r; reflexivity.
Qed.


(** [transformEvent] throws on one kind of payload only: the JSON value
    null (reading a property of it is a TypeError).  This is within the
    values [Json.toString] covers: an argument delta that is an object
    with an own property toString is outside them. *)
Lemma transformEvent_throws_only_on_null t ev v e t' :
  transform t ev v = (Throw e, t') -> v = JNull \/ v = JUndefined.
Proof.
  intros H. unfold transform, transformEvent in H.
  destruct v; auto; exfalso; cbn [prop] in H;
    event_cases H ev; branch_cases H; discriminate.
Qed.

(** The flag is set only after a completion event was handed to
    [transformEvent]; while nothing was thrown, it is set then. *)
Definition flag_ok (ls : LineState) : Prop :=
  (isDone (xf ls) = true -> existsb isCompletionEvent (delivered ls) = true)
  /\ (thrown ls = None ->
      existsb isCompletionEvent (delivered ls) = true -> isDone (xf ls) = true).

(** The fields set by the constructor and never assigned again. *)
Definition same_identity (t t' : Transformer) : Prop :=
  model t' = model t /\ requestId t' = requestId t /\ created t' = created t.

Lemma transformEvent_identity t ev v :
  same_identity t (snd (transform t ev v)).
Proof.
  destruct (transform t ev v) as [r t'] eqn:H.
  unfold transform, transformEvent in H.
  event_cases H ev; branch_cases H; inversion H; subst; cbn;
    unfold same_identity; cbn; auto.
Qed.

Lemma step_inv ls line t0 :
  flag_ok ls /\ same_identity t0 (xf ls) ->
  flag_ok (step ls line) /\ same_identity t0 (xf (step ls line)).
Proof.
  intros (Hinv & Hid). unfold step, consumeLine.
  destruct (thrown ls) eqn:Ht; [split; assumption|].
  destruct (negb (truthy_string (trim line))); [split; assumption|].
  destruct (parseSSELine JSON_parse line) as [[value|value]|]; [|..|split; assumption].
  - split; [|exact Hid]. destruct Hinv as (A & B). split; cbn; auto.
  - destruct (currentEvent ls) as [ev|]; [|split; assumption].
    destruct (truthy_string ev); [|split; assumption].
    pose proof (transformEvent_isDone (xf ls) ev value) as Hd.
    pose proof (transformEvent_identity (xf ls) ev value) as Hi.
    fold transform.
    destruct (transform (xf ls) ev value) as [[r|e] t']; cbn in *.
    + split.
      * destruct Hinv as (A & B). unfold flag_ok. cbn.
        rewrite Hd, existsb_app. cbn. rewrite orb_false_r.
        split.
        -- intros H. apply orb_true_iff in H. destruct H as [H|H].
           ++ rewrite (A H). reflexivity.
           ++ rewrite H. apply orb_true_r.
        -- intros _ H. apply orb_true_iff in H. destruct H as [H|H].
           ++ rewrite (B Ht H). reflexivity.
           ++ rewrite H. apply orb_true_r.
      * destruct Hid as (a & b & c), Hi as (a' & b' & c').
        unfold same_identity. rewrite a', b', c'. auto.
    + subst t'. split; [|exact Hid].
      destruct Hinv as (A & B). unfold flag_ok. cbn. split.
      * intros H. rewrite existsb_app, (A H). reflexivity.
      * discriminate.
Qed.

Lemma lines_inv lines t0 : forall ls,
  flag_ok ls /\ same_identity t0 (xf ls) ->
  flag_ok (fold_left step lines ls) /\ same_identity t0 (xf (fold_left step lines ls)).
Proof.
  induction lines as [|l lines IH]; intros ls H; cbn; [exact H|].
  apply IH, step_inv, H.
Qed.

Lemma chunks_inv cs t0 : forall st,
  flag_ok (lineState st) /\ same_identity t0 (xf (lineState st)) ->
  let st' := fold_left (consumeChunk JSON_parse JSON_stringify Date_now) cs st in
  flag_ok (lineState st') /\ same_identity t0 (xf (lineState st')).
Proof.
  induction cs as [|c cs IH]; intros st H; cbn; [exact H|].
  apply IH. unfold consumeChunk.
  destruct (thrown (lineState st)); [exact H|].
  destruct (cut (buffer st ++ Utf8.Buffer_toString c)) as [lines rest].
  cbn. apply lines_inv, H.
Qed.

Lemma consumed_inv t src :
  let ls := consumed JSON_parse JSON_stringify Date_now t src in
  flag_ok ls /\ same_identity t (xf ls).
Proof.
  unfold consumed. apply chunks_inv. unfold start, flag_ok, same_identity. cbn.
  repeat split; try reflexivity; discriminate.
Qed.

End Completion.

(** C3 (as the code has it). When no completion event was handed to the
    transformer: if the upstream body is read to its end and nothing is
    thrown, the generator's last two outputs are a chunk with an empty
    delta and finish_reason "stop" and then the sentinel
    [data: [DONE]\n\n]; if something is thrown, the sentinel alone is
    the last output and the exception propagates. *)
Theorem unfinished_stream_is_terminated :
  forall (JSON_parse : string -> option JSVal) (JSON_stringify : JSVal -> string)
         (Date_now : Z) (t : Transformer) (src : Source),
    let ls := consumed JSON_parse JSON_stringify Date_now t src in
    let out := transformStream JSON_parse JSON_stringify Date_now t src in
    existsb isCompletionEvent (delivered ls) = false ->
    (ending out = Ret tt ->
     yields out =
       yielded ls ++
       [ frame JSON_stringify
           (JObj [ ("id", JStr (requestId t));
                   ("object", JStr "chat.completion.chunk");
                   ("created", JNum (created t));
                   ("model", JStr (model t));
                   ("choices",
                    JArr [ JObj [ ("index", JNum 0);
                                  ("delta", JObj []);
                                  ("finish_reason", JStr "stop") ] ]) ]);
         doneSignal ])
    /\ (forall e, ending out = Throw e -> yields out = yielded ls ++ [doneSignal]).
Proof.
  intros parse stringify now t src ls out Hnone.
  destruct (consumed_inv parse stringify now t src) as ((Hflag & _) & (Hm & Hr & Hc)).
  fold ls in Hflag, Hm, Hr, Hc.
  assert (Hd : isDone (xf ls) = false).
  { destruct (isDone (xf ls)); [|reflexivity]. rewrite Hflag in Hnone by reflexivity.
    discriminate. }
  unfold out, transformStream, finish. fold ls. rewrite Hd. cbn [negb].
  destruct (thrown ls) as [e|]; [|destruct (failure src) as [e|]]; cbn.
  - split; [discriminate|]. reflexivity.
  - split; [discriminate|]. reflexivity.
  - split; [|discriminate]. intros _.
    unfold createOpenAIChunk, openAIChunk, createDoneSignal. cbn.
    rewrite Hm, Hr, Hc. reflexivity.
Qed.


(** ** Buffering across chunk boundaries *)

Lemma split_nl_nonempty s : split_nl s <> [].
Proof.
  destruct s as [|c s]; cbn [split_nl]; [discriminate|].
  destruct (Ascii.eqb c newline); [discriminate|].
  destruct (split_nl s); discriminate.
Qed.

Lemma cut_nil : cut EmptyString = ([], EmptyString).
Proof. reflexivity. Qed.

Lemma cut_cons c s :
  cut (String c s) =
    let (lines, rest) := cut s in
    if Ascii.eqb c newline then (EmptyString :: lines, rest)
    else match lines with
         | [] => ([], String c rest)
         | l :: ls => (String c l :: ls, rest)
         end.
Proof.
  unfold cut. cbn [split_nl].
  pose proof (split_nl_nonempty s) as Hne.
  destruct (split_nl s) as [|l ls]; [contradiction|].
  destruct (Ascii.eqb c newline).
  - change (removelast (EmptyString :: l :: ls)) with (EmptyString :: removelast (l :: ls)).
    reflexivity.
  - destruct ls as [|l' ls]; reflexivity.
Qed.

#[local] Arguments cut : simpl never.

(** Cutting a text delivered in two parts: the lines of the first part,
    then the lines of what it left together with the second part. *)
Lemma cut_app a : forall b,
  cut (a ++ b)%string =
    let (la, ra) := cut a in
    let (lb, rb) := cut (ra ++ b)%string in
    (la ++ lb, rb).
Proof.
  induction a as [|c a IH]; intros b.
  - rewrite cut_nil. cbv beta iota. change (EmptyString ++ b)%string with b.
    destruct (cut b); reflexivity.
  - change (String c a ++ b)%string with (String c (a ++ b)%string).
    rewrite (cut_cons c (a ++ b)%string), IH, (cut_cons c a).
    destruct (cut a) as [la ra].
    destruct (Ascii.eqb c newline) eqn:E.
    + destruct (cut (ra ++ b)%string) as [lb rb]. reflexivity.
    + destruct la as [|l la].
      * change (String c ra ++ b)%string with (String c (ra ++ b)%string).
        rewrite (cut_cons c (ra ++ b)%string), E.
        destruct (cut (ra ++ b)%string) as [lb rb]. destruct lb; reflexivity.
      * destruct (cut (ra ++ b)%string) as [lb rb]. reflexivity.
Qed.

(** What is left in the buffer holds no complete line. *)
Lemma cut_rest s : cut (snd (cut s)) = ([], snd (cut s)).
Proof.
  induction s as [|c s IH]; [reflexivity|].
  rewrite cut_cons. destruct (cut s) as [lines rest]. cbn [snd] in IH.
  destruct (Ascii.eqb c newline) eqn:E; [exact IH|].
  destruct lines as [|l ls]; cbn [snd]; [|exact IH].
  rewrite cut_cons, IH, E. reflexivity.
Qed.

Lemma append_empty_r s : (s ++ EmptyString)%string = s.
Proof. induction s as [|c s IH]; cbn; [reflexivity|]. rewrite IH. reflexivity. Qed.

Lemma append_assoc a b c : ((a ++ b) ++ c)%string = (a ++ (b ++ c))%string.
Proof. induction a as [|x a IH]; cbn; [reflexivity|]. rewrite IH. reflexivity. Qed.

Section Chunking.
Variable JSON_parse : string -> option JSVal.
Variable JSON_stringify : JSVal -> string.
Variable Date_now : Z.

Let step := consumeLine JSON_parse JSON_stringify Date_now.

(** The loop body on the decoded text of a chunk. *)
Definition consumeText (st : StreamState) (text : string) : StreamState :=
  match thrown (lineState st) with
  | Some _ => st
  | None =>
      let (lines, rest) := cut (buffer st ++ text)%string in
      {| buffer := rest; lineState := fold_left step lines (lineState st) |}
  end.

Lemma consumeChunk_text st chunk :
  consumeChunk JSON_parse JSON_stringify Date_now st chunk
  = consumeText st (Utf8.Buffer_toString chunk).
Proof. reflexivity. Qed.

Lemma step_thrown ls line e : thrown ls = Some e -> step ls line = ls.
Proof. intros H. unfold step, consumeLine. rewrite H. reflexivity. Qed.

Lemma lines_thrown lines : forall ls e,
  thrown ls = Some e -> fold_left step lines ls = ls.
Proof.
  induction lines as [|l lines IH]; intros ls e H; cbn; [reflexivity|].
  rewrite (step_thrown ls l e H). eapply IH; eassumption.
Qed.

(** Two stream states a consumer cannot tell apart: the buffer matters
    only while the loop is still running. *)
Definition alike (a b : StreamState) : Prop :=
  lineState a = lineState b
  /\ (thrown (lineState a) = None -> buffer a = buffer b).

Lemma alike_refl a : alike a a.
Proof. split; reflexivity. Qed.

Lemma consumeText_alike a b text :
  alike a b -> alike (consumeText a text) (consumeText b text).
Proof.
  intros (Hl & Hb). unfold consumeText. rewrite <- Hl.
  destruct (thrown (lineState a)) eqn:Ht.
  - split; [exact Hl|]. rewrite Ht. discriminate.
  - rewrite <- (Hb eq_refl).
    destruct (cut (buffer a ++ text)%string) as [lines rest].
    apply alike_refl.
Qed.

Lemma texts_alike texts : forall a b,
  alike a b -> alike (fold_left consumeText texts a) (fold_left consumeText texts b).
Proof.
  induction texts as [|x texts IH]; intros a b H; cbn; [exact H|].
  apply IH, consumeText_alike, H.
Qed.

(** Feeding two texts one after the other is feeding their
    concatenation. *)
Lemma consumeText_app st t1 t2 :
  alike (consumeText (consumeText st t1) t2) (consumeText st (t1 ++ t2)%string).
Proof.
  destruct (thrown (lineState st)) eqn:Ht.
  - unfold consumeText. rewrite Ht. cbn. rewrite Ht. apply alike_refl.
  - unfold consumeText at 2 3. rewrite Ht.
    rewrite <- (append_assoc (buffer st) t1 t2).
    rewrite (cut_app (buffer st ++ t1)%string t2).
    destruct (cut (buffer st ++ t1)%string) as [l1 r1].
    unfold consumeText. cbn [lineState buffer].
    destruct (thrown (fold_left step l1 (lineState st))) as [e|] eqn:Ht1.
    + destruct (cut (r1 ++ t2)%string) as [l2 r2]. split; cbn [lineState buffer].
      * rewrite fold_left_app. symmetry. eapply lines_thrown. exact Ht1.
      * rewrite Ht1. discriminate.
    + destruct (cut (r1 ++ t2)%string) as [l2 r2]. split; cbn [lineState buffer].
      * rewrite fold_left_app. reflexivity.
      * reflexivity.
Qed.

Lemma consumeText_empty st :
  cut (buffer st) = ([], buffer st) -> consumeText st EmptyString = st.
Proof.
  intros H. unfold consumeText. destruct (thrown (lineState st)); [reflexivity|].
  rewrite append_empty_r, H. destruct st; reflexivity.
Qed.

Fixpoint concat_text (texts : list string) : string :=
  match texts with
  | [] => EmptyString
  | t :: ts => (t ++ concat_text ts)%string
  end.

Lemma texts_concat texts : forall st,
  cut (buffer st) = ([], buffer st) ->
  alike (fold_left consumeText texts st) (consumeText st (concat_text texts)).
Proof.
  induction texts as [|t texts IH]; intros st Hb; cbn [fold_left concat_text].
  - rewrite consumeText_empty by exact Hb. apply alike_refl.
  - assert (Hb' : cut (buffer (consumeText st t)) = ([], buffer (consumeText st t))).
    { unfold consumeText. destruct (thrown (lineState st)); [exact Hb|].
      pose proof (cut_rest (buffer st ++ t)%string) as Hr.
      destruct (cut (buffer st ++ t)%string) as [lines rest]. exact Hr. }
    destruct (IH (consumeText st t) Hb') as (A & B).
    destruct (consumeText_app st t (concat_text texts)) as (C & D).
    split.
    + rewrite A. exact C.
    + intros Hn. rewrite (B Hn). apply D. rewrite <- A. exact Hn.
Qed.

(** Chunking does not matter as long as decoding the chunks one by
    one gives the text of the whole body: the same output and the same
    ending as for the body delivered in one chunk. *)
Lemma chunking_invariance_text t cs failure :
  Utf8.Buffer_toString (concat_text cs)
  = concat_text (map Utf8.Buffer_toString cs) ->
  transformStream JSON_parse JSON_stringify Date_now t
    {| chunks := cs; failure := failure |}
  = transformStream JSON_parse JSON_stringify Date_now t
      {| chunks := [concat_text cs]; failure := failure |}.
Proof.
  intros Hdec. unfold transformStream, consumed. cbn [chunks ResponseOpenAI.failure].
  f_equal.
  assert (E : forall cs st,
             fold_left (consumeChunk JSON_parse JSON_stringify Date_now) cs st
             = fold_left consumeText (map Utf8.Buffer_toString cs) st).
  { clear. induction cs as [|c cs IH]; intros st; cbn; [reflexivity|].
    rewrite IH. reflexivity. }
  rewrite E. cbn [fold_left]. rewrite consumeChunk_text, Hdec.
  apply texts_concat. reflexivity.
Qed.

Lemma concat_text_ascii cs :
  forallb (fun chunk =>
             forallb (fun c => (nat_of_ascii c <=? 127)%nat)
                     (list_ascii_of_string chunk)) cs = true ->
  forallb (fun c => (nat_of_ascii c <=? 127)%nat)
          (list_ascii_of_string (concat_text cs)) = true.
Proof.
  induction cs as [|chunk cs IH]; cbn [forallb concat_text]; intros H; [reflexivity|].
  apply andb_true_iff in H. destruct H as (Hc & Hs). specialize (IH Hs).
  revert Hc. generalize (concat_text cs) IH. clear.
  induction chunk as [|c chunk IHc]; intros rest Hrest Hc; cbn in *; [exact Hrest|].
  apply andb_true_iff in Hc. destruct Hc as (A & B).
  rewrite A. cbn. apply IHc; assumption.
Qed.

End Chunking.

Lemma decode_ascii s :
  forallb (fun c => (nat_of_ascii c <=? 127)%nat) (list_ascii_of_string s) = true ->
  Utf8.Buffer_toString s = s.
Proof.
  unfold Utf8.Buffer_toString.
  induction s as [|c s IH]; cbn [list_ascii_of_string forallb]; intros H; [reflexivity|].
  apply andb_true_iff in H. destruct H as (Hc & Hs).
  cbn [Utf8.decode]. unfold Utf8.classify. rewrite Hc. rewrite (IH Hs). reflexivity.
Qed.

(** A body of ASCII characters only gives the same output however it is
    cut into chunks. *)
Lemma chunking_invariance_ascii JSON_parse JSON_stringify Date_now t cs failure :
  forallb (fun chunk =>
             forallb (fun c => (nat_of_ascii c <=? 127)%nat)
                     (list_ascii_of_string chunk)) cs = true ->
  transformStream JSON_parse JSON_stringify Date_now t
    {| chunks := cs; failure := failure |}
  = transformStream JSON_parse JSON_stringify Date_now t
      {| chunks := [concat_text cs]; failure := failure |}.
Proof.
  intros H. apply chunking_invariance_text.
  rewrite (decode_ascii _ (concat_text_ascii cs H)).
  clear - H. induction cs as [|chunk cs IH]; cbn [map concat_text]; [reflexivity|].
  cbn [forallb] in H. apply andb_true_iff in H. destruct H as (Hc & Hs).
  rewrite (decode_ascii _ Hc), <- (IH Hs). reflexivity.
Qed.

End StreamFacts.

(* ================================================================== *)
(** * Tool-call reconstruction *)
(* ================================================================== *)

Module ToolCallFacts.
Import Json ResponseOpenAI.

(** A tool call as a client of the canonical protocol holds it. *)
Record Entry := mkEntry {
  e_index : JSVal;
  e_id : JSVal;
  e_name : JSVal;
  e_arguments : string
}.

Definition text_of (v : JSVal) : string :=
  match v with JStr s => s | _ => EmptyString end.

(** The canonical protocol's reading of one tool-call delta: a delta for
    an index seen before appends its arguments text to that entry, a
    delta for a new index opens an entry with the id and the name it
    carries. *)
Fixpoint merge_delta (d : JSVal) (es : list Entry) : list Entry :=
  match es with
  | [] =>
      [ {| e_index := optprop d "index";
           e_id := optprop d "id";
           e_name := optprop (optprop d "function") "name";
           e_arguments := text_of (optprop (optprop d "function") "arguments") |} ]
  | e :: es' =>
      if sameValueZero (e_index e) (optprop d "index") then
        {| e_index := e_index e; e_id := e_id e; e_name := e_name e;
           e_arguments :=
             (e_arguments e
              ++ text_of (optprop (optprop d "function") "arguments"))%string |} :: es'
      else e :: merge_delta d es'
  end.

(** [choices[0].delta.tool_calls] of a chunk. *)
Definition tool_call_deltas (chunk : JSVal) : list JSVal :=
  match optprop chunk "choices" with
  | JArr (choice :: _) =>
      match optprop (optprop choice "delta") "tool_calls" with
      | JArr ds => ds
      | _ => []
      end
  | _ => []
  end.

(** The tool calls that a sequence of canonical chunks adds up to. *)
Definition assembleToolCalls (chunks : list JSVal) : list Entry :=
  fold_left (fun es chunk => fold_left (fun es d => merge_delta d es)
                               (tool_call_deltas chunk) es)
            chunks [].

Section Events.
Variable JSON_stringify : JSVal -> string.
Variable Date_now : Z.

Let transform := transformEvent JSON_stringify Date_now.

(** Handing a sequence of events to [transformEvent], as the line loop
    does for the event/data pairs of a stream: the strings returned,
    the exception that stopped it (if any), the transformer at the
    end. *)
Fixpoint feed (t : Transformer) (events : list (string * JSVal))
  : list string * option JsError * Transformer :=
  match events with
  | [] => ([], None, t)
  | (eventType, eventData) :: rest =>
      match transform t eventType eventData with
      | (Throw e, t') => ([], Some e, t')
      | (Ret out, t') =>
          let '(ys, err, t'') := feed t' rest in
          (match out with Some s => s :: ys | None => ys end, err, t'')
      end
  end.

Lemma added_function_call t props item :
  lookup "item" props = JObj item ->
  lookup "type" item = JStr "function_call" ->
  let id := toolCallIdOf Date_now (JObj item) in
  let name := or_else (lookup "name" item) (JStr "") in
  let t' :=
    with_toolCalls
      (map_set (lookup "id" item)
         {| tc_index := toolCallIndex t; tc_id := id; tc_name := name;
            tc_arguments := "" |} (toolCalls t))
      (toolCallIndex t + 1) t in
  transform t "response.output_item.added" (JObj props) =
    (Ret (Some (frame JSON_stringify
                  (toolCallChunk t' (toolCallIndex t) id name (JStr "") true))), t').
Proof.
  intros Hitem Hty. unfold transform, transformEvent.
  cbn [String.eqb Ascii.eqb Bool.eqb orb andb prop optprop].
  rewrite Hitem. cbn [or_else truthy optprop andb].
  rewrite Hty. cbn [is_string String.eqb Ascii.eqb Bool.eqb andb].
  reflexivity.
Qed.

Lemma arguments_delta t props key d toolCall :
  lookup "item_id" props = key ->
  lookup "delta" props = JStr d -> d <> EmptyString ->
  map_get key (toolCalls t) = Some toolCall ->
  let t' :=
    with_toolCalls
      (map_set key
         {| tc_index := tc_index toolCall; tc_id := tc_id toolCall;
            tc_name := tc_name toolCall;
            tc_arguments := (tc_arguments toolCall ++ d)%string |} (toolCalls t))
      (toolCallIndex t) t in
  transform t "response.function_call_arguments.delta" (JObj props) =
    (Ret (Some (frame JSON_stringify
                  (toolCallChunk t' (tc_index toolCall) (tc_id toolCall)
                     JNull (JStr d) false))), t').
Proof.
  intros Hk Hd Hne Hg. unfold transform, transformEvent.
  cbn [String.eqb Ascii.eqb Bool.eqb orb andb prop optprop].
  rewrite Hk, Hd, Hg.
  assert (Ho : or_else (JStr d) (JStr "") = JStr d).
  { unfold or_else. cbn. destruct d; [contradiction|reflexivity]. }
  rewrite Ho. reflexivity.
Qed.

Lemma arguments_done t v :
  transform t "response.function_call_arguments.done" v = (Ret None, t).
Proof. reflexivity. Qed.

Lemma stream_completed t props response :
  lookup "response" props = JObj response ->
  lookup "status" response = JStr "completed" ->
  transform t "response.completed" (JObj props) =
    (Ret (Some (String.append
                  (frame JSON_stringify
                     (openAIChunk (with_isDone true t) (JStr "") JNull true
                        (JStr (if 0 <? Z.of_nat (List.length (toolCalls t))
                               then "tool_calls" else "stop"))))
                  doneSignal)),
     with_isDone true t).
Proof.
  intros Hr Hs. unfold transform, transformEvent.
  cbn [String.eqb Ascii.eqb Bool.eqb orb andb prop optprop].
  rewrite Hr. cbn [optprop]. rewrite Hs.
  cbn [or_else truthy truthy_string is_string String.eqb Ascii.eqb Bool.eqb].
  reflexivity.
Qed.

End Events.


(** C2 (as the code has it). A start event for item X with function name
    "lookup", two argument deltas for X with the texts [{"q":] and
    ["cat"}], and then the event that closes the arguments of X
    (response.function_call_arguments.done) or the stream completion event:
    the output carries three tool-call chunks, all for index 0, the first
    with the id and the name "lookup", which add up to exactly one tool
    call with arguments [{"q":"cat"}]; the transformer holds exactly that
    one entry; the stream completion event reports "tool_calls". *)
Theorem tool_call_reconstruction :
  forall (JSON_stringify : JSVal -> string) (Date_now : Z) (t : Transformer)
         (X : string) (item added d1 d2 completed response : list (string * JSVal))
         (fin : JSVal),
    toolCalls t = [] -> toolCallIndex t = 0 ->
    lookup "item" added = JObj item ->
    lookup "type" item = JStr "function_call" ->
    lookup "id" item = JStr X ->
    lookup "name" item = JStr "lookup" ->
    lookup "item_id" d1 = JStr X -> lookup "delta" d1 = JStr (q "{'q':") ->
    lookup "item_id" d2 = JStr X -> lookup "delta" d2 = JStr (q "'cat'}") ->
    lookup "response" completed = JObj response ->
    lookup "status" response = JStr "completed" ->
    let id := toolCallIdOf Date_now (JObj item) in
    let c1 := toolCallChunk t 0 id (JStr "lookup") (JStr "") true in
    let c2 := toolCallChunk t 0 id JNull (JStr (q "{'q':")) false in
    let c3 := toolCallChunk t 0 id JNull (JStr (q "'cat'}")) false in
    let entry :=
      {| tc_index := 0; tc_id := id; tc_name := JStr "lookup";
         tc_arguments := (q "{'q':'cat'}") |} in
    let start :=
      [ ("response.output_item.added", JObj added);
        ("response.function_call_arguments.delta", JObj d1);
        ("response.function_call_arguments.delta", JObj d2) ] in
    feed JSON_stringify Date_now t
      (start ++ [("response.function_call_arguments.done", fin)])
      = (map (frame JSON_stringify) [c1; c2; c3], None,
         with_toolCalls [(JStr X, entry)] 1 t)
    /\ feed JSON_stringify Date_now t (start ++ [("response.completed", JObj completed)])
      = (map (frame JSON_stringify) [c1; c2; c3]
         ++ [String.append
               (frame JSON_stringify
                  (openAIChunk t (JStr "") JNull true (JStr "tool_calls")))
               doneSignal],
         None,
         with_isDone true (with_toolCalls [(JStr X, entry)] 1 t))
    /\ assembleToolCalls [c1; c2; c3]
      = [ {| e_index := JNum 0; e_id := id; e_name := JStr "lookup";
             e_arguments := (q "{'q':'cat'}") |} ]
    /\ assembleToolCalls
         [c1; c2; c3; openAIChunk t (JStr "") JNull true (JStr "tool_calls")]
      = [ {| e_index := JNum 0; e_id := id; e_name := JStr "lookup";
             e_arguments := (q "{'q':'cat'}") |} ].
Proof.
  intros stringify now t X item added d1 d2 completed response fin
         Hcalls Hidx Hitem Hty Hid Hname Hk1 Hd1 Hk2 Hd2 Hresp Hstatus
         id c1 c2 c3 entry start.
  set (e0 := {| tc_index := 0; tc_id := id; tc_name := JStr "lookup";
                tc_arguments := "" |}).
  set (e1 := {| tc_index := 0; tc_id := id; tc_name := JStr "lookup";
                tc_arguments := (q "{'q':") |}).
  set (t1 := with_toolCalls [(JStr X, e0)] 1 t).
  set (t2 := with_toolCalls [(JStr X, e1)] 1 t).
  set (t3 := with_toolCalls [(JStr X, entry)] 1 t).
  assert (S1 : transformEvent stringify now t "response.output_item.added" (JObj added)
               = (Ret (Some (frame stringify c1)), t1)).
  { rewrite (added_function_call stringify now t added item Hitem Hty).
    rewrite Hid, Hname, Hcalls, Hidx. reflexivity. }
  assert (G : forall e, map_get (JStr X) [(JStr X, e)] = Some e).
  { intros e. cbn. rewrite String.eqb_refl. reflexivity. }
  assert (U : forall e e', map_set (JStr X) e' [(JStr X, e)] = [(JStr X, e')]).
  { intros e e'. cbn. rewrite String.eqb_refl. reflexivity. }
  assert (S2 : transformEvent stringify now t1 "response.function_call_arguments.delta"
                 (JObj d1) = (Ret (Some (frame stringify c2)), t2)).
  { rewrite (arguments_delta stringify now t1 d1 (JStr X) _ e0 Hk1 Hd1);
      [|discriminate|apply G].
    cbn [toolCalls t1 with_toolCalls]. rewrite U. reflexivity. }
  assert (S3 : transformEvent stringify now t2 "response.function_call_arguments.delta"
                 (JObj d2) = (Ret (Some (frame stringify c3)), t3)).
  { rewrite (arguments_delta stringify now t2 d2 (JStr X) _ e1 Hk2 Hd2);
      [|discriminate|apply G].
    cbn [toolCalls t2 with_toolCalls]. rewrite U. reflexivity. }
  split; [|split; [|split]].
  - unfold start. cbn [app feed]. rewrite S1, S2, S3.
    rewrite arguments_done. reflexivity.
  - unfold start. cbn [app feed]. rewrite S1, S2, S3.
    rewrite (stream_completed stringify now t3 completed response Hresp Hstatus).
    reflexivity.
  - unfold assembleToolCalls, c1, c2, c3. cbn. reflexivity.
  - unfold assembleToolCalls, c1, c2, c3. cbn. reflexivity.
Qed.

End ToolCallFacts.

(* ================================================================== *)
(** * Properties of the normaliser and of policy injection *)
(* ================================================================== *)

Module RoutesFacts.
Import Json Routes.

Lemma lookup_set_same k v ps : lookup k (set_prop k v ps) = v.
Proof.
  induction ps as [|[k' v'] ps IH]; cbn.
  - rewrite String.eqb_refl. reflexivity.
  - destruct (String.eqb k' k) eqn:E; cbn.
    + rewrite String.eqb_refl. reflexivity.
    + rewrite E. exact IH.
Qed.

Lemma lookup_set_other k k' v ps :
  String.eqb k' k = false -> lookup k (set_prop k' v ps) = lookup k ps.
Proof.
  intros Hne. induction ps as [|[k0 v0] ps IH]; cbn.
  - rewrite Hne. reflexivity.
  - destruct (String.eqb k0 k') eqn:E; cbn.
    + apply String.eqb_eq in E; subst k0. rewrite Hne. reflexivity.
    + destruct (String.eqb k0 k); [reflexivity|exact IH].
Qed.

Lemma lookup_delete_same k ps : lookup k (delete_prop k ps) = JUndefined.
Proof.
  induction ps as [|[k' v'] ps IH]; cbn; [reflexivity|].
  destruct (String.eqb k' k) eqn:E; cbn; [exact IH|]. rewrite E. exact IH.
Qed.

Lemma lookup_delete_other k k' ps :
  String.eqb k' k = false -> lookup k (delete_prop k' ps) = lookup k ps.
Proof.
  intros Hne. induction ps as [|[k0 v0] ps IH]; cbn; [reflexivity|].
  destruct (String.eqb k0 k') eqn:E; cbn.
  - apply String.eqb_eq in E; subst k0. rewrite Hne. exact IH.
  - destruct (String.eqb k0 k); [reflexivity|exact IH].
Qed.


Lemma has_set_other k k' v ps :
  String.eqb k' k = false -> has_prop k (set_prop k' v ps) = has_prop k ps.
Proof.
  intros Hne. unfold has_prop. induction ps as [|[k0 v0] ps IH]; cbn.
  - rewrite Hne. reflexivity.
  - destruct (String.eqb k0 k') eqn:E; cbn.
    + apply String.eqb_eq in E; subst k0. rewrite Hne. reflexivity.
    + rewrite IH. reflexivity.
Qed.


(** The steps of [handleDirectResponses] before the reasoning step:
    the reasoning field is the client's, the token budget is raised to
    16 where it is a smaller number. *)
Lemma responses_before_reasoning systemPrompt modelId req :
  let r2 := handleDirectResponses_modifiedRequest systemPrompt modelId (Some "auto") req in
  lookup "reasoning" r2 = lookup "reasoning" req
  /\ has_prop "reasoning" r2 = has_prop "reasoning" req
  /\ lookup "max_output_tokens" r2 =
       match lookup "max_output_tokens" req with
       | JNum n => if n <? 16 then JNum 16 else JNum n
       | v => v
       end.
Proof.
  unfold handleDirectResponses_modifiedRequest. cbn [String.eqb Ascii.eqb Bool.eqb].
  set (r0 := set_prop "model" (JStr modelId) req).
  set (r1 := if truthy_string systemPrompt
             then if truthy (lookup "instructions" r0)
                  then set_prop "instructions"
                         (JStr (systemPrompt ++ toString (lookup "instructions" r0))%string) r0
                  else set_prop "instructions" (JStr systemPrompt) r0
             else r0).
  assert (H1 : lookup "reasoning" r1 = lookup "reasoning" req
               /\ has_prop "reasoning" r1 = has_prop "reasoning" req
               /\ lookup "max_output_tokens" r1 = lookup "max_output_tokens" req).
  { unfold r1, r0. destruct (truthy_string systemPrompt);
      [destruct (truthy (lookup "instructions" (set_prop "model" (JStr modelId) req)))|];
      rewrite !lookup_set_other, !has_set_other by reflexivity; auto. }
  destruct H1 as (A & B & C).
  rewrite C. destruct (lookup "max_output_tokens" req) as [| |b|n|s|l|p]; auto.
  destruct (n <? 16).
  - rewrite lookup_set_other, has_set_other, lookup_set_same by reflexivity. auto.
  - auto.
Qed.


(** C8. The request that [handleDirectResponses] forwards carries
    max_output_tokens 16 when the client's value is a number below 16,
    and the client's value otherwise. *)
Theorem max_output_tokens_floor :
  forall (systemPrompt modelId : string) (reasoningLevel : option string)
         (req : list (string * JSVal)),
    lookup "max_output_tokens"
      (handleDirectResponses_modifiedRequest systemPrompt modelId reasoningLevel req)
    = match lookup "max_output_tokens" req with
      | JNum n => if n <? 16 then JNum 16 else JNum n
      | v => v
      end.
Proof.
  intros sp mid lvl req.
  destruct (responses_before_reasoning sp mid req) as (_ & _ & H).
  unfold handleDirectResponses_modifiedRequest in *.
  cbn [String.eqb Ascii.eqb Bool.eqb] in H.
  destruct lvl as [level|].
  - destruct (String.eqb level "auto"); [exact H|].
    destruct (truthy_string level && is_level level).
    + rewrite lookup_set_other by reflexivity. exact H.
    + rewrite lookup_delete_other by reflexivity. exact H.
  - rewrite lookup_delete_other by reflexivity. exact H.
Qed.

(** C6 (as the code has it). For an input that carries a non-empty id
    and a non-zero created_at, the normaliser's result does not depend
    on the clock: two calls, whenever they are made, give the same
    object (or fail alike). *)
Theorem normaliser_is_repeatable :
  forall (now1 now2 : Z) (resp : JSVal),
    truthy (optprop resp "id") = true ->
    truthy (optprop resp "created_at") = true ->
    convertResponseToChatCompletion now1 resp
    = convertResponseToChatCompletion now2 resp.
Proof.
  intros now1 now2 resp Hid Hc.
  destruct resp as [| |b|n|s|items|props]; try reflexivity; [discriminate|].
  unfold convertResponseToChatCompletion, or_else.
  rewrite Hid, Hc. reflexivity.
Qed.

End RoutesFacts.

(* ================================================================== *)
(** * Concrete runs *)
(* ================================================================== *)

Module Examples.
Import Json Auth AuthFacts Dispatch DispatchFacts ResponseOpenAI StreamFacts
       ToolCallFacts Routes RoutesFacts.

Definition nl : string := String newline EmptyString.

(** Three keys configured, the second with blanks around it. *)
Definition env3 : Env :=
  {| getenv := fun name =>
       if String.eqb name "FACTORY_API_KEY" then Some "fk-alpha"
       else if String.eqb name "FACTORY_API_KEY_2" then Some " fk-beta "
       else if String.eqb name "FACTORY_API_KEY_3" then Some "fk-gamma"
       else None;
     factoryAuthFile := None |}.

Definition loaded3 : State := snd (loadAuthConfig env3 initial).

Definition noRefresh : Refresher :=
  {| shouldRefresh := false; refreshApiKey := Throw (Error "not configured") |}.

Definition request : FetchOptions :=
  {| headers := [("authorization", "Bearer fk-alpha"); ("content-type", "application/json")];
     body := "{}" |}.

(** Every call is answered 429. *)
Definition alwaysQuota (attempt : Z) (o : FetchOptions) : FetchOutcome :=
  Responded 429 "quota exceeded".

(** The first call is answered 429, every later one 200. *)
Definition quotaOnce (attempt : Z) (o : FetchOptions) : FetchOutcome :=
  if attempt =? 1 then Responded 429 "quota exceeded" else Responded 200 "ok".

Lemma exhaustion_after_one_full_cycle_witness :
  2 <= poolSize loaded3
  /\ outcome (fetchWithFallback alone alwaysQuota noRefresh loaded3 request)
     = Ret {| status := 429; responseBody := "quota exceeded"; bodyUsed := false |}
  /\ map keyIndex (attempts (fetchWithFallback alone alwaysQuota noRefresh loaded3 request))
     = [0; 1; 2].
Proof.
  assert (H2 : 2 <= poolSize loaded3) by (vm_compute; discriminate).
  pose proof (exhaustion_after_one_full_cycle alone alwaysQuota noRefresh
                env3 loaded3 request (fun _ => 429) (fun _ => "quota exceeded")
                (reach_load env3) (fun _ _ => eq_refl) H2
                (fun a o _ => eq_refl) (fun a _ => eq_refl)) as T.
  destruct T as (T1 & T2 & _).
  split; [exact H2|]. split; [exact T1|].
  rewrite T2. vm_compute. reflexivity.
Defined.

(** Another request starts its own cycle and, after a failure of its own,
    rotates, while the second call of the dispatch is in flight. *)
Definition rotatesDuringSecondCall (attempt : Z) (point : AwaitPoint) : list PoolCall :=
  match point with
  | AwaitFetch =>
      if attempt =? 2 then [CallStartNewRotationCycle; CallRotateFactoryApiKey] else []
  | _ => []
  end.

Definition interleaved : Run :=
  fetchWithFallback rotatesDuringSecondCall alwaysQuota noRefresh loaded3 request.

(** Three keys, three quota failures in a row: the dispatch sends the
    first key, the second and the first again, never the third, and
    reports exhaustion. *)
Lemma interleaved_dispatch_repeats_a_key :
  factoryApiKeys loaded3 = ["fk-alpha"; "fk-beta"; "fk-gamma"]
  /\ map sentAuthorization (attempts interleaved)
     = [Some "Bearer fk-alpha"; Some "Bearer fk-beta"; Some "Bearer fk-alpha"]
  /\ map keyIndex (attempts interleaved) = [0; 1; 0]
  /\ outcome interleaved
     = Ret {| status := 429; responseBody := "quota exceeded"; bodyUsed := false |}
  /\ (exists out, output interleaved = out ++ [LogExhausted])
  /\ ~ NoDup (map keyIndex (attempts interleaved))
  /\ ~ In (Some "Bearer fk-gamma") (map sentAuthorization (attempts interleaved)).
Proof.
  assert (Hs : map sentAuthorization (attempts interleaved)
               = [Some "Bearer fk-alpha"; Some "Bearer fk-beta"; Some "Bearer fk-alpha"])
    by (vm_compute; reflexivity).
  assert (Hk : map keyIndex (attempts interleaved) = [0; 1; 0])
    by (vm_compute; reflexivity).
  split; [vm_compute; reflexivity|]. split; [exact Hs|]. split; [exact Hk|].
  split; [vm_compute; reflexivity|].
  split; [exists (removelast (output interleaved)); vm_compute; reflexivity|].
  split.
  - rewrite Hk. intros H. inversion H as [|x l Hin _]. subst. apply Hin. right. left. reflexivity.
  - rewrite Hs. intros [H|[H|[H|[]]]]; discriminate.
Qed.





Definition rotated3 : State := snd (fst (rotateFactoryApiKey loaded3)).

Lemma current_key_index_selects_pool_key_witness :
  authSource rotated3 = SrcFactoryKey
  /\ 0 <= currentKeyIndex rotated3 < poolSize rotated3.
Proof.
  split; [reflexivity|].
  apply (proj1 (current_key_index_selects_pool_key env3 rotated3
                  (reach_rotate env3 loaded3 (reach_load env3)) eq_refl)).
Defined.

(** The transformer of the runs below. *)
Definition xf0 : Transformer := construct 1700000000000 "gpt-5" (Some "chatcmpl-1").

Definition textDeltaLine : string := (q "data: {'delta':'Hi'}").

Definition pendingDelta : LineState :=
  {| currentEvent := Some "response.output_text.delta"; xf := xf0;
     yielded := []; thrown := None; delivered := [] |}.

Lemma data_line_consumes_pending_event_witness :
  parseSSELine JsonRef.parse textDeltaLine = Some (DataLine (JObj [("delta", JStr "Hi")]))
  /\ currentEvent (consumeLine JsonRef.parse JsonRef.stringify 0 pendingDelta textDeltaLine)
     = None.
Proof.
  assert (Hp : parseSSELine JsonRef.parse textDeltaLine
               = Some (DataLine (JObj [("delta", JStr "Hi")])))
    by (vm_compute; reflexivity).
  split; [exact Hp|].
  destruct (data_line_consumes_pending_event JsonRef.parse JsonRef.stringify 0
              pendingDelta textDeltaLine (JObj [("delta", JStr "Hi")]) eq_refl Hp)
    as (_ & T & _).
  destruct (T eq_refl) as (ev & _ & _ & T').
  apply T'. vm_compute. reflexivity.
Defined.

(** A body that ends after a text delta. *)
Definition unfinished : Source :=
  {| chunks := [ ("event: response.output_text.delta" ++ nl
                  ++ q "data: {'delta':'Hi'}" ++ nl ++ nl)%string ];
     failure := None |}.

Lemma unfinished_stream_is_terminated_witness :
  yields (transformStream JsonRef.parse JsonRef.stringify 0 xf0 unfinished)
  = yielded (consumed JsonRef.parse JsonRef.stringify 0 xf0 unfinished)
    ++ [ frame JsonRef.stringify
           (JObj [ ("id", JStr "chatcmpl-1");
                   ("object", JStr "chat.completion.chunk");
                   ("created", JNum 1700000000);
                   ("model", JStr "gpt-5");
                   ("choices",
                    JArr [ JObj [ ("index", JNum 0);
                                  ("delta", JObj []);
                                  ("finish_reason", JStr "stop") ] ]) ]);
         doneSignal ].
Proof.
  apply (proj1 (unfinished_stream_is_terminated JsonRef.parse JsonRef.stringify 0
                  xf0 unfinished ltac:(vm_compute; reflexivity))).
  vm_compute. reflexivity.
Defined.

(** A text delta whose payload is the JSON value null: reading
    [eventData.delta] throws, the [catch] block writes the sentinel
    alone. *)
Definition nullDelta : Source :=
  {| chunks := [ ("event: response.output_text.delta" ++ nl ++ "data: null" ++ nl)%string ];
     failure := None |}.

Definition nullDeltaOutput : Emitted :=
  transformStream JsonRef.parse JsonRef.stringify 0 xf0 nullDelta.

Lemma null_payload_ends_without_stop_chunk :
  existsb isCompletionEvent
    (delivered (consumed JsonRef.parse JsonRef.stringify 0 xf0 nullDelta)) = false
  /\ yields nullDeltaOutput = [doneSignal]
  /\ ending nullDeltaOutput = Throw TypeError
  /\ ~ exists pre chunk, yields nullDeltaOutput = pre ++ [chunk; doneSignal].
Proof.
  set (out := nullDeltaOutput).
  assert (Hy : yields out = [doneSignal]) by (vm_compute; reflexivity).
  split; [vm_compute; reflexivity|]. split; [exact Hy|].
  split; [vm_compute; reflexivity|].
  intros (pre & chunk & H). rewrite Hy in H.
  destruct pre as [|a [|b pre]]; cbn in H; discriminate.
Qed.

(** The tool-call events of one item. *)
Definition lookupItem : list (string * JSVal) :=
  [ ("type", JStr "function_call"); ("id", JStr "fc_1"); ("name", JStr "lookup") ].

Definition addedEvent : list (string * JSVal) :=
  [ ("type", JStr "response.output_item.added"); ("item", JObj lookupItem) ].

Definition deltaEvent (text : string) : list (string * JSVal) :=
  [ ("type", JStr "response.function_call_arguments.delta");
    ("item_id", JStr "fc_1"); ("delta", JStr text) ].

Definition completedEvent : list (string * JSVal) :=
  [ ("type", JStr "response.completed");
    ("response", JObj [ ("status", JStr "completed") ]) ].

Definition toolEvents : list (string * JSVal) :=
  [ ("response.output_item.added", JObj addedEvent);
    ("response.function_call_arguments.delta", JObj (deltaEvent (q "{'q':")));
    ("response.function_call_arguments.delta", JObj (deltaEvent (q "'cat'}"))) ].

Lemma tool_call_reconstruction_witness :
  assembleToolCalls
    [ toolCallChunk xf0 0 (JStr "fc_1") (JStr "lookup") (JStr "") true;
      toolCallChunk xf0 0 (JStr "fc_1") JNull (JStr (q "{'q':")) false;
      toolCallChunk xf0 0 (JStr "fc_1") JNull (JStr (q "'cat'}")) false ]
  = [ {| e_index := JNum 0; e_id := JStr "fc_1"; e_name := JStr "lookup";
         e_arguments := (q "{'q':'cat'}") |} ].
Proof.
  apply (proj1 (proj2 (proj2 (tool_call_reconstruction JsonRef.stringify 0 xf0 "fc_1"
                         lookupItem addedEvent (deltaEvent (q "{'q':"))
                         (deltaEvent (q "'cat'}")) completedEvent
                         [ ("status", JStr "completed") ] JNull
                         eq_refl eq_refl eq_refl eq_refl eq_refl eq_refl
                         eq_refl eq_refl eq_refl eq_refl eq_refl eq_refl)))).
Defined.

(** The item's own completion event, [response.output_item.done]. *)
Definition itemDoneEvent : list (string * JSVal) :=
  [ ("type", JStr "response.output_item.done");
    ("item", JObj (lookupItem ++ [ ("arguments", JStr (q "{'q':'cat'}")) ])) ].

Definition chunk1 : JSVal := toolCallChunk xf0 0 (JStr "fc_1") (JStr "lookup") (JStr "") true.
Definition chunk2 : JSVal := toolCallChunk xf0 0 (JStr "fc_1") JNull (JStr (q "{'q':")) false.
Definition chunk3 : JSVal := toolCallChunk xf0 0 (JStr "fc_1") JNull (JStr (q "'cat'}")) false.
Definition chunk4 : JSVal :=
  completeToolCallChunk xf0 1 (JStr "fc_1") (JStr "lookup") (JStr (q "{'q':'cat'}")).

Definition lookupCall (i : Z) : Entry :=
  {| e_index := JNum i; e_id := JStr "fc_1"; e_name := JStr "lookup";
     e_arguments := q "{'q':'cat'}" |}.

Lemma item_done_event_adds_second_tool_call :
  fst (fst (feed JsonRef.stringify 0 xf0
              (toolEvents ++ [("response.output_item.done", JObj itemDoneEvent)])))
  = map (frame JsonRef.stringify) [chunk1; chunk2; chunk3; chunk4]
  /\ assembleToolCalls [chunk1; chunk2; chunk3; chunk4] = [lookupCall 0; lookupCall 1]
  /\ assembleToolCalls [chunk1; chunk2; chunk3; chunk4] <> [lookupCall 0].
Proof.
  split; [vm_compute; reflexivity|].
  assert (H : assembleToolCalls [chunk1; chunk2; chunk3; chunk4]
              = [lookupCall 0; lookupCall 1])
    by (vm_compute; reflexivity).
  split; [exact H|]. rewrite H. discriminate.
Qed.

(** A vendor response without an id. *)
Definition responseWithoutId : JSVal :=
  JObj [ ("object", JStr "response");
         ("created_at", JNum 1700000000);
         ("status", JStr "completed");
         ("model", JStr "gpt-5");
         ("output",
          JArr [ JObj [ ("type", JStr "message"); ("role", JStr "assistant");
                        ("content",
                         JArr [ JObj [ ("type", JStr "output_text");
                                       ("text", JStr "hi") ] ]) ] ]) ].

Lemma normaliser_depends_on_clock :
  exists o1 o2,
    convertResponseToChatCompletion 1700000000000 responseWithoutId = Ret o1
    /\ convertResponseToChatCompletion 1700000000001 responseWithoutId = Ret o2
    /\ lookup "id" (match o1 with JObj p => p | _ => [] end) = JStr "chatcmpl-1700000000000"
    /\ lookup "id" (match o2 with JObj p => p | _ => [] end) = JStr "chatcmpl-1700000000001"
    /\ JsonRef.stringify o1 <> JsonRef.stringify o2.
Proof.
  eexists. eexists.
  split; [vm_compute; reflexivity|]. split; [vm_compute; reflexivity|].
  split; [reflexivity|]. split; [reflexivity|].
  vm_compute. discriminate.
Qed.

Definition responseWithId : JSVal :=
  match responseWithoutId with
  | JObj p => JObj (("id", JStr "resp_abc") :: p)
  | v => v
  end.

Lemma normaliser_is_repeatable_witness :
  convertResponseToChatCompletion 1700000000000 responseWithId
  = convertResponseToChatCompletion 1700000000001 responseWithId.
Proof.
  apply (normaliser_is_repeatable 1700000000000 1700000000001 responseWithId
           eq_refl eq_refl).
Defined.

(** A text delta with the two-byte character U+00E9, cut between its
    bytes. *)
Definition deltaHead : string :=
  ("event: response.output_text.delta" ++ nl ++ q "data: {'delta':'" ++ bytes [195%nat])%string.

Definition deltaTail : string :=
  (bytes [169%nat] ++ q "'}" ++ nl)%string.

(** The chunk that carries a text delta, framed. *)
Definition contentFrame (text : string) : string :=
  frame JsonRef.stringify (openAIChunk xf0 (JStr text) (JStr "assistant") false JNull).

(** What the transformer emits for a body delivered in the chunks [cs]. *)
Definition emitted (cs : list string) : list string :=
  yields (transformStream JsonRef.parse JsonRef.stringify 0 xf0
            {| chunks := cs; failure := None |}).

(** C4 at a failing input. The body is a text delta with the character
    U+00E9 (bytes C3 A9).  Delivered whole, the transformer emits the
    character; delivered in two chunks that part between its two bytes,
    it emits two U+FFFD instead, because each chunk is decoded on its
    own. *)
Theorem split_character_changes_output :
  firstn 1 (emitted [ (deltaHead ++ deltaTail)%string ])
    = [ contentFrame (bytes [195; 169]%nat) ]
  /\ firstn 1 (emitted [ deltaHead; deltaTail ])
     = [ contentFrame (bytes [239; 191; 189; 239; 191; 189]%nat) ]
  /\ emitted [ deltaHead; deltaTail ] <> emitted [ (deltaHead ++ deltaTail)%string ].
Proof.
  split; [vm_compute; reflexivity|]. split; [vm_compute; reflexivity|].
  vm_compute. discriminate.
Qed.

End Examples.

(* ================================================================== *)
(** * The credential pool over the life of the process *)
(* ================================================================== *)

Module PoolFacts.
Import Auth AuthFacts.

(** The keys the environment configures: the values of FACTORY_API_KEY,
    FACTORY_API_KEY_2, ..., FACTORY_API_KEY_7 that are not blank, trimmed,
    in this order. *)
Definition configuredKeys (env : Env) : list string :=
  flat_map
    (fun envName =>
       match getenv env envName with
       | Some keyValue => if nonblank (Some keyValue) then [trim keyValue] else []
       | None => []
       end)
    keyEnvNames.

Lemma fold_push_flat_map (f : string -> option string) (names : list string) :
  forall acc : list string,
    fold_left
      (fun acc envName =>
         match f envName with
         | Some keyValue =>
             if nonblank (Some keyValue) then acc ++ [trim keyValue] else acc
         | None => acc
         end) names acc
    = acc ++ flat_map
               (fun envName =>
                  match f envName with
                  | Some keyValue =>
                      if nonblank (Some keyValue) then [trim keyValue] else []
                  | None => []
                  end) names.
Proof.
  induction names as [|n names IH]; intros acc; cbn [fold_left flat_map].
  - rewrite app_nil_r. reflexivity.
  - rewrite IH. destruct (f n) as [v|]; [destruct (nonblank (Some v))|];
      cbn [app]; try rewrite <- app_assoc; reflexivity.
Qed.

Lemma pushKeys_configured env keys : pushKeys env keys = keys ++ configuredKeys env.
Proof. unfold pushKeys, configuredKeys. apply fold_push_flat_map. Qed.

Lemma flat_map_nonblank (f : string -> option string) (names : list string) :
  (0 <? Z.of_nat
          (List.length
             (flat_map
                (fun envName =>
                   match f envName with
                   | Some keyValue =>
                       if nonblank (Some keyValue) then [trim keyValue] else []
                   | None => []
                   end) names)))
  = existsb (fun envName => nonblank (f envName)) names.
Proof.
  induction names as [|n names IH]; cbn [flat_map existsb]; [reflexivity|].
  destruct (f n) as [v|].
  - destruct (nonblank (Some v)); cbn [app orb]; [|exact IH].
    cbn [List.length]. apply Z.ltb_lt. lia.
  - cbn [nonblank app orb]. exact IH.
Qed.

Lemma configured_nonblank env :
  (0 <? Z.of_nat (List.length (configuredKeys env)))
  = existsb (fun envName => nonblank (getenv env envName)) keyEnvNames.
Proof. apply flat_map_nonblank. Qed.

Lemma load_keys env :
  factoryApiKeys (snd (loadAuthConfig env initial)) = configuredKeys env.
Proof.
  unfold loadAuthConfig. cbn [factoryApiKeys initial].
  destruct (0 <? Z.of_nat (List.length (pushKeys env []))); [apply pushKeys_configured|].
  destruct (nonblank (getenv env "DROID_REFRESH_KEY")); [apply pushKeys_configured|].
  destruct (factoryAuthFile env) as [a|];
    [destruct (nonblank (refresh_token a))|]; apply pushKeys_configured.
Qed.

Lemma rotate_keeps st :
  factoryApiKeys (snd (fst (rotateFactoryApiKey st))) = factoryApiKeys st
  /\ authSource (snd (fst (rotateFactoryApiKey st))) = authSource st
  /\ currentApiKey (snd (fst (rotateFactoryApiKey st))) = currentApiKey st.
Proof.
  unfold rotateFactoryApiKey.
  destruct (negb (factoryMode st) || (poolSize st <=? 1)); [auto|].
  destruct ((currentKeyIndex st + 1) mod poolSize st =? startingKeyIndex st); [auto|].
  destruct (nthZ (factoryApiKeys st) (currentKeyIndex st));
    [destruct (nthZ (factoryApiKeys st) ((currentKeyIndex st + 1) mod poolSize st))|];
    auto.
Qed.

Lemma getApiKey_keeps rf clientAuthorization st :
  let st' := snd (getApiKey rf clientAuthorization st) in
  factoryApiKeys st' = factoryApiKeys st
  /\ authSource st' = authSource st
  /\ currentKeyIndex st' = currentKeyIndex st
  /\ startingKeyIndex st' = startingKeyIndex st
  /\ hasCompletedFullCycle st' = hasCompletedFullCycle st.
Proof.
  unfold getApiKey.
  destruct (factoryMode st && (0 <? Z.of_nat (List.length (factoryApiKeys st)))).
  - destruct (nthZ (factoryApiKeys st) (currentKeyIndex st)); cbn [snd]; auto 6.
  - destruct (AuthSource_eqb (authSource st) SrcEnv
              || AuthSource_eqb (authSource st) SrcFile).
    + destruct (shouldRefresh rf); [destruct (refreshApiKey rf) as [tok|e]|];
        cbn [set_currentApiKey currentApiKey];
        repeat match goal with
               | |- context [match ?x with _ => _ end] => destruct x
               end; cbn [snd]; auto 6.
    + destruct clientAuthorization as [a|]; [destruct (truthy_string a)|];
        cbn [snd]; auto 6.
Qed.

(** The mode and the keys are decided when the configuration is loaded
    and no exported function changes them. *)
Lemma reachable_fixed env st :
  reachable env st ->
  authSource st = authSource (snd (loadAuthConfig env initial))
  /\ factoryApiKeys st = configuredKeys env.
Proof.
  induction 1 as [|st Hr (IHs & IHk)|st Hr (IHs & IHk)|rf ca st Hr (IHs & IHk)].
  - split; [reflexivity|apply load_keys].
  - split; assumption.
  - destruct (rotate_keeps st) as (A & B & _). rewrite A, B. split; assumption.
  - destruct (getApiKey_keeps rf ca st) as (A & B & _). rewrite A, B. split; assumption.
Qed.

Lemma load_source env :
  authSource (snd (loadAuthConfig env initial)) =
    if existsb (fun envName => nonblank (getenv env envName)) keyEnvNames
    then SrcFactoryKey
    else if nonblank (getenv env "DROID_REFRESH_KEY") then SrcEnv
    else match factoryAuthFile env with
         | Some authData => if nonblank (refresh_token authData) then SrcFile else SrcClient
         | None => SrcClient
         end.
Proof.
  unfold loadAuthConfig. rewrite pushKeys_configured. cbn [app factoryApiKeys initial].
  rewrite configured_nonblank.
  destruct (existsb (fun envName => nonblank (getenv env envName)) keyEnvNames);
    [reflexivity|].
  destruct (nonblank (getenv env "DROID_REFRESH_KEY")); [reflexivity|].
  destruct (factoryAuthFile env) as [a|];
    [destruct (nonblank (refresh_token a))|]; reflexivity.
Qed.


(** X2. In every state the process can reach the pool holds exactly the
    configured keys: the non-blank values of FACTORY_API_KEY,
    FACTORY_API_KEY_2, ..., FACTORY_API_KEY_7, trimmed, in this order
    (a blank or missing variable leaves no gap).  No key is the empty
    string, and the mode is the one chosen at start-up: rotation, a new
    cycle and [getApiKey] change neither. *)
Theorem pool_is_the_configured_keys :
  forall (env : Env) (st : State),
    reachable env st ->
    factoryApiKeys st = configuredKeys env
    /\ authSource st = authSource (snd (loadAuthConfig env initial))
    /\ Forall (fun key => truthy_string key = true) (factoryApiKeys st).
Proof.
  intros env st Hr. destruct (reachable_fixed env st Hr) as (Hs & Hk).
  split; [exact Hk|]. split; [exact Hs|].
  rewrite Hk. unfold configuredKeys. apply Forall_flat_map.
  apply Forall_forall. intros envName _.
  destruct (getenv env envName) as [v|]; [|constructor].
  destruct (nonblank (Some v)) eqn:E; [|constructor].
  constructor; [|constructor].
  cbn [nonblank] in E. apply andb_true_iff in E. destruct E as (_ & E).
  apply negb_true_iff in E. destruct (trim v); [discriminate|reflexivity].
Qed.

Lemma load_fresh_cycle env :
  hasCompletedFullCycle (snd (loadAuthConfig env initial)) = false.
Proof.
  unfold loadAuthConfig.
  destruct (0 <? Z.of_nat (List.length (pushKeys env (factoryApiKeys initial))));
    [reflexivity|].
  destruct (nonblank (getenv env "DROID_REFRESH_KEY")); [reflexivity|].
  destruct (factoryAuthFile env) as [a|];
    [destruct (nonblank (refresh_token a))|]; reflexivity.
Qed.

(** Once the cycle is complete the next index is the index the cycle
    started at. *)
Definition cycle_closed (st : State) : Prop :=
  hasCompletedFullCycle st = true ->
  (currentKeyIndex st + 1) mod poolSize st = startingKeyIndex st.

Lemma reachable_cycle_closed env st : reachable env st -> cycle_closed st.
Proof.
  induction 1 as [|st Hr IH|st Hr IH|rf ca st Hr IH]; unfold cycle_closed in *.
  - rewrite load_fresh_cycle. discriminate.
  - cbn [startNewRotationCycle hasCompletedFullCycle]. discriminate.
  - unfold rotateFactoryApiKey.
    destruct (negb (factoryMode st) || (poolSize st <=? 1)); [exact IH|].
    destruct ((currentKeyIndex st + 1) mod poolSize st =? startingKeyIndex st) eqn:E.
    + intros _. apply Z.eqb_eq in E. exact E.
    + assert (Hc : hasCompletedFullCycle st = false).
      { destruct (hasCompletedFullCycle st); [|reflexivity].
        apply Z.eqb_neq in E. exfalso. apply E, IH. reflexivity. }
      destruct (nthZ (factoryApiKeys st) (currentKeyIndex st));
        [destruct (nthZ (factoryApiKeys st) ((currentKeyIndex st + 1) mod poolSize st))|];
        cbn [fst snd hasCompletedFullCycle]; intros Ht; congruence.
  - destruct (getApiKey_keeps rf ca st) as (A & _ & B & C & D).
    unfold poolSize. rewrite A, B, C, D. exact IH.
Qed.

(** X3. The guard and the rotation agree: whenever [hasMoreFactoryKeys]
    answers false (another mode, at most one key, or a cycle that is
    complete), [rotateFactoryApiKey] answers false too and leaves the
    pool exactly as it is; a complete cycle stays complete until
    [startNewRotationCycle] runs. *)
Theorem no_rotation_without_more_keys :
  forall (env : Env) (st : State),
    reachable env st ->
    hasMoreFactoryKeys st = false ->
    fst (rotateFactoryApiKey st) = (Ret false, st)
    /\ hasMoreFactoryKeys (snd (fst (rotateFactoryApiKey st))) = false
    /\ hasMoreFactoryKeys (startNewRotationCycle st)
       = factoryMode st && negb (poolSize st <=? 1).
Proof.
  intros env st Hr Hm. pose proof (reachable_cycle_closed env st Hr) as Hc.
  assert (E : fst (rotateFactoryApiKey st) = (Ret false, st)).
  { unfold hasMoreFactoryKeys in Hm. unfold rotateFactoryApiKey.
    destruct (negb (factoryMode st) || (poolSize st <=? 1)); [reflexivity|].
    apply negb_false_iff in Hm. rewrite (Hc Hm), Z.eqb_refl. cbn [fst].
    f_equal. destruct st. cbn in Hm. subst. reflexivity. }
  split; [exact E|]. split; [rewrite E; exact Hm|].
  unfold hasMoreFactoryKeys, startNewRotationCycle, factoryMode, poolSize.
  cbn [authSource factoryApiKeys hasCompletedFullCycle].
  destruct (AuthSource_eqb (authSource st) SrcFactoryKey);
    destruct (Z.of_nat (List.length (factoryApiKeys st)) <=? 1); reflexivity.
Qed.

(** X4. The key banner never fails: in every state the process can
    reach, [rotateFactoryApiKey] and [getCurrentKeyInfo] return without
    throwing; the key info is present exactly in factory-key mode, and
    then its index is the active index counted from 1, between 1 and the
    number of keys. *)
Theorem key_lookups_never_throw :
  forall (env : Env) (st : State),
    reachable env st ->
    (exists rotated, fst (fst (rotateFactoryApiKey st)) = Ret rotated)
    /\ exists keyInfo,
         getCurrentKeyInfo st = Ret keyInfo
         /\ match keyInfo with
            | Some info =>
                authSource st = SrcFactoryKey
                /\ index info = currentKeyIndex st + 1
                /\ total info = poolSize st
                /\ 1 <= index info <= total info
            | None => authSource st <> SrcFactoryKey
            end.
Proof.
  intros env st Hr. pose proof (reachable_wf env st Hr) as Hwf. split.
  - destruct (rotate_cases st Hwf) as [(_ & E) | [(_ & _ & _ & E) | (_ & _ & _ & E)]];
      rewrite E; cbn [fst]; eauto.
  - destruct (factoryMode st) eqn:F.
    + apply factoryMode_true in F.
      rewrite (getCurrentKeyInfo_factory st Hwf F). eexists. split; [reflexivity|].
      cbn [index total]. destruct Hwf as (_ & _ & C). specialize (C F).
      repeat split; try assumption; lia.
    + unfold getCurrentKeyInfo. rewrite F. cbn [andb]. eexists. split; [reflexivity|].
      intros E. apply factoryMode_true in E. congruence.
Qed.

Lemma load_source_not_null env :
  authSource (snd (loadAuthConfig env initial)) <> SrcNull.
Proof.
  rewrite load_source.
  destruct (existsb (fun envName => nonblank (getenv env envName)) keyEnvNames);
    [discriminate|].
  destruct (nonblank (getenv env "DROID_REFRESH_KEY")); [discriminate|].
  destruct (factoryAuthFile env) as [a|];
    [destruct (nonblank (refresh_token a))|]; discriminate.
Qed.

(** X5. The client's Authorization header counts in client mode only:
    there [getApiKey] returns it as it came (no scheme is added) and
    fails without one; in the other modes the answer does not depend on
    what the client sent. *)
Theorem client_authorization_only_in_client_mode :
  forall (env : Env) (st : State) (rf : Refresher),
    reachable env st ->
    (authSource st = SrcClient ->
     forall clientAuthorization,
       getApiKey rf clientAuthorization st =
         (match clientAuthorization with
          | Some header =>
              if truthy_string header then Ret header
              else Throw (Error "No authorization available.")
          | None => Throw (Error "No authorization available.")
          end, st))
    /\ (authSource st <> SrcClient ->
        forall clientAuthorization clientAuthorization',
          getApiKey rf clientAuthorization st = getApiKey rf clientAuthorization' st).
Proof.
  intros env st rf Hr. pose proof (reachable_wf env st Hr) as (_ & _ & Hidx).
  destruct (reachable_fixed env st Hr) as (Hs & _).
  pose proof (load_source_not_null env) as Hnn. rewrite <- Hs in Hnn.
  split.
  - intros Hc ca. unfold getApiKey, factoryMode. rewrite Hc. cbn [AuthSource_eqb andb orb].
    destruct ca as [a|]; [destruct (truthy_string a)|]; reflexivity.
  - intros Hc ca ca'. unfold getApiKey, factoryMode.
    destruct (authSource st) eqn:E; try congruence; cbn [AuthSource_eqb andb orb];
      try reflexivity.
    replace (0 <? Z.of_nat (List.length (factoryApiKeys st))) with true; [reflexivity|].
    symmetry. apply Z.ltb_lt. specialize (Hidx eq_refl). unfold poolSize in Hidx. lia.
Qed.

End PoolFacts.

(* ================================================================== *)
(** * The dispatcher among other requests *)
(* ================================================================== *)

Module DispatchAmongOthers.
Import Auth AuthFacts PoolFacts Dispatch DispatchFacts.

(** The options a call was made with, read off the record of the call:
    the caller's options, with the Authorization header that was sent
    from the second call on. *)
Definition optionsOf (opts : FetchOptions) (x : Attempt) : FetchOptions :=
  if attemptNo x =? 1 then opts
  else match sentAuthorization x with
       | Some header => set_authorization header opts
       | None => opts
       end.

(** The upstream answered the call with a quota/auth status. *)
Definition answeredQuota (fetch : Z -> FetchOptions -> FetchOutcome)
    (opts : FetchOptions) (x : Attempt) : Prop :=
  exists statusCode payload,
    fetch (attemptNo x) (optionsOf opts x) = Responded statusCode payload
    /\ isQuotaOrAuthError statusCode = true.

(** What a call gives the caller when the dispatch ends with it. *)
Definition resultOf (o : FetchOutcome) : Exc Response :=
  match o with
  | Responded statusCode payload => Ret (fresh statusCode payload)
  | Failed e => Throw e
  end.

(** The error of a dispatch that leaves its loop by the loop condition. *)
Definition afterAllAttempts : JsError := Error "Request failed after all attempts".

(** A later call carries a key of the configuration. *)
Definition keyed (env : Env) (x : Attempt) : Prop :=
  1 < attemptNo x ->
  exists key, In key (configuredKeys env)
              /\ sentAuthorization x = Some ("Bearer " ++ key)%string.

(** The record of a call holds the header it was made with. *)
Definition recorded (opts : FetchOptions) (x : Attempt) : Prop :=
  sentAuthorization x = get_header "authorization" (headers (optionsOf opts x)).

(** The calls [new] that a dispatch adds from attempt [a] on. *)
Definition continues (env : Env) (fetch : Z -> FetchOptions -> FetchOutcome)
    (opts : FetchOptions) (a : Z) (tr : list Attempt) (run : Run)
    (new : list Attempt) : Prop :=
  attempts run = tr ++ new
  /\ map attemptNo new = map (fun i => a + Z.of_nat i) (seq 0 (List.length new))
  /\ a + Z.of_nat (List.length new) <= maxAttempts + 1
  /\ Forall (keyed env) new
  /\ Forall (recorded opts) new
  /\ body (finalOptions run) = body opts
  /\ (forall name, String.eqb "authorization" name = false ->
        get_header name (headers (finalOptions run)) = get_header name (headers opts))
  /\ exists earlier lastAttempt,
       new = earlier ++ [lastAttempt]
       /\ Forall (answeredQuota fetch opts) earlier
       /\ ((finalOptions run = optionsOf opts lastAttempt
            /\ outcome run
               = resultOf (fetch (attemptNo lastAttempt) (optionsOf opts lastAttempt)))
           \/ (outcome run = Throw afterAllAttempts
               /\ attemptNo lastAttempt = maxAttempts
               /\ answeredQuota fetch opts lastAttempt)).

Lemma get_set_header_other k k' v h :
  String.eqb k' k = false -> get_header k (set_header k' v h) = get_header k h.
Proof.
  intros Hne. induction h as [|[k0 v0] h IH]; cbn.
  - rewrite Hne. reflexivity.
  - destruct (String.eqb k0 k') eqn:E; cbn.
    + apply String.eqb_eq in E; subst k0. rewrite Hne. reflexivity.
    + destruct (String.eqb k0 k); [reflexivity|exact IH].
Qed.

(** The options of the loop at attempt [a]: the caller's at the first
    attempt, later the caller's with the header of a configured key. *)
Definition current (env : Env) (opts : FetchOptions) (a : Z) (cur : FetchOptions) : Prop :=
  (a = 1 /\ cur = opts)
  \/ (1 < a /\ exists key, In key (configuredKeys env)
                           /\ cur = set_authorization ("Bearer " ++ key)%string opts).

Lemma current_optionsOf env opts a st cur :
  current env opts a cur -> optionsOf opts (thisAttempt a st cur) = cur.
Proof.
  unfold optionsOf, thisAttempt. cbn [attemptNo sentAuthorization].
  intros [(-> & ->)|(Ha & key & _ & ->)]; [reflexivity|].
  replace (a =? 1) with false by (symmetry; apply Z.eqb_neq; lia).
  cbn [set_authorization headers]. rewrite get_set_header. reflexivity.
Qed.

Lemma current_keyed env opts a st cur :
  current env opts a cur -> keyed env (thisAttempt a st cur).
Proof.
  unfold keyed, thisAttempt. cbn [attemptNo sentAuthorization].
  intros [(-> & _)|(_ & key & Hin & ->)] Ha; [lia|].
  exists key. split; [exact Hin|].
  cbn [set_authorization headers]. apply get_set_header.
Qed.

Lemma current_recorded env opts a st cur :
  current env opts a cur -> recorded opts (thisAttempt a st cur).
Proof.
  intros Hc. unfold recorded. rewrite (current_optionsOf env opts a st cur Hc).
  reflexivity.
Qed.

Lemma current_kept env opts a cur :
  current env opts a cur ->
  body cur = body opts
  /\ forall name, String.eqb "authorization" name = false ->
       get_header name (headers cur) = get_header name (headers opts).
Proof.
  intros [(_ & ->)|(_ & key & _ & ->)]; [split; reflexivity|].
  split; [reflexivity|]. intros name Hne.
  cbn [set_authorization headers]. apply get_set_header_other. exact Hne.
Qed.

Lemma current_next env opts a cur key :
  1 <= a -> current env opts a cur -> In key (configuredKeys env) ->
  current env opts (a + 1) (set_authorization ("Bearer " ++ key)%string cur).
Proof.
  intros Ha Hc Hin. right. split; [lia|]. exists key. split; [exact Hin|].
  destruct Hc as [(_ & ->)|(_ & key' & _ & ->)]; [reflexivity|].
  apply set_set_authorization.
Qed.

(** A rotation that takes place leaves the pool on a configured key, and
    [getApiKey] then answers with it. *)
Lemma rotated_key env rf st st' o :
  reachable env st ->
  rotateFactoryApiKey st = (Ret true, st', o) ->
  exists key, In key (configuredKeys env)
    /\ getApiKey rf None st' = (Ret ("Bearer " ++ key)%string, st').
Proof.
  intros Hr E.
  pose proof (reach_rotate env st Hr) as Hr'. rewrite E in Hr'. cbn [fst snd] in Hr'.
  pose proof (reachable_wf env st' Hr') as Hwf'.
  assert (Hsrc : authSource st' = SrcFactoryKey).
  { destruct (rotate_cases st (reachable_wf env st Hr))
      as [(_ & E') | [(_ & _ & _ & E') | (Hs & _ & _ & E')]];
      rewrite E' in E; inversion E; subst; exact Hs. }
  destruct (getApiKey_factory st' Hwf' Hsrc) as (key & Hk & Hget).
  exists key. split; [|apply Hget].
  destruct (reachable_fixed env st' Hr') as (_ & Hkeys). rewrite <- Hkeys.
  eapply nthZ_In. exact Hk.
Qed.

Lemma rotate_no_throw env st e st' o :
  reachable env st -> rotateFactoryApiKey st <> (Throw e, st', o).
Proof.
  intros Hr E.
  destruct (rotate_cases st (reachable_wf env st Hr))
    as [(_ & E') | [(_ & _ & _ & E') | (_ & _ & _ & E')]];
    rewrite E' in E; discriminate.
Qed.

Lemma fetchLoop_over others fetch refresher fuel a st cur out tr :
  maxAttempts < a ->
  fetchLoop others fetch refresher fuel a st cur out tr = afterLoop st cur out tr.
Proof.
  intros Ha. destruct fuel as [|fuel]; cbn [fetchLoop]; [reflexivity|].
  replace (negb (a <=? maxAttempts)) with true; [reflexivity|].
  symmetry. apply negb_true_iff, Z.leb_gt. exact Ha.
Qed.

Lemma getCurrentKeyInfo_ret st :
  wf st ->
  getCurrentKeyInfo st =
    Ret (if factoryMode st
         then Some {| index := currentKeyIndex st + 1; total := poolSize st |}
         else None).
Proof.
  intros Hwf. rewrite (getCurrentKeyInfo_cases st Hwf).
  destruct (factoryMode st); reflexivity.
Qed.

Lemma ends_here env fetch opts a st cur tr run :
  1 <= a <= maxAttempts -> current env opts a cur ->
  attempts run = tr ++ [thisAttempt a st cur] ->
  finalOptions run = cur ->
  outcome run = resultOf (fetch a cur) ->
  continues env fetch opts a tr run [thisAttempt a st cur].
Proof.
  intros Ha Hc Et Eo Er. unfold continues. rewrite Eo.
  destruct (current_kept env opts a cur Hc) as (Hb & Hh).
  split; [exact Et|].
  split; [cbn; f_equal; lia|].
  split; [cbn [List.length Z.of_nat]; unfold maxAttempts in *; lia|].
  split; [constructor; [eapply current_keyed; exact Hc|constructor]|].
  split; [constructor; [eapply current_recorded; exact Hc|constructor]|].
  split; [exact Hb|]. split; [exact Hh|].
  exists [], (thisAttempt a st cur). split; [reflexivity|]. split; [constructor|].
  left. rewrite (current_optionsOf env opts a st cur Hc). split; [reflexivity|exact Er].
Qed.

Lemma goes_on env fetch opts a st cur tr run new code payload :
  1 <= a <= maxAttempts -> current env opts a cur ->
  fetch a cur = Responded code payload -> isQuotaOrAuthError code = true ->
  continues env fetch opts (a + 1) (tr ++ [thisAttempt a st cur]) run new ->
  continues env fetch opts a tr run (thisAttempt a st cur :: new).
Proof.
  intros Ha Hc Hf Hq
         (Et & En & Hb & Hk & Hrec & Hbody & Hh & earlier & lastAttempt & El & Hq' & Hend).
  assert (Hx : answeredQuota fetch opts (thisAttempt a st cur)).
  { exists code, payload. rewrite (current_optionsOf env opts a st cur Hc).
    cbn [thisAttempt attemptNo]. split; assumption. }
  unfold continues.
  split; [rewrite Et, <- app_assoc; reflexivity|].
  split.
  { cbn [map List.length seq attemptNo thisAttempt]. f_equal; [lia|].
    rewrite En, <- seq_shift, map_map. apply map_ext. intros i. lia. }
  split; [cbn [List.length]; lia|].
  split; [constructor; [eapply current_keyed; exact Hc|exact Hk]|].
  split; [constructor; [eapply current_recorded; exact Hc|exact Hrec]|].
  split; [exact Hbody|]. split; [exact Hh|].
  exists (thisAttempt a st cur :: earlier), lastAttempt.
  split; [rewrite El; reflexivity|].
  split; [constructor; assumption|exact Hend].
Qed.

(** The loop from attempt [a] on, whatever the other requests call
    while it waits. *)
Lemma fetchLoop_continues others fetch refresher env opts fuel :
  forall a st cur out tr,
    reachable env st ->
    1 <= a <= maxAttempts ->
    maxAttempts - a < Z.of_nat fuel ->
    current env opts a cur ->
    exists new,
      continues env fetch opts a tr
        (fetchLoop others fetch refresher fuel a st cur out tr) new.
Proof.
  induction fuel as [|fuel IH]; intros a st cur out tr Hr Ha Hfuel Hc;
    [unfold maxAttempts in *; lia|].
  cbn [fetchLoop].
  replace (negb (a <=? maxAttempts)) with false
    by (symmetry; apply negb_false_iff; apply Z.leb_le; lia).
  rewrite (getCurrentKeyInfo_ret st (reachable_wf env st Hr)).
  set (out1 := (out ++ match (if factoryMode st
                              then Some {| index := currentKeyIndex st + 1;
                                           total := poolSize st |}
                              else None) with
                       | Some k => [LogAttempt a (index k) (total k)]
                       | None => []
                       end)).
  clearbody out1.
  change {| attemptNo := a; keyIndex := currentKeyIndex st;
            sentAuthorization := get_header "authorization" (headers cur) |}
    with (thisAttempt a st cur).
  pose proof (calls_reachable env (others a AwaitFetch) st Hr) as Hr1.
  set (st1 := calls (others a AwaitFetch) st) in *.
  destruct (fetch a cur) as [code payload|e] eqn:Hf.
  2:{ eexists. apply ends_here; try eassumption; try reflexivity.
      cbn [caught outcome]. rewrite Hf. reflexivity. }
  cbn [fresh status]. destruct (isQuotaOrAuthError code) eqn:Hq.
  2:{ rewrite (getCurrentKeyInfo_ret st1 (reachable_wf env st1 Hr1)).
      destruct (didRotationOccur st1);
        eexists; apply ends_here; try eassumption; try reflexivity;
        cbn [outcome]; rewrite Hf; reflexivity. }
  cbn [bind clone text bodyUsed responseBody fresh status].
  pose proof (calls_reachable env (others a AwaitText) st1 Hr1) as Hr2.
  set (st2 := calls (others a AwaitText) st1) in *.
  destruct (hasMoreFactoryKeys st2).
  2:{ eexists; apply ends_here; try eassumption; try reflexivity.
      cbn [outcome]. rewrite Hf. reflexivity. }
  destruct (rotateFactoryApiKey st2) as [[r st'] o] eqn:Erot.
  destruct r as [[|]|e].
  - destruct (rotated_key env refresher st2 st' o Hr2 Erot) as (key & Hin & Hget).
    rewrite Hget.
    assert (Hr5 : reachable env (calls (others a AwaitGetApiKey) st')).
    { apply calls_reachable.
      pose proof (reach_rotate env st2 Hr2) as H. rewrite Erot in H. exact H. }
    set (st5 := calls (others a AwaitGetApiKey) st') in *.
    pose proof (current_next env opts a cur key ltac:(lia) Hc Hin) as Hc'.
    destruct (Z.eq_dec a maxAttempts) as [Elast|Hmore].
    + rewrite fetchLoop_over by lia.
      exists [thisAttempt a st cur]. unfold continues.
      cbn [afterLoop attempts finalOptions outcome].
      destruct (current_kept env opts (a + 1) _ Hc') as (Hb & Hh).
      split; [reflexivity|].
      split; [cbn; f_equal; lia|].
      split; [cbn [List.length Z.of_nat]; lia|].
      split; [constructor; [eapply current_keyed; exact Hc|constructor]|].
      split; [constructor; [eapply current_recorded; exact Hc|constructor]|].
      split; [exact Hb|]. split; [exact Hh|].
      exists [], (thisAttempt a st cur). split; [reflexivity|]. split; [constructor|].
      right. split; [reflexivity|]. split; [exact Elast|].
      exists code, payload. rewrite (current_optionsOf env opts a st cur Hc).
      cbn [thisAttempt attemptNo]. split; assumption.
    + destruct (IH (a + 1) st5 (set_authorization ("Bearer " ++ key)%string cur)
                  ((out1 ++ [LogKeyFailure code payload a]) ++ o ++ [LogRetry])
                  (tr ++ [thisAttempt a st cur]) Hr5 ltac:(lia) ltac:(lia) Hc')
        as (new & Hnew).
      exists (thisAttempt a st cur :: new).
      eapply goes_on; eassumption.
  - eexists; apply ends_here; try eassumption; try reflexivity.
    cbn [outcome]. rewrite Hf. reflexivity.
  - exfalso. exact (rotate_no_throw env st2 e st' o Hr2 Erot).
Qed.

Lemma fetchWithFallback_continues others fetch refresher env st opts :
  reachable env st ->
  exists new,
    continues env fetch opts 1 [] (fetchWithFallback others fetch refresher st opts) new.
Proof.
  intros Hr. unfold fetchWithFallback.
  apply fetchLoop_continues with (env := env).
  - apply reach_cycle, Hr.
  - unfold maxAttempts. lia.
  - unfold maxAttempts. cbn. lia.
  - left. split; reflexivity.
Qed.

(** X6. Whatever the other requests of the process call while it waits,
    a dispatch makes at least one and at most ten upstream calls, numbered
    1, 2, ...; the first goes out with the caller's Authorization header,
    every later one with the header of a key of the configuration. *)
Theorem dispatch_calls_are_bounded_and_keyed :
  forall (others : Z -> AwaitPoint -> list PoolCall)
         (fetch : Z -> FetchOptions -> FetchOutcome) (refresher : Refresher)
         (env : Env) (st : State) (opts : FetchOptions),
    reachable env st ->
    let run := fetchWithFallback others fetch refresher st opts in
    (1 <= List.length (attempts run) <= 10)%nat
    /\ map attemptNo (attempts run)
       = map Z.of_nat (seq 1 (List.length (attempts run)))
    /\ exists firstAttempt later,
         attempts run = firstAttempt :: later
         /\ sentAuthorization firstAttempt = get_header "authorization" (headers opts)
         /\ Forall (fun x => exists key,
                      In key (configuredKeys env)
                      /\ sentAuthorization x = Some ("Bearer " ++ key)%string) later.
Proof.
  intros others fetch rf env st opts Hr run.
  destruct (fetchWithFallback_continues others fetch rf env st opts Hr)
    as (new & Et & En & Hb & Hk & Hrec & _ & _ & earlier & lastAttempt & El & _ & Hend).
  fold run in Et, Hend. cbn [app] in Et. rewrite Et.
  assert (Hlen : (1 <= List.length new)%nat)
    by (rewrite El, length_app; cbn [List.length]; lia).
  split; [unfold maxAttempts in Hb; lia|].
  assert (Enum : map attemptNo new = map Z.of_nat (seq 1 (List.length new))).
  { rewrite En, <- seq_shift, map_map. apply map_ext. intros i. lia. }
  split; [exact Enum|].
  destruct new as [|firstAttempt later]; [cbn in Hlen; lia|].
  exists firstAttempt, later. split; [reflexivity|].
  cbn [List.length seq map] in Enum. inversion Enum as [[E1 Erest]].
  inversion Hk as [|x l Hfirst Hlater]; subst x l.
  split.
  - inversion Hrec as [|x l Hfst _]; subst x l.
    unfold recorded, optionsOf in Hfst. rewrite E1 in Hfst. exact Hfst.
  - rewrite Forall_forall in Hlater |- *. intros x Hin.
    apply (Hlater x Hin).
    assert (Hx : In (attemptNo x) (map Z.of_nat (seq 2 (List.length later))))
      by (rewrite <- Erest; apply in_map; exact Hin).
    apply in_map_iff in Hx. destruct Hx as (i & Ei & Hi). apply in_seq in Hi. lia.
Qed.

(** X7. Whatever the other requests call meanwhile, the dispatcher goes
    on to another call only after a quota/auth status: every call but the
    last was answered with 401, 402, 403 or 429.  The dispatch ends with
    the result of its last call, made with the options it leaves behind:
    the response with its body unread, or the transport error.  The one
    exception is a tenth call answered with such a status while the pool
    still rotates: then the loop ends and the error of the last line of
    the function is thrown.  So a dispatch throws nothing but a failure of
    [fetch] or that error. *)
Theorem dispatch_ends_with_its_last_call :
  forall (others : Z -> AwaitPoint -> list PoolCall)
         (fetch : Z -> FetchOptions -> FetchOutcome) (refresher : Refresher)
         (env : Env) (st : State) (opts : FetchOptions),
    reachable env st ->
    let run := fetchWithFallback others fetch refresher st opts in
    (exists earlier lastAttempt,
       attempts run = earlier ++ [lastAttempt]
       /\ Forall (answeredQuota fetch opts) earlier
       /\ ((finalOptions run = optionsOf opts lastAttempt
            /\ outcome run
               = resultOf (fetch (attemptNo lastAttempt) (finalOptions run)))
           \/ (outcome run = Throw afterAllAttempts
               /\ List.length (attempts run) = 10%nat
               /\ answeredQuota fetch opts lastAttempt)))
    /\ forall e, outcome run = Throw e ->
         e = afterAllAttempts \/ exists a o, fetch a o = Failed e.
Proof.
  intros others fetch rf env st opts Hr run.
  destruct (fetchWithFallback_continues others fetch rf env st opts Hr)
    as (new & Et & En & Hb & _ & _ & _ & _ & earlier & lastAttempt & El & Hq & Hend).
  fold run in Et, Hend. cbn [app] in Et.
  assert (Hshape :
    (finalOptions run = optionsOf opts lastAttempt
     /\ outcome run = resultOf (fetch (attemptNo lastAttempt) (finalOptions run)))
    \/ (outcome run = Throw afterAllAttempts
        /\ List.length (attempts run) = 10%nat
        /\ answeredQuota fetch opts lastAttempt)).
  { destruct Hend as [(Eo & Er)|(Er & Ea & Hl)].
    - left. split; [exact Eo|]. rewrite Eo. exact Er.
    - right. split; [exact Er|]. split; [|exact Hl].
      rewrite Et. rewrite El in En |- *.
      rewrite length_app in En |- *. cbn [List.length] in En |- *.
      rewrite map_app in En. cbn [map] in En.
      replace (List.length earlier + 1)%nat with (S (List.length earlier)) in En by lia.
      rewrite seq_S, map_app in En. cbn [map Nat.add] in En.
      apply app_inj_tail in En. destruct En as (_ & En).
      rewrite Ea in En. unfold maxAttempts in En. lia. }
  split.
  - exists earlier, lastAttempt.
    split; [rewrite Et; exact El|]. split; [exact Hq|exact Hshape].
  - intros e He. destruct Hshape as [(_ & Er)|(Er & _)].
    + right. rewrite He in Er.
      destruct (fetch (attemptNo lastAttempt) (finalOptions run)) as [c p|e'] eqn:Hf;
        cbn [resultOf] in Er; [discriminate|].
      inversion Er; subst e'. eauto.
    + left. rewrite He in Er. inversion Er. reflexivity.
Qed.

(** X8. Whatever the other requests call meanwhile, a dispatch changes
    nothing of the request but the Authorization header, and nothing of
    the pool but the rotation state: the body and every other header of
    the options it leaves behind are the caller's, and the keys and the
    mode of the pool are as they were. *)
Theorem dispatch_keeps_request_and_pool :
  forall (others : Z -> AwaitPoint -> list PoolCall)
         (fetch : Z -> FetchOptions -> FetchOutcome) (refresher : Refresher)
         (env : Env) (st : State) (opts : FetchOptions),
    reachable env st ->
    let run := fetchWithFallback others fetch refresher st opts in
    body (finalOptions run) = body opts
    /\ (forall name, String.eqb "authorization" name = false ->
          get_header name (headers (finalOptions run)) = get_header name (headers opts))
    /\ factoryApiKeys (finalAuth run) = factoryApiKeys st
    /\ authSource (finalAuth run) = authSource st.
Proof.
  intros others fetch rf env st opts Hr run.
  destruct (fetchWithFallback_continues others fetch rf env st opts Hr)
    as (new & _ & _ & _ & _ & _ & Hbody & Hh & _).
  fold run in Hbody, Hh.
  split; [exact Hbody|]. split; [exact Hh|].
  pose proof (fetchWithFallback_reachable others fetch rf env st opts Hr) as Hr'.
  fold run in Hr'.
  destruct (reachable_fixed env st Hr) as (Hs & Hk).
  destruct (reachable_fixed env (finalAuth run) Hr') as (Hs' & Hk').
  split; congruence.
Qed.

End DispatchAmongOthers.

(* ================================================================== *)
(** * The dispatcher on its own *)
(* ================================================================== *)

Module DispatchRuns.
Import Auth AuthFacts Dispatch DispatchFacts DispatchAmongOthers.

(** The pool after [j] rotations of the cycle that a dispatch starts. *)
Definition poolAfter (st : State) (j : nat) : State :=
  withIndex ((currentKeyIndex st + Z.of_nat j) mod poolSize st)
            (startNewRotationCycle st).

(** The options of the call made after [j] rotations: the caller's for
    the first call, then the Authorization header of the rotated key. *)
Definition optionsAfter (st : State) (opts : FetchOptions) (j : nat) : FetchOptions :=
  match j with
  | O => opts
  | S _ =>
      set_authorization
        ("Bearer " ++
         match nthZ (factoryApiKeys st)
                 ((currentKeyIndex st + Z.of_nat j) mod poolSize st) with
         | Some key => key
         | None => EmptyString
         end)%string opts
  end.

Definition quotaAnswer (o : FetchOutcome) : bool :=
  match o with
  | Responded statusCode _ => isQuotaOrAuthError statusCode
  | Failed _ => false
  end.

(** A dispatch that made its last call after [n] rotations. *)
Definition endsAfter (fetch : Z -> FetchOptions -> FetchOutcome)
    (st : State) (opts : FetchOptions) (run : Run) (n : nat) : Prop :=
  attempts run = map (cycleAttempt st opts) (seq 0 (S n))
  /\ finalOptions run = optionsAfter st opts n
  /\ outcome run = resultOf (fetch (1 + Z.of_nat n) (optionsAfter st opts n))
  /\ currentKeyIndex (finalAuth run) = (currentKeyIndex st + Z.of_nat n) mod poolSize st
  /\ startingKeyIndex (finalAuth run) = currentKeyIndex st
  /\ factoryApiKeys (finalAuth run) = factoryApiKeys st
  /\ authSource (finalAuth run) = authSource st
  /\ (forall i, (i < n)%nat ->
        quotaAnswer (fetch (1 + Z.of_nat i) (optionsAfter st opts i)) = true)
  /\ (quotaAnswer (fetch (1 + Z.of_nat n) (optionsAfter st opts n)) = true ->
      Z.of_nat (S n) = Z.max 1 (poolSize st)).

Lemma getCurrentKeyInfo_wf st : wf st -> exists keyInfo, getCurrentKeyInfo st = Ret keyInfo.
Proof.
  intros Hwf. destruct (factoryMode st) eqn:F.
  - apply factoryMode_true in F. rewrite (getCurrentKeyInfo_factory st Hwf F). eauto.
  - unfold getCurrentKeyInfo. rewrite F. cbn [andb]. eauto.
Qed.

Lemma hasMoreFactoryKeys_small st :
  wf st -> poolSize st <= 1 -> hasMoreFactoryKeys st = false.
Proof.
  intros _ H. unfold hasMoreFactoryKeys.
  replace (poolSize st <=? 1) with true by (symmetry; apply Z.leb_le; exact H).
  rewrite orb_true_r. reflexivity.
Qed.

Lemma quiet_alone : quiet alone.
Proof. intros attempt point. reflexivity. Qed.

Section AnyUpstream.
Variable fetch : Z -> FetchOptions -> FetchOutcome.
Variable refresher : Refresher.

Let loop := fetchLoop alone fetch refresher.

(** A transport failure ends the dispatch. *)
Lemma step_failed fuel a st opts out tr e :
  wf st -> a <= maxAttempts ->
  fetch a opts = Failed e ->
  exists out',
    loop (S fuel) a st opts out tr =
    {| outcome := Throw e; finalAuth := st; finalOptions := opts;
       output := out'; attempts := tr ++ [thisAttempt a st opts] |}.
Proof.
  intros Hwf Ha Hf. destruct (getCurrentKeyInfo_wf st Hwf) as (keyInfo & Hk).
  unfold loop. cbn [fetchLoop calls alone fold_left].
  replace (negb (a <=? maxAttempts)) with false
    by (symmetry; apply negb_false_iff; apply Z.leb_le; lia).
  rewrite Hk, Hf. unfold caught. eexists. reflexivity.
Qed.

(** With one key or none to rotate to, whatever the upstream answers
    ends the dispatch. *)
Lemma step_small fuel a st opts out tr code payload :
  wf st -> poolSize st <= 1 -> a <= maxAttempts ->
  fetch a opts = Responded code payload ->
  exists out',
    loop (S fuel) a st opts out tr =
    {| outcome := Ret (fresh code payload); finalAuth := st; finalOptions := opts;
       output := out'; attempts := tr ++ [thisAttempt a st opts] |}.
Proof.
  intros Hwf HN Ha Hf. destruct (getCurrentKeyInfo_wf st Hwf) as (keyInfo & Hk).
  unfold loop. cbn [fetchLoop calls alone fold_left].
  replace (negb (a <=? maxAttempts)) with false
    by (symmetry; apply negb_false_iff; apply Z.leb_le; lia).
  rewrite Hk, Hf. cbn [fresh status].
  destruct (isQuotaOrAuthError code).
  - cbn [bind clone text bodyUsed responseBody fresh status].
    rewrite (hasMoreFactoryKeys_small st Hwf HN). eexists. reflexivity.
  - destruct (didRotationOccur st); eexists; reflexivity.
Qed.

Variable st : State.
Variable opts : FetchOptions.

Let N := poolSize st.
Let idx := currentKeyIndex st.

Lemma poolAfter_index j :
  0 < N ->
  (currentKeyIndex (poolAfter st j) + 1) mod poolSize (poolAfter st j)
  = (idx + Z.of_nat (S j)) mod N.
Proof.
  intros HN. unfold poolAfter, withIndex, startNewRotationCycle, poolSize. cbn.
  fold (poolSize st). fold N. fold idx.
  rewrite Zplus_mod_idemp_l. f_equal. lia.
Qed.

Lemma endsAfter_small run :
  wf st -> N <= 1 ->
  attempts run = [thisAttempt 1 (startNewRotationCycle st) opts] ->
  finalOptions run = opts ->
  outcome run = resultOf (fetch 1 opts) ->
  finalAuth run = startNewRotationCycle st ->
  endsAfter fetch st opts run 0.
Proof.
  intros (H7 & Hpos & Hidx) HN Ha Ho Hr Hs.
  assert (Ei : (idx + 0) mod N = idx).
  { rewrite Z.add_0_r. destruct (Z.eq_dec N 0) as [E0|E0].
    - rewrite E0. apply Z.mod_0_r.
    - assert (E1 : N = 1) by (unfold N, poolSize in *; lia).
      assert (0 <= idx < N) as Hi by (apply Hidx, Hpos; fold N; lia).
      rewrite E1 in *. replace idx with 0 by lia. reflexivity. }
  unfold endsAfter. rewrite Ha, Ho, Hr, Hs. cbn [seq map optionsAfter Z.of_nat].
  fold N. fold idx.
  split.
  { unfold thisAttempt, cycleAttempt. cbn. fold N. fold idx. rewrite Ei. reflexivity. }
  split; [reflexivity|]. split; [reflexivity|].
  split; [cbn; fold idx; rewrite Ei; reflexivity|].
  split; [reflexivity|]. split; [reflexivity|]. split; [reflexivity|].
  split; [intros i Hi; lia|].
  intros _. unfold N, poolSize in *. lia.
Qed.

Hypothesis Hwf : wf st.
Hypothesis Hsrc : authSource st = SrcFactoryKey.
Hypothesis HN : 2 <= N.

Lemma endsAfter_here j (completedToo : bool) out' :
  Z.of_nat j < N ->
  (forall i, (i < j)%nat ->
     quotaAnswer (fetch (1 + Z.of_nat i) (optionsAfter st opts i)) = true) ->
  (quotaAnswer (fetch (1 + Z.of_nat j) (optionsAfter st opts j)) = true ->
   Z.of_nat (S j) = N) ->
  endsAfter fetch st opts
    {| outcome := resultOf (fetch (1 + Z.of_nat j) (optionsAfter st opts j));
       finalAuth := if completedToo then completed (poolAfter st j) else poolAfter st j;
       finalOptions := optionsAfter st opts j;
       output := out';
       attempts :=
         map (cycleAttempt st opts) (seq 0 j)
         ++ [thisAttempt (1 + Z.of_nat j) (poolAfter st j) (optionsAfter st opts j)] |}
    j.
Proof.
  intros Hj Hq Hlast. unfold endsAfter. cbn [attempts finalOptions outcome finalAuth].
  split.
  { rewrite seq_S, map_app. cbn [map Nat.add]. f_equal. f_equal.
    apply (thisAttempt_stAfter st opts HN j). }
  split; [reflexivity|]. split; [reflexivity|].
  split; [destruct completedToo; reflexivity|].
  split; [destruct completedToo; reflexivity|].
  split; [destruct completedToo; reflexivity|].
  split; [destruct completedToo; reflexivity|].
  split; [exact Hq|].
  intros H. rewrite (Hlast H). fold N. lia.
Qed.

(** The call after [j] rotations ends the dispatch unless it is
    answered by a quota/auth status while keys are left. *)
Lemma last_attempt j fuel out :
  Z.of_nat j < N ->
  (forall i, (i < j)%nat ->
     quotaAnswer (fetch (1 + Z.of_nat i) (optionsAfter st opts i)) = true) ->
  (quotaAnswer (fetch (1 + Z.of_nat j) (optionsAfter st opts j)) = true ->
   Z.of_nat (S j) = N) ->
  endsAfter fetch st opts
    (loop (S fuel) (1 + Z.of_nat j) (poolAfter st j) (optionsAfter st opts j) out
       (map (cycleAttempt st opts) (seq 0 j)))
    j.
Proof.
  intros Hj Hq Hlast.
  assert (H7 : N <= 7) by (destruct Hwf as (A & _); exact A).
  assert (Hi : 0 <= idx < N) by (destruct Hwf as (_ & _ & C); apply C; exact Hsrc).
  assert (Hwfj : wf (poolAfter st j)) by (apply wf_stAfter; assumption).
  assert (Ha : 1 + Z.of_nat j <= maxAttempts) by (unfold maxAttempts; lia).
  destruct (fetch (1 + Z.of_nat j) (optionsAfter st opts j)) as [code payload|e] eqn:Hf.
  - destruct (isQuotaOrAuthError code) eqn:Hc.
    + assert (HjN : Z.of_nat (S j) = N) by (apply Hlast; exact Hc).
      pose proof (endsAfter_here j true
                    (out ++ [LogAttempt (1 + Z.of_nat j)
                               (currentKeyIndex (poolAfter st j) + 1)
                               (poolSize (poolAfter st j));
                             LogKeyFailure code payload (1 + Z.of_nat j);
                             LogFullCycle; LogExhausted]) Hj Hq) as R.
      rewrite Hf in R. cbn [resultOf quotaAnswer] in R.
      unfold loop.
      rewrite (step_exhausted alone fetch refresher quiet_alone fuel (1 + Z.of_nat j)
                 (poolAfter st j) (optionsAfter st opts j) out
                 (map (cycleAttempt st opts) (seq 0 j)) code payload);
        try assumption.
      * apply R. intros _. exact HjN.
      * reflexivity.
      * rewrite poolAfter_index by lia.
        change (startingKeyIndex (poolAfter st j)) with idx.
        replace (idx + Z.of_nat (S j)) with (idx + 1 * N) by lia.
        rewrite Z.mod_add by lia. apply Z.mod_small. exact Hi.
    + pose proof (endsAfter_here j false
                    (out ++ [LogAttempt (1 + Z.of_nat j)
                               (currentKeyIndex (poolAfter st j) + 1)
                               (poolSize (poolAfter st j))]
                         ++ (if didRotationOccur (poolAfter st j)
                             then [LogFallbackSuccess
                                     (currentKeyIndex (poolAfter st j) + 1)
                                     (poolSize (poolAfter st j)) code]
                             else [])) Hj Hq) as R.
      rewrite Hf in R. cbn [resultOf quotaAnswer] in R.
      unfold loop.
      rewrite (step_done alone fetch refresher quiet_alone fuel (1 + Z.of_nat j)
                 (poolAfter st j) (optionsAfter st opts j) out
                 (map (cycleAttempt st opts) (seq 0 j)) code payload);
        try assumption.
      apply R. rewrite Hc. discriminate.
  - destruct (step_failed fuel (1 + Z.of_nat j) (poolAfter st j)
                (optionsAfter st opts j) out
                (map (cycleAttempt st opts) (seq 0 j)) e Hwfj Ha Hf) as (out' & E).
    pose proof (endsAfter_here j false out' Hj Hq) as R.
    rewrite Hf in R. cbn [resultOf quotaAnswer] in R.
    rewrite E. apply R. discriminate.
Qed.

(** From the call after [j] rotations on, with [S d] keys of the
    cycle not yet tried: the dispatch ends after some [n >= j]
    rotations, whatever the upstream does. *)
Lemma from_attempt d : forall j fuel out,
  Z.of_nat j + Z.of_nat (S d) = N ->
  (d <= fuel)%nat ->
  (forall i, (i < j)%nat ->
     quotaAnswer (fetch (1 + Z.of_nat i) (optionsAfter st opts i)) = true) ->
  exists n, (j <= n)%nat /\ Z.of_nat n < N
    /\ endsAfter fetch st opts
         (loop (S fuel) (1 + Z.of_nat j) (poolAfter st j) (optionsAfter st opts j) out
            (map (cycleAttempt st opts) (seq 0 j)))
         n.
Proof.
  assert (H7 : N <= 7) by (destruct Hwf as (A & _); exact A).
  assert (Hi : 0 <= idx < N) by (destruct Hwf as (_ & _ & C); apply C; exact Hsrc).
  induction d as [|d IH]; intros j fuel out Hj Hfuel Hq.
  - (* the last key of the cycle *)
    exists j. split; [lia|]. split; [lia|].
    apply last_attempt; [lia|exact Hq|]. intros _. lia.
  - (* keys are left *)
    destruct (quotaAnswer (fetch (1 + Z.of_nat j) (optionsAfter st opts j))) eqn:Hqa.
    2:{ exists j. split; [lia|]. split; [lia|].
        apply last_attempt; [lia|exact Hq|]. rewrite Hqa. discriminate. }
    destruct (fetch (1 + Z.of_nat j) (optionsAfter st opts j)) as [code payload|e] eqn:Hf;
      [|discriminate].
    cbn [quotaAnswer] in Hqa.
    assert (Hwfj : wf (poolAfter st j)) by (apply wf_stAfter; assumption).
    assert (Hnext : (currentKeyIndex (poolAfter st j) + 1) mod poolSize (poolAfter st j)
                    <> startingKeyIndex (poolAfter st j)).
    { rewrite poolAfter_index by lia.
      change (startingKeyIndex (poolAfter st j)) with idx.
      apply mod_shift_neq; lia. }
    destruct fuel as [|fuel]; [lia|].
    destruct (step_rotate alone fetch refresher quiet_alone (S fuel) (1 + Z.of_nat j)
                (poolAfter st j) (optionsAfter st opts j) out
                (map (cycleAttempt st opts) (seq 0 j)) code payload)
      as (key & Hkey & Estep);
      try reflexivity; try assumption; try (unfold maxAttempts; lia).
    rewrite poolAfter_index in Estep, Hkey by lia.
    destruct (IH (S j) fuel
                (out ++ [LogAttempt (1 + Z.of_nat j)
                           (currentKeyIndex (poolAfter st j) + 1)
                           (poolSize (poolAfter st j));
                         LogKeyFailure code payload (1 + Z.of_nat j);
                         LogRotation (currentKeyIndex (poolAfter st j) + 1)
                           ((idx + Z.of_nat (S j)) mod N + 1);
                         LogRetry]))
      as (n & Hn & HnN & Hends).
    { lia. }
    { lia. }
    { intros i Hlt. destruct (Nat.eq_dec i j) as [->|Hne].
      - rewrite Hf. cbn [quotaAnswer]. exact Hqa.
      - apply Hq. lia. }
    exists n. split; [lia|]. split; [exact HnN|].
    unfold loop in *. rewrite Estep.
    replace (1 + Z.of_nat j + 1) with (1 + Z.of_nat (S j)) by lia.
    pose proof (thisAttempt_stAfter st opts HN j) as Et.
    change (thisAttempt (1 + Z.of_nat j) (poolAfter st j) (optionsAfter st opts j)
            = cycleAttempt st opts j) in Et.
    rewrite Et.
    assert (Eo : set_authorization ("Bearer " ++ key)%string (optionsAfter st opts j)
                 = optionsAfter st opts (S j)).
    { unfold optionsAfter at 2. fold N. fold idx.
      replace (factoryApiKeys st) with (factoryApiKeys (poolAfter st j)) by reflexivity.
      rewrite Hkey.
      destruct j as [|j']; [reflexivity|].
      unfold optionsAfter. rewrite set_set_authorization. reflexivity. }
    rewrite Eo.
    replace (map (cycleAttempt st opts) (seq 0 j) ++ [cycleAttempt st opts j])
      with (map (cycleAttempt st opts) (seq 0 (S j)))
      by (rewrite seq_S, map_app; reflexivity).
    exact Hends.
Qed.

End AnyUpstream.

(** Every dispatch from a state the process can reach has this shape:
    the calls of one cycle, in order, up to the first call that is not
    answered by a quota/auth status or up to the last key. *)
Lemma run_shape fetch refresher env st opts :
  reachable env st ->
  exists n, Z.of_nat (S n) <= Z.max 1 (poolSize st)
    /\ endsAfter fetch st opts
         (fetchWithFallback alone fetch refresher st opts) n.
Proof.
  intros Hr. pose proof (reachable_wf env st Hr) as Hwf.
  destruct (Z_le_gt_dec (poolSize st) 1) as [Hs|Hb].
  - exists 0%nat. split; [lia|].
    assert (Hwf0 : wf (startNewRotationCycle st)) by (apply wf_cycle; exact Hwf).
    unfold fetchWithFallback. change (Z.to_nat maxAttempts) with 10%nat.
    destruct (fetch 1 opts) as [code payload|e] eqn:Hf.
    + destruct (step_small fetch refresher 9 1 (startNewRotationCycle st)
                  opts [] [] code payload Hwf0 Hs ltac:(unfold maxAttempts; lia) Hf)
        as (out' & E).
      rewrite E. apply endsAfter_small; try assumption; try reflexivity.
      cbn [outcome]. rewrite Hf. reflexivity.
    + destruct (step_failed fetch refresher 9 1 (startNewRotationCycle st)
                  opts [] [] e Hwf0 ltac:(unfold maxAttempts; lia) Hf)
        as (out' & E).
      rewrite E. apply endsAfter_small; try assumption; try reflexivity.
      cbn [outcome]. rewrite Hf. reflexivity.
  - destruct (reachable_factory env st Hr ltac:(lia)) as (_ & Hsrc).
    assert (H7 : poolSize st <= 7) by (destruct Hwf as (A & _); exact A).
    destruct (from_attempt fetch refresher st opts Hwf Hsrc ltac:(lia)
                (Z.to_nat (poolSize st - 1)) 0%nat 9%nat [])
      as (n & Hn & HnN & Hends).
    { lia. }
    { lia. }
    { intros i Hi. lia. }
    exists n. split; [lia|].
    unfold fetchWithFallback. change (Z.to_nat maxAttempts) with 10%nat.
    cbn [Z.of_nat seq map optionsAfter] in Hends.
    replace (poolAfter st 0) with (startNewRotationCycle st) in Hends; [exact Hends|].
    unfold poolAfter, withIndex, startNewRotationCycle. cbn.
    rewrite Z.add_0_r, Z.mod_small; [reflexivity|].
    destruct Hwf as (_ & _ & C). apply C. exact Hsrc.
Qed.


(** X9. When no other request calls into the pool while a dispatch
    waits, then whatever the upstream does the dispatch makes at least one
    call and at most one call per key of the pool (one call when there is
    no pool); the calls go to consecutive positions of the pool, starting
    at the key that was active, so no key is tried twice; and the dispatch
    ends with the result of its last call, never with the error of the
    last line of the function. *)
Theorem dispatch_tries_no_key_twice :
  forall (fetch : Z -> FetchOptions -> FetchOutcome) (refresher : Refresher)
         (env : Env) (st : State) (opts : FetchOptions),
    reachable env st ->
    let run := fetchWithFallback alone fetch refresher st opts in
    (1 <= List.length (attempts run))%nat
    /\ Z.of_nat (List.length (attempts run)) <= Z.max 1 (poolSize st)
    /\ attempts run
       = map (cycleAttempt st opts) (seq 0 (List.length (attempts run)))
    /\ NoDup (map keyIndex (attempts run))
    /\ outcome run
       = resultOf (fetch (Z.of_nat (List.length (attempts run))) (finalOptions run)).
Proof.
  intros fetch rf env st opts Hr run.
  destruct (run_shape fetch rf env st opts Hr) as (n & Hn & Ha & Ho & Hres & _).
  fold run in Ha, Ho, Hres.
  assert (Hlen : List.length (attempts run) = S n)
    by (rewrite Ha, length_map, length_seq; reflexivity).
  rewrite Hlen. split; [lia|]. split; [exact Hn|]. split; [exact Ha|].
  split.
  - rewrite Ha. destruct (Z_le_gt_dec (poolSize st) 0) as [H0|Hpos].
    + assert (n = 0%nat) by lia. subst n. cbn. constructor; [intros []|constructor].
    + apply cycle_indices_NoDup; lia.
  - rewrite Ho, Hres. f_equal. f_equal. lia.
Qed.

(** X10. When no other request calls into the pool while a dispatch
    waits, a quota/auth status reaches the caller only when every key of
    the pool has been tried: if the dispatch returns a response whose
    status is 401, 402, 403 or 429, it made as many calls as the pool has
    keys (one call without a pool), and the body of the response is
    unread. *)
Theorem quota_failure_returned_only_after_full_cycle :
  forall (fetch : Z -> FetchOptions -> FetchOutcome) (refresher : Refresher)
         (env : Env) (st : State) (opts : FetchOptions) (response : Response),
    reachable env st ->
    let run := fetchWithFallback alone fetch refresher st opts in
    outcome run = Ret response ->
    isQuotaOrAuthError (status response) = true ->
    Z.of_nat (List.length (attempts run)) = Z.max 1 (poolSize st)
    /\ bodyUsed response = false.
Proof.
  intros fetch rf env st opts response Hr run Hout Hq.
  destruct (run_shape fetch rf env st opts Hr)
    as (n & Hn & Ha & _ & Hres & _ & _ & _ & _ & _ & Hlast).
  fold run in Ha, Hres.
  assert (Hlen : List.length (attempts run) = S n)
    by (rewrite Ha, length_map, length_seq; reflexivity).
  rewrite Hlen. rewrite Hout in Hres.
  destruct (fetch (1 + Z.of_nat n) (optionsAfter st opts n)) as [code payload|e];
    [|discriminate].
  cbn [resultOf] in Hres. inversion Hres; subst response. cbn [fresh status] in Hq.
  split; [apply Hlast; exact Hq|reflexivity].
Qed.

(** X11. The rotation outlives the request: of two dispatches that run
    one after the other, with no other request calling into the pool, the
    second makes its first call at the position of the pool where the
    first made its last call, which is the position the pool is left
    on. *)
Theorem next_dispatch_resumes_at_last_key :
  forall (fetch fetch' : Z -> FetchOptions -> FetchOutcome)
         (refresher refresher' : Refresher)
         (env : Env) (st : State) (opts opts' : FetchOptions),
    reachable env st ->
    let run := fetchWithFallback alone fetch refresher st opts in
    let next :=
      fetchWithFallback alone fetch' refresher' (finalAuth run) opts' in
    exists earlier lastAttempt firstAttempt later,
      attempts run = earlier ++ [lastAttempt]
      /\ attempts next = firstAttempt :: later
      /\ keyIndex firstAttempt = keyIndex lastAttempt
      /\ keyIndex lastAttempt = currentKeyIndex (finalAuth run)
      /\ sentAuthorization firstAttempt = get_header "authorization" (headers opts').
Proof.
  intros fetch fetch' rf rf' env st opts opts' Hr run next.
  destruct (run_shape fetch rf env st opts Hr)
    as (n & Hn & Ha & _ & _ & Hidx & _).
  fold run in Ha, Hidx.
  assert (Hr' : reachable env (finalAuth run))
    by (apply fetchWithFallback_reachable; exact Hr).
  destruct (run_shape fetch' rf' env (finalAuth run) opts' Hr')
    as (n' & Hn' & Ha' & _).
  fold next in Ha'.
  exists (map (cycleAttempt st opts) (seq 0 n)), (cycleAttempt st opts n),
         (cycleAttempt (finalAuth run) opts' 0),
         (map (cycleAttempt (finalAuth run) opts') (seq 1 n')).
  split; [rewrite Ha, seq_S, map_app; reflexivity|].
  split; [rewrite Ha'; reflexivity|].
  assert (E : keyIndex (cycleAttempt (finalAuth run) opts' 0)
              = currentKeyIndex (finalAuth run)).
  { cbn [cycleAttempt keyIndex Z.of_nat]. rewrite Z.add_0_r.
    pose proof (reachable_wf env _ Hr') as (_ & Hpos & Hin).
    destruct (Z_le_gt_dec (poolSize (finalAuth run)) 0) as [H0|Hp].
    - assert (E0 : poolSize (finalAuth run) = 0) by (unfold poolSize in *; lia).
      rewrite E0. apply Z.mod_0_r.
    - apply Z.mod_small. apply Hin, Hpos. lia. }
  rewrite E. cbn [cycleAttempt keyIndex sentAuthorization].
  rewrite Hidx. auto.
Qed.

End DispatchRuns.

(* ================================================================== *)
(** * What the direct handlers forward, field by field *)
(* ================================================================== *)

Module ShapingFacts.
Import Json Routes RoutesFacts.

(** The fields [handleDirectResponses] may write. *)
Definition responsesFields : list string :=
  [ "model"; "instructions"; "max_output_tokens"; "reasoning" ].

(** The fields [handleDirectMessages] may write. *)
Definition messagesFields : list string := [ "model"; "system"; "thinking" ].

Definition untouched (fields : list string) (k : string) : Prop :=
  forallb (fun field => negb (String.eqb field k)) fields = true.

(** The system block that [handleDirectMessages] builds. *)
Definition systemBlock (systemPrompt : string) : JSVal :=
  JObj [ ("type", JStr "text"); ("text", JStr systemPrompt) ].

Lemma has_delete_other k k' ps :
  String.eqb k' k = false -> has_prop k (delete_prop k' ps) = has_prop k ps.
Proof.
  intros Hne. unfold has_prop. induction ps as [|[k0 v0] ps IH]; cbn; [reflexivity|].
  destruct (String.eqb k0 k') eqn:E; cbn.
  - apply String.eqb_eq in E; subst k0. rewrite Hne. exact IH.
  - rewrite IH. reflexivity.
Qed.

Lemma has_set_same k v ps : has_prop k (set_prop k v ps) = true.
Proof.
  unfold has_prop. induction ps as [|[k0 v0] ps IH]; cbn.
  - rewrite String.eqb_refl. reflexivity.
  - destruct (String.eqb k0 k) eqn:E; cbn.
    + rewrite String.eqb_refl. reflexivity.
    + rewrite E. exact IH.
Qed.

Ltac other_field :=
  repeat first
    [ rewrite lookup_set_other by assumption
    | rewrite lookup_delete_other by assumption
    | rewrite has_set_other by assumption
    | rewrite has_delete_other by assumption ].

(** X12. Both direct handlers forward every field of the client's
    request that is not theirs to set exactly as it came, present or
    absent: all but model, instructions, max_output_tokens and reasoning
    on the responses route, all but model, system and thinking on the
    messages route.  The model field is always the redirected model id,
    whatever the client sent. *)
Theorem forwarded_request_keeps_other_fields :
  forall (systemPrompt modelId : string) (reasoningLevel : option string)
         (request : list (string * JSVal)) (k : string),
    let responses :=
      handleDirectResponses_modifiedRequest systemPrompt modelId reasoningLevel request in
    let messages :=
      handleDirectMessages_modifiedRequest systemPrompt modelId reasoningLevel request in
    (untouched responsesFields k ->
     lookup k responses = lookup k request
     /\ has_prop k responses = has_prop k request)
    /\ (untouched messagesFields k ->
        lookup k messages = lookup k request
        /\ has_prop k messages = has_prop k request)
    /\ lookup "model" responses = JStr modelId
    /\ lookup "model" messages = JStr modelId.
Proof.
  intros systemPrompt modelId level request k responses messages.
  split; [|split].
  - unfold untouched, responsesFields. cbn [forallb]. intros H.
    repeat (apply andb_true_iff in H; destruct H as (?H & H)).
    repeat match goal with
           | E : negb _ = true |- _ => apply negb_true_iff in E
           end.
    unfold responses, handleDirectResponses_modifiedRequest.
    set (r0 := set_prop "model" (JStr modelId) request).
    set (r1 := if truthy_string systemPrompt then _ else r0).
    set (r2 := match lookup "max_output_tokens" r1 with JNum n => _ | _ => r1 end).
    assert (E0 : lookup k r0 = lookup k request /\ has_prop k r0 = has_prop k request)
      by (unfold r0; other_field; auto).
    assert (E1 : lookup k r1 = lookup k request /\ has_prop k r1 = has_prop k request).
    { unfold r1. destruct (truthy_string systemPrompt); [|exact E0].
      destruct (truthy (lookup "instructions" r0)); other_field; exact E0. }
    assert (E2 : lookup k r2 = lookup k request /\ has_prop k r2 = has_prop k request).
    { unfold r2. destruct (lookup "max_output_tokens" r1) as [| |b|n|s|l|p]; try exact E1.
      destruct (n <? 16); other_field; exact E1. }
    destruct level as [level|]; [|other_field; exact E2].
    destruct (String.eqb level "auto"); [exact E2|].
    destruct (truthy_string level && is_level level); other_field; exact E2.
  - unfold untouched, messagesFields. cbn [forallb]. intros H.
    repeat (apply andb_true_iff in H; destruct H as (?H & H)).
    repeat match goal with
           | E : negb _ = true |- _ => apply negb_true_iff in E
           end.
    unfold messages, handleDirectMessages_modifiedRequest.
    set (r0 := set_prop "model" (JStr modelId) request).
    set (r1 := if truthy_string systemPrompt then _ else r0).
    assert (E0 : lookup k r0 = lookup k request /\ has_prop k r0 = has_prop k request)
      by (unfold r0; other_field; auto).
    assert (E1 : lookup k r1 = lookup k request /\ has_prop k r1 = has_prop k request).
    { unfold r1. destruct (truthy_string systemPrompt); [|exact E0].
      destruct (lookup "system" r0); other_field; exact E0. }
    destruct level as [level|]; [|other_field; exact E1].
    destruct (String.eqb level "auto"); [exact E1|].
    destruct (truthy_string level && is_level level); other_field; exact E1.
  - assert (Hm : forall field, String.eqb field "model" = false ->
                 forall v ps, lookup "model" (set_prop field v ps) = lookup "model" ps)
      by (intros; apply lookup_set_other; assumption).
    assert (Hd : forall field, String.eqb field "model" = false ->
                 forall ps, lookup "model" (delete_prop field ps) = lookup "model" ps)
      by (intros; apply lookup_delete_other; assumption).
    split.
    + unfold responses, handleDirectResponses_modifiedRequest.
      set (r0 := set_prop "model" (JStr modelId) request).
      assert (E0 : lookup "model" r0 = JStr modelId) by apply lookup_set_same.
      set (r1 := if truthy_string systemPrompt then _ else r0).
      assert (E1 : lookup "model" r1 = JStr modelId).
      { unfold r1. destruct (truthy_string systemPrompt); [|exact E0].
        destruct (truthy (lookup "instructions" r0)); rewrite Hm by reflexivity; exact E0. }
      set (r2 := match lookup "max_output_tokens" r1 with JNum n => _ | _ => r1 end).
      assert (E2 : lookup "model" r2 = JStr modelId).
      { unfold r2. destruct (lookup "max_output_tokens" r1) as [| |b|n|s|l|p]; try exact E1.
        destruct (n <? 16); [rewrite Hm by reflexivity|]; exact E1. }
      destruct level as [level|]; [|rewrite Hd by reflexivity; exact E2].
      destruct (String.eqb level "auto"); [exact E2|].
      destruct (truthy_string level && is_level level);
        [rewrite Hm by reflexivity|rewrite Hd by reflexivity]; exact E2.
    + unfold messages, handleDirectMessages_modifiedRequest.
      set (r0 := set_prop "model" (JStr modelId) request).
      assert (E0 : lookup "model" r0 = JStr modelId) by apply lookup_set_same.
      set (r1 := if truthy_string systemPrompt then _ else r0).
      assert (E1 : lookup "model" r1 = JStr modelId).
      { unfold r1. destruct (truthy_string systemPrompt); [|exact E0].
        destruct (lookup "system" r0); rewrite Hm by reflexivity; exact E0. }
      destruct level as [level|]; [|rewrite Hd by reflexivity; exact E1].
      destruct (String.eqb level "auto"); [exact E1|].
      destruct (truthy_string level && is_level level);
        [rewrite Hm by reflexivity|rewrite Hd by reflexivity]; exact E1.
Qed.

Lemma append_nil_r (s : string) : (s ++ "")%string = s.
Proof. induction s as [|c s IH]; cbn; [reflexivity|]. rewrite IH. reflexivity. Qed.

(** X13. The configured system prompt goes first.  On the responses
    route it is put in front of the client's instructions text, or
    becomes the instructions when the client sent none; on the messages
    route its text block is put in front of the client's system blocks,
    and where the client sent its system prompt as one string, or none,
    the system field becomes that one block: the client's string is not
    forwarded.  With an empty system prompt both fields go out as they
    came.  The reasoning level has no part in this. *)
Theorem system_prompt_goes_first :
  forall (systemPrompt modelId : string) (reasoningLevel : option string)
         (request : list (string * JSVal)),
    let responses :=
      handleDirectResponses_modifiedRequest systemPrompt modelId reasoningLevel request in
    let messages :=
      handleDirectMessages_modifiedRequest systemPrompt modelId reasoningLevel request in
    (systemPrompt <> EmptyString ->
     (forall text, lookup "instructions" request = JStr text ->
        lookup "instructions" responses = JStr (systemPrompt ++ text))
     /\ (truthy (lookup "instructions" request) = false ->
         lookup "instructions" responses = JStr systemPrompt)
     /\ lookup "system" messages =
        match lookup "system" request with
        | JArr blocks => JArr (systemBlock systemPrompt :: blocks)
        | _ => JArr [systemBlock systemPrompt]
        end)
    /\ (systemPrompt = EmptyString ->
        lookup "instructions" responses = lookup "instructions" request
        /\ lookup "system" messages = lookup "system" request).
Proof.
  intros systemPrompt modelId level request responses messages.
  assert (Hr : lookup "instructions" responses =
               if truthy_string systemPrompt
               then if truthy (lookup "instructions" request)
                    then JStr (systemPrompt ++ toString (lookup "instructions" request))
                    else JStr systemPrompt
               else lookup "instructions" request).
  { unfold responses, handleDirectResponses_modifiedRequest.
    set (r0 := set_prop "model" (JStr modelId) request).
    assert (E0 : lookup "instructions" r0 = lookup "instructions" request)
      by (apply lookup_set_other; reflexivity).
    set (r1 := if truthy_string systemPrompt then _ else r0).
    set (v := if truthy_string systemPrompt then _ else lookup "instructions" request).
    assert (E1 : lookup "instructions" r1 = v).
    { unfold r1, v. rewrite E0. destruct (truthy_string systemPrompt); [|exact E0].
      destruct (truthy (lookup "instructions" request)); apply lookup_set_same. }
    set (r2 := match lookup "max_output_tokens" r1 with JNum n => _ | _ => r1 end).
    assert (E2 : lookup "instructions" r2 = v).
    { unfold r2. destruct (lookup "max_output_tokens" r1) as [| |b|n|s|l|p]; try exact E1.
      destruct (n <? 16); [rewrite lookup_set_other by reflexivity|]; exact E1. }
    destruct level as [level|]; [|rewrite lookup_delete_other by reflexivity; exact E2].
    destruct (String.eqb level "auto"); [exact E2|].
    destruct (truthy_string level && is_level level);
      [rewrite lookup_set_other by reflexivity
      |rewrite lookup_delete_other by reflexivity]; exact E2. }
  assert (Hm : lookup "system" messages =
               if truthy_string systemPrompt
               then match lookup "system" request with
                    | JArr blocks => JArr (systemBlock systemPrompt :: blocks)
                    | _ => JArr [systemBlock systemPrompt]
                    end
               else lookup "system" request).
  { unfold messages, handleDirectMessages_modifiedRequest.
    set (r0 := set_prop "model" (JStr modelId) request).
    assert (E0 : lookup "system" r0 = lookup "system" request)
      by (apply lookup_set_other; reflexivity).
    set (r1 := if truthy_string systemPrompt then _ else r0).
    set (v := if truthy_string systemPrompt then _ else lookup "system" request).
    assert (E1 : lookup "system" r1 = v).
    { unfold r1, v. rewrite E0. destruct (truthy_string systemPrompt); [|exact E0].
      destruct (lookup "system" request); apply lookup_set_same. }
    destruct level as [level|]; [|rewrite lookup_delete_other by reflexivity; exact E1].
    destruct (String.eqb level "auto"); [exact E1|].
    destruct (truthy_string level && is_level level);
      [rewrite lookup_set_other by reflexivity
      |rewrite lookup_delete_other by reflexivity]; exact E1. }
  split.
  - intros Hne.
    assert (Ht : truthy_string systemPrompt = true)
      by (destruct systemPrompt; [contradiction|reflexivity]).
    rewrite Ht in Hr, Hm. split; [|split; [|exact Hm]].
    + intros text Ei. rewrite Hr, Ei. cbn [truthy toString].
      destruct (truthy_string text) eqn:Et; [reflexivity|].
      destruct text; [|discriminate]. rewrite append_nil_r. reflexivity.
    + intros Hf. rewrite Hr, Hf. reflexivity.
  - intros ->. cbn [truthy_string] in Hr, Hm. split; assumption.
Qed.

End ShapingFacts.

(* ================================================================== *)
(** * The normaliser and the output list *)
(* ================================================================== *)

Module NormaliserFacts.
Import Json Routes RoutesFacts.

(** [o.type === 'message'] for an element whose type can be read. *)
Definition isMessage (o : JSVal) : bool :=
  match prop o "type" with
  | Ret ty => is_string ty "message"
  | Throw _ => false
  end.

(** An element that is neither null nor undefined. *)
Definition readable (o : JSVal) : bool :=
  match o with
  | JUndefined | JNull => false
  | _ => true
  end.

Lemma find_message_first before message after :
  forallb (fun o => readable o && negb (isMessage o)) before = true ->
  isMessage message = true ->
  find_message (before ++ message :: after) = Ret message.
Proof.
  intros Hb Hm. induction before as [|o before IH]; cbn [app find_message].
  - unfold isMessage in Hm. destruct (prop message "type") as [ty|e]; [|discriminate].
    rewrite Hm. reflexivity.
  - cbn [forallb] in Hb. apply andb_true_iff in Hb. destruct Hb as (Ho & Hb).
    apply andb_true_iff in Ho. destruct Ho as (Hr & Hn).
    unfold isMessage in Hn.
    destruct (prop o "type") as [ty|e] eqn:E.
    + apply negb_true_iff in Hn. rewrite Hn. apply IH, Hb.
    + destruct o; cbn in E, Hr; discriminate.
Qed.

(** X14. The normaliser reads the first message of the output list and
    nothing behind it: with elements in front that are no messages, the
    result is the one for an output list that holds this message alone,
    whatever follows it, be it further messages or a null, which would
    raise a TypeError if it were looked at. *)
Theorem first_message_decides :
  forall (now : Z) (props : list (string * JSVal))
         (before : list JSVal) (message : JSVal) (after : list JSVal),
    forallb (fun o => readable o && negb (isMessage o)) before = true ->
    isMessage message = true ->
    lookup "output" props = JArr (before ++ message :: after) ->
    convertResponseToChatCompletion now (JObj props)
    = convertResponseToChatCompletion now
        (JObj (set_prop "output" (JArr [message]) props)).
Proof.
  intros now props before message after Hb Hm Ho.
  unfold convertResponseToChatCompletion. cbn [optprop].
  rewrite lookup_set_same, Ho. cbn [truthy].
  rewrite (find_message_first before message after Hb Hm).
  pose proof (find_message_first [] message [] eq_refl Hm) as H1.
  cbn [app] in H1. rewrite H1.
  rewrite !lookup_set_other by reflexivity. reflexivity.
Qed.

End NormaliserFacts.

(* ================================================================== *)
(** * The ends of a stream *)
(* ================================================================== *)

Module StreamEnds.
Import Json ResponseOpenAI StreamFacts.

(** The text holds no line feed. *)
Definition unbroken (s : string) : bool :=
  forallb (fun c => negb (Ascii.eqb c newline)) (list_ascii_of_string s).

(** Every byte of the chunk is below 128. *)
Definition ascii_only (chunk : string) : bool :=
  forallb (fun c => (nat_of_ascii c <=? 127)%nat) (list_ascii_of_string chunk).

Lemma cut_unbroken s : unbroken s = true -> cut s = ([], s).
Proof.
  unfold unbroken. induction s as [|c s IH]; cbn [list_ascii_of_string forallb]; intros H.
  - reflexivity.
  - apply andb_true_iff in H. destruct H as (Hc & Hs). apply negb_true_iff in Hc.
    rewrite cut_cons, (IH Hs), Hc. reflexivity.
Qed.

Lemma unbroken_cut s : cut s = ([], s) -> unbroken s = true.
Proof.
  unfold unbroken. induction s as [|c s IH]; cbn [list_ascii_of_string forallb]; intros H.
  - reflexivity.
  - rewrite cut_cons in H. destruct (cut s) as [lines rest].
    destruct (Ascii.eqb c newline); [discriminate|].
    destruct lines as [|l ls]; [|discriminate].
    inversion H; subst rest. rewrite IH by reflexivity. reflexivity.
Qed.

Lemma unbroken_app a b :
  unbroken a = true -> unbroken b = true -> unbroken (a ++ b) = true.
Proof.
  unfold unbroken. intros Ha Hb.
  induction a as [|c a IH]; cbn [append list_ascii_of_string forallb] in *; [exact Hb|].
  apply andb_true_iff in Ha. destruct Ha as (Hc & Ha). rewrite Hc. cbn. apply IH, Ha.
Qed.

Section Ends.
Variable JSON_parse : string -> option JSVal.
Variable JSON_stringify : JSVal -> string.
Variable Date_now : Z.

Let chunk := consumeChunk JSON_parse JSON_stringify Date_now.

(** Between chunks the buffer holds no complete line. *)
Lemma buffer_unbroken cs : forall st,
  unbroken (buffer st) = true ->
  unbroken (buffer (fold_left chunk cs st)) = true.
Proof.
  induction cs as [|c cs IH]; intros st H; cbn [fold_left]; [exact H|].
  apply IH. unfold chunk, consumeChunk.
  destruct (thrown (lineState st)); [exact H|].
  pose proof (cut_rest (buffer st ++ Utf8.Buffer_toString c)%string) as Hr.
  destruct (cut (buffer st ++ Utf8.Buffer_toString c)%string) as [lines rest].
  cbn [buffer snd] in *. apply unbroken_cut. exact Hr.
Qed.

Lemma tail_dropped st tail :
  unbroken (buffer st) = true ->
  ascii_only tail = true -> unbroken tail = true ->
  lineState (chunk st tail) = lineState st.
Proof.
  intros Hb Ha Hu. unfold chunk, consumeChunk.
  destruct (thrown (lineState st)); [reflexivity|].
  rewrite (decode_ascii tail Ha).
  rewrite (cut_unbroken _ (unbroken_app _ _ Hb Hu)). reflexivity.
Qed.

End Ends.

(** X15. A last line that lacks its line feed is never processed: when
    the body ends with ASCII text that holds no line feed, the generator
    yields what it yields for the body without that text, and ends the
    same way.  An event whose data line is not terminated is lost. *)
Theorem unterminated_last_line_is_dropped :
  forall (JSON_parse : string -> option JSVal) (JSON_stringify : JSVal -> string)
         (Date_now : Z) (t : Transformer) (cs : list string) (tail : string)
         (failure : option JsError),
    ascii_only tail = true ->
    unbroken tail = true ->
    transformStream JSON_parse JSON_stringify Date_now t
      {| chunks := cs ++ [tail]; failure := failure |}
    = transformStream JSON_parse JSON_stringify Date_now t
        {| chunks := cs; failure := failure |}.
Proof.
  intros parse stringify now t cs tail failure Ha Hu.
  unfold transformStream, consumed. cbn [chunks ResponseOpenAI.failure].
  rewrite fold_left_app. cbn [fold_left].
  rewrite tail_dropped; [reflexivity| |exact Ha|exact Hu].
  apply buffer_unbroken. reflexivity.
Qed.

(** X16. For a body of ASCII characters the output does not depend on
    how the body is cut into chunks: two deliveries of the same bytes
    give the same yields and the same ending. *)
Theorem ascii_body_output_is_independent_of_chunking :
  forall (JSON_parse : string -> option JSVal) (JSON_stringify : JSVal -> string)
         (Date_now : Z) (t : Transformer) (cs cs' : list string)
         (failure : option JsError),
    forallb ascii_only cs = true ->
    forallb ascii_only cs' = true ->
    concat_text cs = concat_text cs' ->
    transformStream JSON_parse JSON_stringify Date_now t
      {| chunks := cs; failure := failure |}
    = transformStream JSON_parse JSON_stringify Date_now t
        {| chunks := cs'; failure := failure |}.
Proof.
  intros parse stringify now t cs cs' failure Ha Ha' E.
  rewrite (chunking_invariance_ascii parse stringify now t cs failure Ha).
  rewrite (chunking_invariance_ascii parse stringify now t cs' failure Ha').
  rewrite E. reflexivity.
Qed.

(** X17. Once a completion event has been processed the generator adds
    nothing of its own at the end: when a completion event was handed to
    the transformer and no event raised an exception, the output is what
    the events produced, without a further stop chunk or sentinel, also
    when reading the body fails afterwards; the failure is rethrown. *)
Theorem completed_stream_gets_no_second_terminator :
  forall (JSON_parse : string -> option JSVal) (JSON_stringify : JSVal -> string)
         (Date_now : Z) (t : Transformer) (src : Source),
    let ls := consumed JSON_parse JSON_stringify Date_now t src in
    let out := transformStream JSON_parse JSON_stringify Date_now t src in
    existsb isCompletionEvent (delivered ls) = true ->
    thrown ls = None ->
    yields out = yielded ls
    /\ ending out = match failure src with
                    | Some e => Throw e
                    | None => Ret tt
                    end.
Proof.
  intros parse stringify now t src ls out Hc Ht.
  destruct (consumed_inv parse stringify now t src) as ((_ & Hflag) & _).
  fold ls in Hflag. specialize (Hflag Ht Hc).
  unfold out, transformStream, finish. fold ls. rewrite Ht, Hflag. cbn [negb].
  destruct (failure src); split; reflexivity.
Qed.

End StreamEnds.

(* ================================================================== *)
(** * More concrete runs *)
(* ================================================================== *)

Module MoreExamples.
Import Json Auth AuthFacts PoolFacts Dispatch DispatchFacts DispatchAmongOthers
       DispatchRuns ResponseOpenAI StreamFacts StreamEnds Routes RoutesFacts
       ShapingFacts NormaliserFacts Examples.

Lemma pool_is_the_configured_keys_witness :
  factoryApiKeys rotated3 = configuredKeys env3
  /\ configuredKeys env3 = ["fk-alpha"; "fk-beta"; "fk-gamma"].
Proof.
  split; [|vm_compute; reflexivity].
  apply (proj1 (pool_is_the_configured_keys env3 rotated3
                  (reach_rotate env3 loaded3 (reach_load env3)))).
Defined.

(** The pool after a dispatch that found every key out of quota. *)
Definition exhausted3 : State :=
  finalAuth (fetchWithFallback alone alwaysQuota noRefresh loaded3 request).

Lemma no_rotation_without_more_keys_witness :
  hasMoreFactoryKeys exhausted3 = false
  /\ fst (rotateFactoryApiKey exhausted3) = (Ret false, exhausted3).
Proof.
  assert (H : hasMoreFactoryKeys exhausted3 = false) by (vm_compute; reflexivity).
  split; [exact H|].
  apply (proj1 (no_rotation_without_more_keys env3 exhausted3
                  (fetchWithFallback_reachable alone alwaysQuota noRefresh env3 loaded3
                     request (reach_load env3)) H)).
Defined.

Lemma key_lookups_never_throw_witness :
  exists rotated, fst (fst (rotateFactoryApiKey exhausted3)) = Ret rotated.
Proof.
  apply (proj1 (key_lookups_never_throw env3 exhausted3
                  (fetchWithFallback_reachable alone alwaysQuota noRefresh env3 loaded3
                     request (reach_load env3)))).
Defined.

(** Nothing configured: the client's header is the only credential. *)
Definition envNone : Env :=
  {| getenv := fun _ => None; factoryAuthFile := None |}.

Definition loadedNone : State := snd (loadAuthConfig envNone initial).

Lemma client_authorization_only_in_client_mode_witness :
  authSource loadedNone = SrcClient
  /\ getApiKey noRefresh (Some "Bearer from-client") loadedNone
     = (Ret "Bearer from-client", loadedNone).
Proof.
  split; [reflexivity|].
  apply (proj1 (client_authorization_only_in_client_mode envNone loadedNone noRefresh
                  (reach_load envNone)) eq_refl (Some "Bearer from-client")).
Defined.

Lemma dispatch_calls_are_bounded_and_keyed_witness :
  (1 <= List.length (attempts interleaved) <= 10)%nat.
Proof.
  apply (proj1 (dispatch_calls_are_bounded_and_keyed rotatesDuringSecondCall alwaysQuota
                  noRefresh env3 loaded3 request (reach_load env3))).
Defined.

(** Another request starts a cycle during every call of the dispatch. *)
Definition restartsDuringEveryCall (attempt : Z) (point : AwaitPoint) : list PoolCall :=
  match point with
  | AwaitFetch => [CallStartNewRotationCycle]
  | _ => []
  end.

Definition endless : Run :=
  fetchWithFallback restartsDuringEveryCall alwaysQuota noRefresh loaded3 request.

Lemma dispatch_ends_with_its_last_call_witness :
  outcome endless = Throw afterAllAttempts
  /\ map keyIndex (attempts endless) = [0; 1; 2; 0; 1; 2; 0; 1; 2; 0]
  /\ exists earlier lastAttempt,
       attempts endless = earlier ++ [lastAttempt]
       /\ Forall (answeredQuota alwaysQuota request) earlier
       /\ ((finalOptions endless = optionsOf request lastAttempt
            /\ outcome endless
               = resultOf (alwaysQuota (attemptNo lastAttempt) (finalOptions endless)))
           \/ (outcome endless = Throw afterAllAttempts
               /\ List.length (attempts endless) = 10%nat
               /\ answeredQuota alwaysQuota request lastAttempt)).
Proof.
  split; [vm_compute; reflexivity|]. split; [vm_compute; reflexivity|].
  apply (proj1 (dispatch_ends_with_its_last_call restartsDuringEveryCall alwaysQuota
                  noRefresh env3 loaded3 request (reach_load env3))).
Defined.

Lemma dispatch_keeps_request_and_pool_witness :
  body (finalOptions interleaved) = body request
  /\ factoryApiKeys (finalAuth interleaved) = factoryApiKeys loaded3.
Proof.
  destruct (dispatch_keeps_request_and_pool rotatesDuringSecondCall alwaysQuota
              noRefresh env3 loaded3 request (reach_load env3)) as (A & _ & B & _).
  split; [exact A|exact B].
Defined.

Lemma dispatch_tries_no_key_twice_witness :
  NoDup (map keyIndex
           (attempts (fetchWithFallback alone quotaOnce noRefresh loaded3 request))).
Proof.
  apply (proj1 (proj2 (proj2 (proj2
           (dispatch_tries_no_key_twice quotaOnce noRefresh env3 loaded3 request
              (reach_load env3)))))).
Defined.

Lemma quota_failure_returned_only_after_full_cycle_witness :
  Z.of_nat (List.length
              (attempts (fetchWithFallback alone alwaysQuota noRefresh loaded3 request)))
  = 3.
Proof.
  apply (proj1 (quota_failure_returned_only_after_full_cycle alwaysQuota noRefresh
                  env3 loaded3 request
                  {| status := 429; responseBody := "quota exceeded"; bodyUsed := false |}
                  (reach_load env3) ltac:(vm_compute; reflexivity) eq_refl)).
Defined.

Lemma next_dispatch_resumes_at_last_key_witness :
  exists earlier lastAttempt firstAttempt later,
    attempts (fetchWithFallback alone quotaOnce noRefresh loaded3 request)
    = earlier ++ [lastAttempt]
    /\ attempts (fetchWithFallback alone alwaysQuota noRefresh
                   (finalAuth (fetchWithFallback alone quotaOnce noRefresh loaded3 request))
                   request)
       = firstAttempt :: later
    /\ keyIndex firstAttempt = keyIndex lastAttempt
    /\ keyIndex lastAttempt
       = currentKeyIndex
           (finalAuth (fetchWithFallback alone quotaOnce noRefresh loaded3 request))
    /\ sentAuthorization firstAttempt = get_header "authorization" (headers request).
Proof.
  apply (next_dispatch_resumes_at_last_key quotaOnce alwaysQuota noRefresh noRefresh
           env3 loaded3 request request (reach_load env3)).
Defined.

(** A request of a client on the responses route. *)
Definition clientRequest : list (string * JSVal) :=
  [ ("model", JStr "gpt-5-alias");
    ("instructions", JStr "Answer in French.");
    ("temperature", JNum 1);
    ("system", JStr "You are terse.") ].

Lemma forwarded_request_keeps_other_fields_witness :
  lookup "temperature"
    (handleDirectResponses_modifiedRequest "Be brief. " "gpt-5" (Some "high") clientRequest)
  = JNum 1.
Proof.
  apply (proj1 (proj1 (forwarded_request_keeps_other_fields "Be brief. " "gpt-5"
                         (Some "high") clientRequest "temperature")
                  eq_refl)).
Defined.

Lemma system_prompt_goes_first_witness :
  lookup "instructions"
    (handleDirectResponses_modifiedRequest "Be brief. " "gpt-5" (Some "high") clientRequest)
  = JStr "Be brief. Answer in French."
  /\ lookup "system"
       (handleDirectMessages_modifiedRequest "Be brief. " "gpt-5" (Some "high") clientRequest)
     = JArr [systemBlock "Be brief. "].
Proof.
  destruct (proj1 (system_prompt_goes_first "Be brief. " "gpt-5" (Some "high") clientRequest)
              ltac:(discriminate)) as (A & _ & C).
  split; [apply (A "Answer in French." eq_refl)|exact C].
Defined.

(** A vendor response whose output list holds a reasoning item, a
    message and a null. *)
Definition assistantMessage : JSVal :=
  JObj [ ("type", JStr "message"); ("role", JStr "assistant");
         ("content",
          JArr [ JObj [ ("type", JStr "output_text"); ("text", JStr "hi") ] ]) ].

Definition responseWithNull : list (string * JSVal) :=
  [ ("id", JStr "resp_abc");
    ("status", JStr "completed");
    ("output", JArr [ JObj [ ("type", JStr "reasoning") ]; assistantMessage; JNull ]) ].

Lemma first_message_decides_witness :
  convertResponseToChatCompletion 1700000000000 (JObj responseWithNull)
  = convertResponseToChatCompletion 1700000000000
      (JObj (set_prop "output" (JArr [assistantMessage]) responseWithNull)).
Proof.
  apply (first_message_decides 1700000000000 responseWithNull
           [ JObj [ ("type", JStr "reasoning") ] ] assistantMessage [ JNull ]
           eq_refl eq_refl eq_refl).
Defined.

Definition eventLine : string := ("event: response.output_text.delta" ++ nl)%string.

Lemma unterminated_last_line_is_dropped_witness :
  emitted [ eventLine; textDeltaLine ] = emitted [ eventLine ].
Proof.
  unfold emitted. apply (f_equal yields).
  exact (unterminated_last_line_is_dropped JsonRef.parse JsonRef.stringify 0 xf0
           [ eventLine ] textDeltaLine None
           ltac:(vm_compute; reflexivity) ltac:(vm_compute; reflexivity)).
Defined.

Lemma ascii_body_output_is_independent_of_chunking_witness :
  emitted [ eventLine; (textDeltaLine ++ nl)%string ]
  = emitted [ "event: response.outp"; ("ut_text.delta" ++ nl ++ textDeltaLine)%string; nl ].
Proof.
  unfold emitted. apply (f_equal yields).
  exact (ascii_body_output_is_independent_of_chunking JsonRef.parse JsonRef.stringify 0 xf0
           [ eventLine; (textDeltaLine ++ nl)%string ]
           [ "event: response.outp"; ("ut_text.delta" ++ nl ++ textDeltaLine)%string; nl ]
           None
           ltac:(vm_compute; reflexivity) ltac:(vm_compute; reflexivity)
           ltac:(vm_compute; reflexivity)).
Defined.

(** A body that delivers the completion event. *)
Definition finished : Source :=
  {| chunks := [ ("event: response.completed" ++ nl
                  ++ q "data: {'response':{'status':'completed'}}" ++ nl)%string ];
     failure := None |}.

Lemma completed_stream_gets_no_second_terminator_witness :
  yields (transformStream JsonRef.parse JsonRef.stringify 0 xf0 finished)
  = yielded (consumed JsonRef.parse JsonRef.stringify 0 xf0 finished)
  /\ List.length (yields (transformStream JsonRef.parse JsonRef.stringify 0 xf0 finished))
     = 1%nat.
Proof.
  split; [|vm_compute; reflexivity].
  apply (proj1 (completed_stream_gets_no_second_terminator JsonRef.parse JsonRef.stringify
                  0 xf0 finished
                  ltac:(vm_compute; reflexivity) ltac:(vm_compute; reflexivity))).
Defined.

End MoreExamples.
